(** * Feature-based image morphing: the field-warp core of [Image.cpp]

    A shallow embedding of [LineSegment.hpp], of the [Vec2] part of
    [Algebra3.hpp] and of the functions [sampleBilinear], [distortImage],
    [blendImages] and [morphImages] of [Image.cpp], and the properties of the
    specification checked on it.

    C++ [double] is IEEE 754 binary64.  It is modelled by the Standard
    Library's executable specification of binary floating point,
    [spec_float] at precision 53 and maximal exponent 1024, so that rounding,
    signed zeros, infinities and NaN are those of the program.  An operation
    whose behaviour C++ leaves undefined (a [double] converted to an integer
    type that cannot hold it, signed overflow, a read outside a buffer) or
    that aborts ([assert]) yields [None]. *)

From Stdlib Require Import Reals Lra.
From Stdlib Require Import ZArith Lia List Bool.
From Stdlib Require Import Floats.SpecFloat.
From stdpp Require Import base option list.

Local Open Scope Z_scope.

(** ** IEEE 754 binary64 *)

Module Double.

Definition prec : Z := 53.
Definition emax : Z := 1024.

Definition double : Type := spec_float.

Definition add : double -> double -> double := SFadd prec emax.
Definition sub : double -> double -> double := SFsub prec emax.
Definition mul : double -> double -> double := SFmul prec emax.
Definition div : double -> double -> double := SFdiv prec emax.
Definition sqrt : double -> double := SFsqrt prec emax.
Definition abs : double -> double := SFabs.
Definition ltb : double -> double -> bool := SFltb.
Definition leb : double -> double -> bool := SFleb.

(** Conversion of an integer ([int], [unsigned char]) to [double]; exact
    for every 32-bit value. *)
Definition of_int (z : Z) : double := binary_normalize prec emax z 0 false.

Definition zero : double := S754_zero false.
Definition one : double := of_int 1.
Definition nan : double := S754_nan.

Definition is_nan (x : double) : bool :=
  match x with S754_nan => true | _ => false end.

(** A binary64 datum: a canonical mantissa and exponent. *)
Definition valid (x : double) : bool := valid_binary prec emax x.

(** Mathematical floor of a finite number: [floor] of <cmath> composed
    with the value of the integral [double] it returns.  [Z.shiftl] by a
    negative amount is the arithmetic right shift, which rounds down. *)
Definition floorZ (x : double) : option Z :=
  match x with
  | S754_zero _ => Some 0
  | S754_finite s m e => Some (Z.shiftl (cond_Zopp s (Zpos m)) e)
  | S754_infinity _ | S754_nan => None
  end.

Definition INT_MIN : Z := - 2 ^ 31.
Definition INT_MAX : Z := 2 ^ 31 - 1.

Definition in_int (z : Z) : bool := (INT_MIN <=? z) && (z <=? INT_MAX).

(** [(int)floor(x)]: undefined when the floor does not fit an [int],
    in particular for NaN and the infinities. *)
Definition floor_to_int (x : double) : option Z :=
  match floorZ x with
  | Some z => if in_int z then Some z else None
  | None => None
  end.

(** [unsigned char c = floor(x)]: undefined outside 0..255. *)
Definition floor_to_uchar (x : double) : option Z :=
  match floorZ x with
  | Some z => if (0 <=? z) && (z <=? 255) then Some z else None
  | None => None
  end.

(** [a + b] on [int]: signed overflow is undefined. *)
Definition int_add (a b : Z) : option Z :=
  if in_int (a + b) then Some (a + b) else None.

(** The value of a finite number with its fractional part discarded. *)
Definition truncZ (x : double) : option Z :=
  match x with
  | S754_zero _ => Some 0
  | S754_finite s m e => Some (cond_Zopp s (Z.shiftl (Zpos m) e))
  | S754_infinity _ | S754_nan => None
  end.

(** A [double] converted to [int]: truncation, undefined when the
    truncated value does not fit an [int], in particular for NaN and the
    infinities. *)
Definition trunc_to_int (x : double) : option Z :=
  match truncZ x with
  | Some z => if in_int z then Some z else None
  | None => None
  end.

(** [abs] of <cstdlib> on [int]: undefined for [INT_MIN]. *)
Definition int_abs (z : Z) : option Z :=
  if z =? INT_MIN then None else Some (Z.abs z).

End Double.

Import Double.

Declare Scope double_scope.
Delimit Scope double_scope with D.
Bind Scope double_scope with double.
Infix "+" := add : double_scope.
Infix "-" := sub : double_scope.
Infix "*" := mul : double_scope.
Infix "/" := div : double_scope.
Infix "<?" := ltb : double_scope.
Infix "<=?" := leb : double_scope.

(** ** Vec2 *)

(** The 2D vector type [Vec2] of [Algebra3.hpp], whose text follows the
    drivers in [Image.cpp]: the two coordinates [n[0]] and [n[1]], read
    through [x()] and [y()]. *)
Record Vec2 : Type := mkVec2 { vx : double; vy : double }.

Module Vec2Ops.

(** [operator + (a, b)] *)
Definition vadd (a b : Vec2) : Vec2 := mkVec2 (vx a + vx b)%D (vy a + vy b)%D.

(** [operator - (a, b)] *)
Definition vsub (a b : Vec2) : Vec2 := mkVec2 (vx a - vx b)%D (vy a - vy b)%D.

(** [operator * (a, d)]: [Vec2(d * a.n[0], d * a.n[1])]. *)
Definition vscale_r (a : Vec2) (d : double) : Vec2 := mkVec2 (d * vx a)%D (d * vy a)%D.

(** [operator * (d, a)]: [return a * d]. *)
Definition vscale (d : double) (a : Vec2) : Vec2 := vscale_r a d.

(** [operator * (a, b)], the dot product. *)
Definition dot (a b : Vec2) : double := (vx a * vx b + vy a * vy b)%D.

(** [perp()]: [Vec2(-n[1], n[0])]. *)
Definition vperp (a : Vec2) : Vec2 := mkVec2 (SFopp (vy a)) (vx a).

(** [length2()]: [n[0] * n[0] + n[1] * n[1]]. *)
Definition vlength2 (a : Vec2) : double := dot a a.

(** [length()]: [sqrt(length2())]. *)
Definition vlength (a : Vec2) : double := sqrt (vlength2 a).

(** The vector with NaN in both coordinates. *)
Definition nanVec : Vec2 := mkVec2 nan nan.

End Vec2Ops.

Import Vec2Ops.

Module Algebra3.

(** [operator - (a)] *)
Definition neg (a : Vec2) : Vec2 := mkVec2 (SFopp (vx a)) (SFopp (vy a)).

(** [operator / (a, d)]: [d_inv = 1. / d], then a product per coordinate. *)
Definition div (a : Vec2) (d : double) : Vec2 :=
  let d_inv := (one / d)%D in
  mkVec2 (vx a * d_inv)%D (vy a * d_inv)%D.

(** [normalize()]: [*this /= length()]. *)
Definition normalize (a : Vec2) : Vec2 := div a (vlength a).

(** [std::min(a, b)] is [(b < a) ? b : a]. *)
Definition fmin (a b : double) : double := if (b <? a)%D then b else a.

(** [std::max(a, b)] is [(a < b) ? b : a]. *)
Definition fmax (a b : double) : double := if (a <? b)%D then b else a.

(** [min(a, b)] and [max(a, b)] on vectors, per coordinate. *)
Definition min (a b : Vec2) : Vec2 :=
  mkVec2 (fmin (vx a) (vx b)) (fmin (vy a) (vy b)).

Definition max (a b : Vec2) : Vec2 :=
  mkVec2 (fmax (vx a) (vx b)) (fmax (vy a) (vy b)).

(** [operator == (a, b)]: [==] of [double] on both coordinates. *)
Definition eqb (a b : Vec2) : bool := SFeqb (vx a) (vx b) && SFeqb (vy a) (vy b).

End Algebra3.

(** ** LineSegment.hpp *)

(** [pts[0]] and [pts[1]], read through [start()] and [end()]. *)
Record LineSegment : Type := mkLineSegment { start : Vec2; end_ : Vec2 }.

Module Segment.

Definition length2 (s : LineSegment) : double := vlength2 (vsub (end_ s) (start s)).

Definition length (s : LineSegment) : double := sqrt (length2 s).

Definition direction (s : LineSegment) : Vec2 := vsub (end_ s) (start s).

Definition perp (s : LineSegment) : Vec2 := vperp (direction s).

Definition lineParameter (s : LineSegment) (p : Vec2) : double :=
  (dot (vsub (end_ s) (start s)) (vsub p (start s)) / length2 s)%D.

Definition signedLineDistance (s : LineSegment) (p : Vec2) : double :=
  (dot (vsub p (start s)) (perp s) / length s)%D.

(** [abs(v)] as the header reads it.  No [using] directive precedes the
    class, so the only [abs] in scope is [int abs(int)] of <cstdlib>: [v] is
    converted to [int], and the [int] result is converted back to [double]
    on return. *)
Definition abs_int (v : double) : option double :=
  z ← trunc_to_int v; n ← int_abs z; Some (of_int n).

(** [segmentDistance(p, u, v)]: both out-of-range branches measure the
    distance to [start()]. *)
Definition segmentDistance3 (s : LineSegment) (p : Vec2) (u v : double)
    : option double :=
  if (u <? zero)%D then Some (vlength (vsub p (start s)))
  else if (one <? u)%D then Some (vlength (vsub p (start s)))
  else abs_int v.

(** [segmentDistance(p)] *)
Definition segmentDistance (s : LineSegment) (p : Vec2) : option double :=
  let u := lineParameter s p in
  let v := signedLineDistance s p in
  segmentDistance3 s p u v.

Definition lerp (s target : LineSegment) (t : double) : LineSegment :=
  mkLineSegment
    (vadd (vscale (one - t)%D (start s)) (vscale t (start target)))
    (vadd (vscale (one - t)%D (end_ s)) (vscale t (end_ target))).

End Segment.

(** ** Image.hpp *)

(** [w], [h], [nc] and the row-major byte buffer [buf], under the names of
    their accessors. *)
Record Image : Type := mkImage {
  width : Z;
  height : Z;
  numChannels : Z;
  data : list Z
}.

(** A buffer as [Image::resize] and the loader produce it: [w * h * nc]
    bytes, with dimensions that fit an [int]. *)
Record image_wf (img : Image) : Prop := mkImageWf {
  wf_width : 0 <= width img <= INT_MAX;
  wf_height : 0 <= height img <= INT_MAX;
  wf_channels : 0 <= numChannels img <= INT_MAX;
  wf_size : Z.of_nat (List.length (data img)) = width img * height img * numChannels img;
  wf_int : width img * height img * numChannels img <= INT_MAX;
  wf_bytes : Forall (fun b => 0 <= b <= 255) (data img)
}.

Definition hasSameDimsAs (a b : Image) : bool :=
  (width a =? width b) && (height a =? height b) && (numChannels a =? numChannels b).

(** [pixel(row, col)[ch]]: the byte at [(row * w + col) * nc + ch]; a read
    outside the buffer is undefined. *)
Definition pixel (img : Image) (row col ch : Z) : option Z :=
  let i := (row * width img + col) * numChannels img + ch in
  if 0 <=? i then data img !! Z.to_nat i else None.

(** ** Image.cpp: bilinear sampling *)

(** The four sanitized lattice coordinates of [sampleBilinear]. *)
Record Lattice : Type := mkLattice { pc0 : Z; pc1 : Z; pr0 : Z; pr1 : Z }.

Definition sanitize (w h col0 row0 : Z) : Lattice :=
  let pc0 := Z.max 0 (Z.min col0 (w - 1)) in
  let pc1 := Z.min (pc0 + 1) (w - 1) in
  let pr0 := Z.max 0 (Z.min row0 (h - 1)) in
  let pr1 := Z.min (pr0 + 1) (h - 1) in
  mkLattice pc0 pc1 pr0 pr1.

(** The body of the channel loop: [res] before it is floored. *)
Definition bilinearSum (p00 p01 p10 p11 : Z) (loc : Vec2)
    (col0 col1 row0 row1 : Z) : double :=
  let x := vx loc in
  let y := vy loc in
  let res := zero in
  let res := (res + of_int p00 * (of_int col1 - x) * (of_int row1 - y))%D in
  let res := (res + of_int p01 * (of_int col1 - x) * (y - of_int row0))%D in
  let res := (res + of_int p10 * (x - of_int col0) * (of_int row1 - y))%D in
  let res := (res + of_int p11 * (x - of_int col0) * (y - of_int row0))%D in
  res.

(** [min(255, max(0, (int)floor(res)))] *)
Definition clampByte (res : double) : option Z :=
  z ← floor_to_int res; Some (Z.min 255 (Z.max 0 z)).

(** [sampleBilinear] once [col0] and [row0] are known: one channel. *)
Definition sampleChannel (image : Image) (loc : Vec2)
    (col0 col1 row0 row1 : Z) (channel : Z) : option Z :=
  let L := sanitize (width image) (height image) col0 row0 in
  p00 ← pixel image (pr0 L) (pc0 L) channel;
  p01 ← pixel image (pr0 L) (pc1 L) channel;
  p10 ← pixel image (pr1 L) (pc0 L) channel;
  p11 ← pixel image (pr1 L) (pc1 L) channel;
  clampByte (bilinearSum p00 p01 p10 p11 loc col0 col1 row0 row1).

(** [sampleBilinear(image, loc, sampled_color)]: the four slots of
    [sampled_color].  Writing a fifth channel would overrun the array. *)
Definition sampleBilinear (image : Image) (loc : Vec2) : option (list Z) :=
  let n := numChannels image in
  col0 ← floor_to_int (vx loc);
  col1 ← int_add col0 1;
  row0 ← floor_to_int (vy loc);
  row1 ← int_add row0 1;
  chans ← mapM (sampleChannel image loc col0 col1 row0 row1) (seqZ 0 n);
  if 4 <? n then None
  else Some (chans ++ replicate (Z.to_nat (4 - n)) 0).


(** ** Image.cpp: the pixel loops *)

(** [for row in 0..h-1, for col in 0..w-1]: the loop nest shared by
    [distortImage] and [blendImages].  The body yields the bytes it stores at
    [result.pixel(row, col)]; stored in scan order they are the row-major
    buffer of the result. *)
Definition scanPixels (w h : Z) (body : Z -> Z -> option (list Z)) : option (list Z) :=
  rows ← mapM (fun row => cols ← mapM (body row) (seqZ 0 w); Some (concat cols))
              (seqZ 0 h);
  Some (concat rows).

(** ** Image.cpp: distortImage *)

Section Warp.

(** [pow] of <cmath>, which the C library provides. *)
Variable pow : double -> double -> double.

(** The body of the loop over the features, for the pair
    [seg_start[i]], [seg_end[i]]: the displacement [dis] and its weight
    [wt]. *)
Definition featureTerm (curr : Vec2) (t a b p : double)
    (start_ln target : LineSegment) : option (Vec2 * double) :=
  let end_ln := Segment.lerp start_ln target t in
  let u := Segment.lineParameter end_ln curr in
  let v := Segment.signedLineDistance end_ln curr in
  let interpolated :=
    vadd (vadd (start start_ln) (vscale u (Segment.direction start_ln)))
         (vscale v (Algebra3.div (Segment.perp start_ln) (Segment.length start_ln))) in
  let dis := vsub interpolated curr in
  d ← Segment.segmentDistance3 start_ln curr u v;
  Some (dis, pow (pow (Segment.length start_ln) p / (a + d))%D b).

(** [dissum += dis * wt; wtsum += wt] *)
Definition accumulate (curr : Vec2) (t a b p : double)
    (acc : Vec2 * double) (segs : LineSegment * LineSegment)
    : option (Vec2 * double) :=
  term ← featureTerm curr t a b p (fst segs) (snd segs);
  Some (vadd (fst acc) (vscale_r (fst term) (snd term)), (snd acc + snd term)%D).

(** The sums [dissum] and [wtsum] after the loop over the features. *)
Definition weightedSums (seg_start seg_end : list LineSegment)
    (curr : Vec2) (t a b p : double) : option (Vec2 * double) :=
  fold_left (fun sums segs => sums ≫= fun acc => accumulate curr t a b p acc segs)
            (zip seg_start seg_end)
            (Some (mkVec2 zero zero, zero)).

(** [curr + dissum / wtsum]: where the destination pixel samples the image. *)
Definition finalSource (seg_start seg_end : list LineSegment)
    (curr : Vec2) (t a b p : double) : option Vec2 :=
  sums ← weightedSums seg_start seg_end curr t a b p;
  Some (vadd curr (Algebra3.div (fst sums) (snd sums))).

(** The body of the pixel loops: the [n] bytes stored at
    [result.pixel(row, col)]. *)
Definition distortPixel (image : Image) (seg_start seg_end : list LineSegment)
    (t a b p : double) (row col : Z) : option (list Z) :=
  let curr := mkVec2 (of_int col) (of_int row) in
  interpolated ← finalSource seg_start seg_end curr t a b p;
  sample ← sampleBilinear image interpolated;
  Some (take (Z.to_nat (numChannels image)) sample).

Definition distortImage (image : Image) (seg_start seg_end : list LineSegment)
    (t a b p : double) : option Image :=
  if negb (Nat.eqb (List.length seg_start) (List.length seg_end)) then None
  else
    let w := width image in
    let h := height image in
    let n := numChannels image in
    buf ← scanPixels w h (distortPixel image seg_start seg_end t a b p);
    Some (mkImage w h n buf).

(** ** Image.cpp: blendImages and morphImages *)

(** [z = pix_1[channel] * t + pix_2[channel] * (1 - t)] *)
Definition blendValue (p1 p2 : Z) (t : double) : double :=
  (of_int p1 * t + of_int p2 * (one - t))%D.

(** [res_pix[channel] = floor(z)] *)
Definition blendByte (p1 p2 : Z) (t : double) : option Z :=
  floor_to_uchar (blendValue p1 p2 t).

Definition blendPixel (img1 img2 : Image) (t : double) (row col : Z) : option (list Z) :=
  mapM (fun channel =>
          p1 ← pixel img1 row col channel;
          p2 ← pixel img2 row col channel;
          blendByte p1 p2 t)
       (seqZ 0 (numChannels img1)).

Definition blendImages (img1 img2 : Image) (t : double) : option Image :=
  if negb (hasSameDimsAs img1 img2) then None
  else
    let w := width img1 in
    let h := height img1 in
    let n := numChannels img1 in
    buf ← scanPixels w h (blendPixel img1 img2 t);
    Some (mkImage w h n buf).

Definition morphImages (img1 img2 : Image) (seg1 seg2 : list LineSegment)
    (t a b p : double) : option Image :=
  if negb (hasSameDimsAs img1 img2) then None
  else
    distorted1 ← distortImage img1 seg1 seg2 t a b p;
    distorted2 ← distortImage img2 seg2 seg1 (one - t)%D a b p;
    blendImages distorted1 distorted2 (one - t)%D.

End Warp.

(** The [nc] bytes stored at [pixel(row, col)]. *)
Definition pixelBytes (img : Image) (row col : Z) : list Z :=
  take (Z.to_nat (numChannels img))
       (drop (Z.to_nat ((row * width img + col) * numChannels img)) (data img)).

(** [max(0, min(c, hi))] *)
Definition clampIndex (c hi : Z) : Z := Z.max 0 (Z.min c hi).

#[global] Instance double_eq_dec : EqDecision spec_float.
Proof. solve_decision. Defined.

(** ** The real value of a [double] *)

(** The number a finite [double] stands for; 0 for the other data. *)
Definition B2R (x : double) : R :=
  match x with
  | S754_finite s m e => (IZR (cond_Zopp s (Zpos m)) * powerRZ 2 e)%R
  | _ => 0%R
  end.

(** A zero, or a positive number whose exponent is not positive. *)
Definition nonneg_small (x : double) : Prop :=
  match x with
  | S754_zero _ => True
  | S754_finite false _ e => e <= 0
  | _ => False
  end.

(** Neither NaN nor an infinity. *)
Definition is_finite (x : double) : bool :=
  match x with
  | S754_zero _ | S754_finite _ _ _ => true
  | S754_infinity _ | S754_nan => false
  end.

(** ** The weight in the words of the specification *)

(** Modelled from the spec: [segmentDistance(p, u, v)] is the Euclidean
    distance to the start endpoint when [u < 0] or [u > 1], otherwise [|v|]. *)
Definition specSegmentDistance (s : LineSegment) (p : Vec2) (u v : double) : double :=
  if (u <? zero)%D then vlength (vsub p (start s))
  else if (one <? u)%D then vlength (vsub p (start s))
  else abs v.

(** Modelled from the spec: the weight of a feature is computed from the
    reference segment [R = lerp(startSegs[i], endSegs[i], t)], from its
    length and from the distance of the pixel to it. *)
Definition specWeight (pow : double -> double -> double)
    (curr : Vec2) (t a b p : double) (start_ln target : LineSegment) : double :=
  let R := Segment.lerp start_ln target t in
  let u := Segment.lineParameter R curr in
  let v := Segment.signedLineDistance R curr in
  pow (pow (Segment.length R) p / (a + specSegmentDistance R curr u v))%D b.

(** ** Concrete inputs *)

(** [pow] at the exponents where the C standard fixes its value exactly:
    [pow(x, 0)] is 1 for every [x] and [pow(x, 1)] is [x].  The concrete
    inputs below call it with these exponents only; elsewhere it answers NaN. *)
Definition pow_std (x y : double) : double :=
  if SFeqb y zero then one
  else if SFeqb y one then x
  else nan.

Definition one_half : double := (one / of_int 2)%D.

(** The coordinate -1.5, left of the image by more than a pixel. *)
Definition minus_three_halves : double := (of_int (-3) / of_int 2)%D.

(** The point [(x, y)] and the segment from [(x0, y0)] to [(x1, y1)], at
    integer coordinates. *)
Definition pt (x y : Z) : Vec2 := mkVec2 (of_int x) (of_int y).

Definition seg (x0 y0 x1 y1 : Z) : LineSegment :=
  mkLineSegment (pt x0 y0) (pt x1 y1).

(** A 1x1 image with one channel. *)
Definition img_1x1 : Image := mkImage 1 1 1 [7].

(** A 2x1 image with one channel: columns 10 and 20. *)
Definition img_2x1 : Image := mkImage 2 1 1 [10; 20].

(** A 2x2 image with one channel, rows [10 20] and [30 40]. *)
Definition img_2x2 : Image := mkImage 2 2 1 [10; 20; 30; 40].

(** A 3x3 image with one channel. *)
Definition img_3x3 : Image := mkImage 3 3 1 [10; 20; 30; 40; 50; 60; 70; 80; 90].

(** The point (-1000.5, 1000.5), far to the left of and below any small
    image. *)
Definition far_outside : Vec2 :=
  mkVec2 (of_int (-2001) / of_int 2)%D (of_int 2001 / of_int 2)%D.

(** The largest double below 1: [1 - 2^-53]. *)
Definition one_pred : double := S754_finite false 9007199254740991 (-53).

(** Two 1x1 RGBA images. *)
Definition img_grey100 : Image := mkImage 1 1 4 [100; 100; 100; 255].

Definition img_grey200 : Image := mkImage 1 1 4 [200; 200; 200; 255].

(** * Further code of the sources *)

(** ** LineSegment.hpp: the endpoint accessors *)

(** [endpoint(i)]: [assert(i >= 0 && i < 2)], then [pts[i]]. *)
Definition endpoint (s : LineSegment) (i : Z) : option Vec2 :=
  if (0 <=? i) && (i <? 2) then Some (if i =? 0 then start s else end_ s)
  else None.

(** [setEndpoint(i, p)]: [assert(i >= 0 && i < 2)], then [pts[i] = p]. *)
Definition setEndpoint (s : LineSegment) (i : Z) (p : Vec2) : option LineSegment :=
  if (0 <=? i) && (i <? 2)
  then Some (if i =? 0 then mkLineSegment p (end_ s) else mkLineSegment (start s) p)
  else None.

(** [setStart(p)], [setEnd(p)] and [setEndpoints(p, q)] *)
Definition setStart (s : LineSegment) (p : Vec2) : LineSegment :=
  mkLineSegment p (end_ s).

Definition setEnd (s : LineSegment) (p : Vec2) : LineSegment :=
  mkLineSegment (start s) p.

Definition setEndpoints (s : LineSegment) (p q : Vec2) : LineSegment :=
  mkLineSegment p q.

(** ** Image.hpp: offsets into the buffer *)

(** [pixel(row, col)] points [(row * w + col) * nc] bytes into [buf];
    channel [ch] of the pixel is [ch] bytes further. *)
Definition pixelOffset (img : Image) (row col ch : Z) : Z :=
  (row * width img + col) * numChannels img + ch.

(** [scanline(row)] points [(row * w) * nc] bytes into [buf]. *)
Definition scanlineOffset (img : Image) (row : Z) : Z :=
  (row * width img) * numChannels img.

(** ** Image.cpp: the sanity check of [main] *)

(** [if (t < 0.0 || t > 1.0) { if (t > 1.0) t = 1.0; else t = 0.0; }] *)
Definition clampTime (t : double) : double :=
  if (t <? zero)%D || (one <? t)%D
  then (if (one <? t)%D then one else zero)
  else t.

(** ** Signs and finite points *)

(** The sign a datum carries, as [std::signbit] reads it; NaN is given
    none. *)
Definition signbit (x : double) : bool :=
  match x with
  | S754_zero s | S754_infinity s | S754_finite s _ _ => s
  | S754_nan => false
  end.

(** Both coordinates are finite binary64 data. *)
Definition finiteVec (a : Vec2) : bool :=
  valid (vx a) && valid (vy a) && is_finite (vx a) && is_finite (vy a).

(** * Properties *)

(** ** Buffers and lattice coordinates *)

Lemma pixel_in_bounds (img : Image) (row col ch : Z) :
  image_wf img ->
  0 <= row < height img -> 0 <= col < width img -> 0 <= ch < numChannels img ->
  exists b, pixel img row col ch = Some b /\ 0 <= b <= 255.
Proof.
  intros Hwf Hr Hc Hch. unfold pixel.
  set (i := (row * width img + col) * numChannels img + ch).
  assert (Hi : 0 <= i < width img * height img * numChannels img).
  { subst i.
    assert (0 <= row * width img + col) by nia.
    assert (row * width img + col + 1 <= height img * width img) by nia.
    split; [nia|].
    assert ((row * width img + col + 1) * numChannels img
            <= height img * width img * numChannels img) by nia.
    nia. }
  destruct (Z.leb_spec 0 i) as [_|]; [|lia].
  destruct (lookup_lt_is_Some_2 (data img) (Z.to_nat i)) as [b Hb].
  { pose proof (wf_size img Hwf). lia. }
  exists b. split; [exact Hb|].
  pose proof (wf_bytes img Hwf) as Hall.
  rewrite Forall_lookup in Hall. exact (Hall _ _ Hb).
Qed.

Lemma sanitize_in_bounds (w h col0 row0 : Z) :
  1 <= w -> 1 <= h ->
  let L := sanitize w h col0 row0 in
  (0 <= pr0 L <= h - 1 /\ 0 <= pr1 L <= h - 1) /\
  (0 <= pc0 L <= w - 1 /\ 0 <= pc1 L <= w - 1).
Proof. intros Hw Hh. cbn. lia. Qed.

(** ** NaN in the arithmetic *)

Lemma add_nan_r (x : double) : (x + nan)%D = nan.
Proof. destruct x; reflexivity. Qed.

Lemma add_nan_l (x : double) : (nan + x)%D = nan.
Proof. reflexivity. Qed.

Lemma sub_nan_l (x : double) : (nan - x)%D = nan.
Proof. reflexivity. Qed.

Lemma mul_nan_r (x : double) : (x * nan)%D = nan.
Proof. destruct x; reflexivity. Qed.

Lemma mul_nan_l (x : double) : (nan * x)%D = nan.
Proof. reflexivity. Qed.

Lemma div_nan_l (x : double) : (nan / x)%D = nan.
Proof. reflexivity. Qed.

Lemma div_nan_r (x : double) : (x / nan)%D = nan.
Proof. destruct x; reflexivity. Qed.

(** [x - x] is [+0] for a number and NaN otherwise. *)
Lemma sub_diag (x : double) : (x - x)%D = zero \/ (x - x)%D = nan.
Proof.
  destruct x as [[|]|[|]| |s m e]; cbn; auto.
  left. unfold sub, SFsub. rewrite Z.sub_diag. reflexivity.
Qed.

Lemma vadd_nan_r (a : Vec2) : vadd a nanVec = nanVec.
Proof. unfold vadd, nanVec; cbn. by rewrite !add_nan_r. Qed.

Lemma sampleBilinear_nan (image : Image) : sampleBilinear image nanVec = None.
Proof. reflexivity. Qed.

(** ** The pixel loops *)

Lemma mapM_head_None {A B} (f : A -> option B) (x : A) (l : list A) :
  f x = None -> mapM f (x :: l) = None.
Proof. intros H. cbn. by rewrite H. Qed.

Lemma scanPixels_first_None (w h : Z) (body : Z -> Z -> option (list Z)) :
  1 <= w -> 1 <= h -> body 0 0 = None -> scanPixels w h body = None.
Proof.
  intros Hw Hh H0. unfold scanPixels.
  rewrite (seqZ_cons 0 h) by lia.
  rewrite mapM_head_None; [reflexivity|].
  rewrite (seqZ_cons 0 w) by lia.
  by rewrite mapM_head_None.
Qed.

(** ** distortImage: the missing fallbacks *)

Section WarpFacts.

Variable pow : double -> double -> double.

Lemma finalSource_nil (curr : Vec2) (t a b p : double) :
  finalSource pow [] [] curr t a b p = Some nanVec.
Proof.
  unfold finalSource, weightedSums. cbn.
  change (Algebra3.div _ _) with nanVec. f_equal. apply vadd_nan_r.
Qed.

Lemma distortPixel_nanSource (image : Image) (seg_start seg_end : list LineSegment)
    (t a b p : double) (row col : Z) :
  (forall interpolated,
     finalSource pow seg_start seg_end (mkVec2 (of_int col) (of_int row)) t a b p
     = Some interpolated -> interpolated = nanVec) ->
  distortPixel pow image seg_start seg_end t a b p row col = None.
Proof.
  intros H. unfold distortPixel.
  destruct (finalSource _ _ _ _ _ _ _ _) as [src|]; [|reflexivity].
  rewrite (H src eq_refl). cbn [mbind option_bind]. by rewrite sampleBilinear_nan.
Qed.

Lemma distortImage_nanSource (image : Image) (seg_start seg_end : list LineSegment)
    (t a b p : double) :
  1 <= width image -> 1 <= height image ->
  (forall interpolated,
     finalSource pow seg_start seg_end (mkVec2 (of_int 0) (of_int 0)) t a b p
     = Some interpolated -> interpolated = nanVec) ->
  distortImage pow image seg_start seg_end t a b p = None.
Proof.
  intros Hw Hh Hsrc. unfold distortImage.
  destruct (negb _); [reflexivity|].
  rewrite scanPixels_first_None; try done.
  by apply distortPixel_nanSource.
Qed.

(** A segment whose endpoints coincide has no unit normal:
    [perp() / length()] is NaN in both components. *)
Lemma degenerate_normal (s : LineSegment) :
  start s = end_ s -> Algebra3.div (Segment.perp s) (Segment.length s) = nanVec.
Proof.
  destruct s as [[x y] q]; cbn [start end_]. intros <-.
  unfold Segment.perp, Segment.length, Segment.length2, Segment.direction.
  unfold vsub; cbn [start end_ vx vy].
  destruct (sub_diag x) as [-> | ->], (sub_diag y) as [-> | ->]; reflexivity.
Qed.

Lemma featureTerm_degenerate (curr : Vec2) (t a b p : double)
    (start_ln target : LineSegment) (dis : Vec2) (wt : double) :
  start start_ln = end_ start_ln ->
  featureTerm pow curr t a b p start_ln target = Some (dis, wt) -> dis = nanVec.
Proof.
  intros Hdeg H. unfold featureTerm in H.
  destruct (Segment.segmentDistance3 _ _ _ _) as [d|]; [|discriminate H].
  cbn in H. injection H as <- _.
  rewrite (degenerate_normal _ Hdeg).
  unfold vscale, vscale_r, vadd, vsub, nanVec; cbn.
  by rewrite !mul_nan_r, !add_nan_r.
Qed.

Lemma accumulate_nan_kept (curr : Vec2) (t a b p : double) (wtsum : double)
    (segs : LineSegment * LineSegment) (acc : Vec2 * double) :
  accumulate pow curr t a b p (nanVec, wtsum) segs = Some acc -> fst acc = nanVec.
Proof.
  unfold accumulate. destruct (featureTerm _ _ _ _ _ _ _ _) as [[dis wt]|];
    [|discriminate]. cbn. by intros [= <-].
Qed.

Lemma accumulate_degenerate (curr : Vec2) (t a b p : double)
    (acc acc' : Vec2 * double) (segs : LineSegment * LineSegment) :
  start (fst segs) = end_ (fst segs) ->
  accumulate pow curr t a b p acc segs = Some acc' -> fst acc' = nanVec.
Proof.
  intros Hdeg. unfold accumulate.
  destruct (featureTerm _ _ _ _ _ _ _ _) as [[dis wt]|] eqn:E; [|discriminate].
  apply (featureTerm_degenerate _ _ _ _ _ _ _ _ _ Hdeg) in E. subst dis.
  cbn. intros [= <-]. cbn. unfold vscale_r, nanVec; cbn [vx vy].
  rewrite !mul_nan_r. apply vadd_nan_r.
Qed.

Lemma fold_accumulate_None (curr : Vec2) (t a b p : double)
    (l : list (LineSegment * LineSegment)) :
  fold_left (fun sums segs => sums ≫= fun acc => accumulate pow curr t a b p acc segs)
            l None = None.
Proof. induction l as [|segs l IH]; [reflexivity | exact IH]. Qed.

Lemma fold_accumulate_nan (curr : Vec2) (t a b p : double)
    (l : list (LineSegment * LineSegment)) (wtsum : double) (sums : Vec2 * double) :
  fold_left (fun sums segs => sums ≫= fun acc => accumulate pow curr t a b p acc segs)
            l (Some (nanVec, wtsum)) = Some sums ->
  fst sums = nanVec.
Proof.
  revert wtsum. induction l as [|segs l IH]; intros wtsum.
  - cbn. by intros [= <-].
  - cbn [fold_left mbind option_bind].
    destruct (accumulate pow curr t a b p (nanVec, wtsum) segs) as [[d w']|] eqn:E.
    + apply accumulate_nan_kept in E. cbn in E. subst d. apply IH.
    + rewrite fold_accumulate_None. discriminate.
Qed.

Lemma fold_accumulate_degenerate (curr : Vec2) (t a b p : double)
    (l : list (LineSegment * LineSegment)) (acc : option (Vec2 * double))
    (sums : Vec2 * double) :
  Exists (fun segs => start (fst segs) = end_ (fst segs)) l ->
  fold_left (fun sums segs => sums ≫= fun acc => accumulate pow curr t a b p acc segs)
            l acc = Some sums ->
  fst sums = nanVec.
Proof.
  intros Hex. revert acc. induction Hex as [segs l Hdeg | segs l _ IH]; intros acc.
  - cbn [fold_left]. destruct acc as [acc|]; cbn [mbind option_bind].
    + destruct (accumulate pow curr t a b p acc segs) as [[d w']|] eqn:E.
      * apply (accumulate_degenerate _ _ _ _ _ _ _ _ Hdeg) in E. cbn in E. subst d.
        apply fold_accumulate_nan.
      * rewrite fold_accumulate_None. discriminate.
    + rewrite fold_accumulate_None. discriminate.
  - cbn [fold_left]. apply IH.
Qed.

Lemma finalSource_degenerate (seg_start seg_end : list LineSegment)
    (curr : Vec2) (t a b p : double) (i : nat) (s : LineSegment)
    (interpolated : Vec2) :
  List.length seg_start = List.length seg_end ->
  seg_start !! i = Some s -> start s = end_ s ->
  finalSource pow seg_start seg_end curr t a b p = Some interpolated ->
  interpolated = nanVec.
Proof.
  intros Hlen Hi Hdeg. unfold finalSource, weightedSums.
  destruct (lookup_lt_is_Some_2 seg_end i) as [e He].
  { rewrite <- Hlen. by eapply lookup_lt_Some. }
  destruct (fold_left _ _ _) as [[dissum wtsum]|] eqn:E; [|discriminate].
  apply fold_accumulate_degenerate in E.
  - cbn in E. subst dissum. cbn. intros [= <-].
    change (Algebra3.div nanVec wtsum) with nanVec. apply vadd_nan_r.
  - apply Exists_exists. exists (s, e). split; [|exact Hdeg].
    apply list_elem_of_lookup. exists i.
    rewrite lookup_zip_with. by rewrite Hi, He.
Qed.

End WarpFacts.

(** ** C2, C3: empty feature array, zero weight, degenerate segment *)

Lemma div_zero_not_finite (c d : double) (s : bool) :
  is_finite (c + d * (one / S754_zero s))%D = false.
Proof. destruct c as [[|]|[|]| |[|] m e], d as [[|]|[|]| |[|] m' e'], s; reflexivity. Qed.

(** C2 (fails on the code): there is no identity fallback.  Wherever the
    total weight is a zero, [dissum / wtsum] divides by zero and neither
    coordinate of the final source is a number, so it is not the pixel [X];
    with an empty feature array the final source is NaN at every pixel, and
    [distortImage] of an image with at least one pixel has no defined result
    instead of returning the image. *)
Theorem distort_zero_weight_no_fallback (pow : double -> double -> double)
    (image : Image) (seg_start seg_end : list LineSegment) (curr : Vec2)
    (t a b p : double) :
  1 <= width image -> 1 <= height image ->
  (forall (dissum : Vec2) (s : bool),
     weightedSums pow seg_start seg_end curr t a b p = Some (dissum, S754_zero s) ->
     exists interpolated,
       finalSource pow seg_start seg_end curr t a b p = Some interpolated /\
       is_finite (vx interpolated) = false /\
       is_finite (vy interpolated) = false) /\
  finalSource pow [] [] curr t a b p = Some nanVec /\
  distortImage pow image [] [] t a b p = None.
Proof.
  intros Hw Hh. split; [|split].
  - intros dissum s Hs. unfold finalSource. rewrite Hs.
    eexists. split; [reflexivity|].
    unfold vadd, Algebra3.div; cbn. split; apply div_zero_not_finite.
  - apply finalSource_nil.
  - apply distortImage_nanSource; [exact Hw | exact Hh |].
    intros src. rewrite finalSource_nil. by intros [= <-].
Qed.

Lemma distort_zero_weight_no_fallback_witness :
  1 <= width img_1x1 /\ 1 <= height img_1x1 /\
  finalSource pow_std [] [] (pt 0 0) one_half one one one = Some nanVec /\
  distortImage pow_std img_1x1 [] [] one_half one one one = None.
Proof.
  assert (Hw : 1 <= width img_1x1) by (cbn; lia).
  assert (Hh : 1 <= height img_1x1) by (cbn; lia).
  split; [exact Hw|]. split; [exact Hh|].
  exact (proj2 (distort_zero_weight_no_fallback pow_std img_1x1 [] [] (pt 0 0)
                  one_half one one one Hw Hh)).
Defined.

(** C3 (fails on the code): a zero-length start segment is not excluded
    from the blend.  Its unit normal [perp() / length()] is 0/0, the
    displacement it contributes is NaN whatever its weight, and NaN stays in
    [dissum] through every later feature: wherever the loop over the
    features has a defined result the final source of the pixel is NaN, and
    [distortImage] of an image with at least one pixel has no defined
    result. *)
Theorem distort_degenerate_segment_nan (pow : double -> double -> double)
    (image : Image) (seg_start seg_end : list LineSegment)
    (t a b p : double) (i : nat) (s : LineSegment) :
  List.length seg_start = List.length seg_end ->
  seg_start !! i = Some s -> start s = end_ s ->
  1 <= width image -> 1 <= height image ->
  (forall target curr dis wt,
     featureTerm pow curr t a b p s target = Some (dis, wt) -> dis = nanVec) /\
  (forall curr interpolated,
     finalSource pow seg_start seg_end curr t a b p = Some interpolated ->
     interpolated = nanVec) /\
  distortImage pow image seg_start seg_end t a b p = None.
Proof.
  intros Hlen Hi Hdeg Hw Hh. split; [|split].
  - intros target curr dis wt. by apply featureTerm_degenerate.
  - intros curr src. by eapply finalSource_degenerate.
  - apply distortImage_nanSource; [exact Hw | exact Hh |].
    intros src. by eapply finalSource_degenerate.
Qed.

Lemma distort_degenerate_segment_nan_witness :
  finalSource pow_std [seg 1 1 1 1; seg 0 0 2 0] [seg 0 0 2 0; seg 0 0 2 0]
    (pt 0 0) one_half one one one = Some nanVec /\
  distortImage pow_std img_1x1 [seg 1 1 1 1; seg 0 0 2 0] [seg 0 0 2 0; seg 0 0 2 0]
    one_half one one one = None.
Proof.
  assert (Hw : 1 <= width img_1x1) by (cbn; lia).
  assert (Hh : 1 <= height img_1x1) by (cbn; lia).
  destruct (distort_degenerate_segment_nan pow_std img_1x1
              [seg 1 1 1 1; seg 0 0 2 0] [seg 0 0 2 0; seg 0 0 2 0]
              one_half one one one 0%nat (seg 1 1 1 1)
              eq_refl eq_refl eq_refl Hw Hh) as (_ & Hsrc & Hnone).
  split; [|exact Hnone].
  assert (Hd : is_Some (finalSource pow_std [seg 1 1 1 1; seg 0 0 2 0]
                          [seg 0 0 2 0; seg 0 0 2 0] (pt 0 0) one_half one one one))
    by (vm_compute; eauto).
  destruct Hd as [src Hd]. rewrite Hd. f_equal. by apply (Hsrc (pt 0 0)).
Defined.

(** ** Exact arithmetic on machine integers

    An [int] converts to a [double] without rounding: its mantissa is the
    integer shifted to 53 bits.  Differences of neighbouring integers and
    products of bytes with 0 and 1 are therefore exact. *)

Lemma digits2_pos_iter_xO (p k : positive) :
  digits2_pos (Pos.iter xO p k) = (digits2_pos p + k)%positive.
Proof.
  induction k as [|k IH] using Pos.peano_ind.
  - cbn. lia.
  - rewrite Pos.iter_succ. cbn. rewrite IH. lia.
Qed.

Lemma Zpos_iter_xO (p k : positive) :
  Zpos (Pos.iter xO p k) = Zpos p * 2 ^ Zpos k.
Proof.
  induction k as [|k IH] using Pos.peano_ind.
  - cbn. lia.
  - rewrite Pos.iter_succ, Pos2Z.inj_succ, Z.pow_succ_r by lia.
    rewrite Pos2Z.inj_xO, IH. lia.
Qed.

Lemma digits2_pos_bounds (p : positive) :
  2 ^ (Zpos (digits2_pos p) - 1) <= Zpos p < 2 ^ Zpos (digits2_pos p).
Proof.
  induction p as [p IH|p IH|]; cbn [digits2_pos].
  - rewrite Pos2Z.inj_succ, Z.pow_succ_r by lia.
    replace (Z.succ (Zpos (digits2_pos p)) - 1) with (Z.succ (Zpos (digits2_pos p) - 1)) by lia.
    rewrite Z.pow_succ_r by lia. lia.
  - rewrite Pos2Z.inj_succ, Z.pow_succ_r by lia.
    replace (Z.succ (Zpos (digits2_pos p)) - 1) with (Z.succ (Zpos (digits2_pos p) - 1)) by lia.
    rewrite Z.pow_succ_r by lia. lia.
  - cbn. lia.
Qed.

Lemma binary_round_aux_canonical (s : bool) (m : positive) (e : Z) :
  Zpos (digits2_pos m) = 53 -> -1074 <= e <= 971 ->
  binary_round_aux prec emax s (Zpos m) e loc_Exact = S754_finite s m e.
Proof.
  intros Hd He. unfold binary_round_aux, shr_fexp, fexp, emin, prec, emax.
  cbn [Zdigits2 shr_record_of_loc]. rewrite Hd.
  replace (Z.max (53 + e - 53) (3 - 1024 - 53) - e) with 0 by lia.
  cbn [shr shr_m loc_of_shr_record round_nearest_even shr_record_of_loc Zdigits2].
  rewrite Hd.
  replace (Z.max (53 + e - 53) (3 - 1024 - 53) - e) with 0 by lia.
  cbn [shr shr_m].
  destruct (Z.leb_spec e (1024 - 53)); [reflexivity|lia].
Qed.

Lemma binary_round_short (s : bool) (p : positive) (e : Z) (k : positive) :
  Zpos (digits2_pos p) + Zpos k = 53 -> -1074 <= e - Zpos k -> e - Zpos k <= 971 ->
  binary_round prec emax s p e = S754_finite s (Pos.iter xO p k) (e - Zpos k).
Proof.
  intros Hd Hlo Hhi. unfold binary_round, shl_align, fexp, emin, prec, emax.
  replace (Z.max (Zpos (digits2_pos p) + e - 53) (3 - 1024 - 53) - e) with (Zneg k) by lia.
  replace (Z.max (Zpos (digits2_pos p) + e - 53) (3 - 1024 - 53)) with (e - Zpos k) by lia.
  apply binary_round_aux_canonical; [|lia].
  rewrite digits2_pos_iter_xO. lia.
Qed.

Lemma of_int_nonzero (z : Z) :
  z <> 0 -> Z.abs z < 2 ^ 52 ->
  exists (m k : positive),
    of_int z = S754_finite (z <? 0) m (- Zpos k) /\
    cond_Zopp (z <? 0) (Zpos m) = z * 2 ^ Zpos k /\
    Zpos k <= 52 /\ Z.abs z < 2 ^ (53 - Zpos k).
Proof.
  intros Hz Hlt.
  assert (Hgen : forall (s : bool) (p : positive), Zpos p < 2 ^ 52 ->
            exists m k, binary_round prec emax s p 0 = S754_finite s m (- Zpos k) /\
                        Zpos m = Zpos p * 2 ^ Zpos k /\ Zpos k <= 52 /\
                        Zpos p < 2 ^ (53 - Zpos k)).
  { intros s p Hp.
    pose proof (digits2_pos_bounds p) as [Hlo Hhi].
    assert (Hd : Zpos (digits2_pos p) <= 52).
    { destruct (Z.le_gt_cases (Zpos (digits2_pos p)) 52) as [|Hgt]; [done|].
      assert (2 ^ 52 <= 2 ^ (Zpos (digits2_pos p) - 1)) by (apply Z.pow_le_mono_r; lia).
      lia. }
    destruct (53 - Zpos (digits2_pos p)) as [|k|k] eqn:Ek; try lia.
    exists (Pos.iter xO p k), k. split; [|split; [|split]].
    - rewrite (binary_round_short s p 0 k) by lia. reflexivity.
    - apply Zpos_iter_xO.
    - lia.
    - replace (53 - Zpos k) with (Zpos (digits2_pos p)) by lia. exact Hhi. }
  destruct z as [|p|p]; [done| |].
  - destruct (Hgen false p) as (m & k & H1 & H2 & H3 & H4); [lia|].
    exists m, k. cbn. repeat split; try done.
  - destruct (Hgen true p) as (m & k & H1 & H2 & H3 & H4); [lia|].
    exists m, k. cbn. repeat split; try done.
    cbn in H2. lia.
Qed.

Lemma floorZ_of_int (z : Z) : Z.abs z < 2 ^ 52 -> floorZ (of_int z) = Some z.
Proof.
  intros Hlt. destruct (Z.eq_dec z 0) as [-> | Hz]; [reflexivity|].
  destruct (of_int_nonzero z Hz Hlt) as (m & k & -> & Hm & _ & _).
  cbn [floorZ]. rewrite Hm. f_equal.
  change (Z.shiftl (z * 2 ^ Zpos k) (- Zpos k)) with (Z.shiftr (z * 2 ^ Zpos k) (Zpos k)).
  rewrite Z.shiftr_div_pow2 by lia.
  apply Z.div_mul. lia.
Qed.

Lemma floor_to_int_of_int (z : Z) :
  INT_MIN <= z <= INT_MAX -> floor_to_int (of_int z) = Some z.
Proof.
  intros Hz. unfold floor_to_int.
  rewrite floorZ_of_int by (unfold INT_MIN, INT_MAX in Hz; lia).
  unfold in_int.
  destruct (Z.leb_spec INT_MIN z), (Z.leb_spec z INT_MAX); try lia. reflexivity.
Qed.

Lemma shl_align_value (m : positive) (e ez : Z) :
  ez <= e -> Zpos (fst (shl_align m e ez)) = Zpos m * 2 ^ (e - ez).
Proof.
  intros Hle. unfold shl_align.
  destruct (ez - e) as [|d|d] eqn:Ed; try lia.
  - replace (e - ez) with 0 by lia. cbn. lia.
  - cbn [fst]. rewrite Zpos_iter_xO. f_equal. f_equal. lia.
Qed.

Lemma cond_Zopp_mul (s : bool) (a b : Z) : cond_Zopp s (a * b) = cond_Zopp s a * b.
Proof. destruct s; cbn; lia. Qed.

Lemma normalize_pow2 (k : Z) :
  0 <= k <= 52 -> binary_normalize prec emax (2 ^ k) (- k) false = one.
Proof.
  intros Hk.
  assert (H : forallb (fun k => bool_decide (binary_normalize prec emax (2 ^ k) (- k) false = one))
                (seqZ 0 53) = true) by (vm_compute; reflexivity).
  rewrite forallb_forall in H.
  specialize (H k). rewrite bool_decide_eq_true in H. apply H.
  apply list_elem_of_In, elem_of_seqZ. lia.
Qed.

Lemma of_int_succ_sub (z : Z) :
  INT_MIN <= z < INT_MAX -> (of_int (z + 1) - of_int z)%D = one.
Proof.
  intros Hz. unfold INT_MIN, INT_MAX in Hz.
  destruct (Z.eq_dec z 0) as [-> | Hz0]; [reflexivity|].
  destruct (Z.eq_dec (z + 1) 0) as [Hz1 | Hz1].
  { replace z with (-1) by lia. reflexivity. }
  destruct (of_int_nonzero z Hz0) as (m & k & -> & Hm & Hk & _); [lia|].
  destruct (of_int_nonzero (z + 1) Hz1) as (m' & k' & -> & Hm' & Hk' & _); [lia|].
  unfold sub, SFsub.
  set (ez := Z.min (- Zpos k') (- Zpos k)).
  replace (cond_Zopp (z + 1 <? 0) (Zpos (fst (shl_align m' (- Zpos k') ez))))
    with ((z + 1) * 2 ^ (- ez)).
  2:{ rewrite shl_align_value by lia. rewrite cond_Zopp_mul, Hm'.
      rewrite <- Z.mul_assoc, <- Z.pow_add_r by lia. f_equal. f_equal. lia. }
  replace (cond_Zopp (z <? 0) (Zpos (fst (shl_align m (- Zpos k) ez))))
    with (z * 2 ^ (- ez)).
  2:{ rewrite shl_align_value by lia. rewrite cond_Zopp_mul, Hm.
      rewrite <- Z.mul_assoc, <- Z.pow_add_r by lia. f_equal. f_equal. lia. }
  replace ((z + 1) * 2 ^ (- ez) - z * 2 ^ (- ez)) with (2 ^ (- ez)) by lia.
  replace ez with (- (- ez)) at 2 by lia.
  apply normalize_pow2. lia.
Qed.

Lemma of_int_sub_diag (z : Z) :
  Z.abs z < 2 ^ 52 -> (of_int z - of_int z)%D = zero.
Proof.
  intros Hlt. destruct (Z.eq_dec z 0) as [-> | Hz]; [reflexivity|].
  destruct (of_int_nonzero z Hz Hlt) as (m & k & -> & _).
  unfold sub, SFsub. rewrite Z.sub_diag. reflexivity.
Qed.

(** ** LineSegment *)

Lemma truncZ_below_one (v : double) :
  valid v = true -> (abs v <? one)%D = true -> truncZ v = Some 0.
Proof.
  intros Hv Hlt. destruct v as [s | s | | s m e]; try discriminate Hlt; [reflexivity|].
  unfold valid, valid_binary, bounded, canonical_mantissa, fexp, emin, prec, emax in Hv.
  apply andb_true_iff in Hv as [Hc _]. apply Z.eqb_eq in Hc.
  pose proof (digits2_pos_bounds m) as [_ Hhi].
  change one with (S754_finite false 4503599627370496 (-52)) in Hlt.
  unfold abs, SFabs, ltb, SFltb, SFcompare in Hlt.
  assert (He : e <= -52) by (destruct (Z.compare_spec e (-52)); (lia || discriminate)).
  assert (Hm : Zpos m < 2 ^ (- e)).
  { destruct (Z.compare_spec e (-52)) as [-> | Hlt' | Hgt]; [| | lia].
    - change (2 ^ (- -52)) with 4503599627370496.
      destruct (Pos.compare_cont Eq m 4503599627370496) eqn:Hcmp; try discriminate.
      exact Hcmp.
    - assert (Hd : Zpos (digits2_pos m) <= 53) by lia.
      assert (2 ^ Zpos (digits2_pos m) <= 2 ^ (- e)) by (apply Z.pow_le_mono_r; lia).
      lia. }
  cbn [truncZ]. rewrite Z.shiftl_div_pow2 by lia.
  rewrite Z.div_small by lia. by destruct s.
Qed.

Lemma abs_int_below_one (v : double) :
  valid v = true -> (abs v <? one)%D = true -> Segment.abs_int v = Some zero.
Proof.
  intros Hv Hlt. unfold Segment.abs_int, trunc_to_int.
  rewrite (truncZ_below_one v Hv Hlt). reflexivity.
Qed.

Lemma abs_int_not_finite (v : double) :
  is_finite v = false -> Segment.abs_int v = None.
Proof. destruct v; intros H; try discriminate H; reflexivity. Qed.

(** C10 (fails on the code): when the projection falls on the segment the
    code does not return [|v|].  [abs(v)] in the header is [int abs(int)]:
    [v] is converted to [int] first, so the result is the absolute value of
    the truncated [v], which is 0 for every point nearer than 1 to the line,
    and nothing is defined when [v] is NaN, infinite or beyond the range of
    [int].  When [u < 0] and also when [u > 1] the result is the distance to
    the start endpoint, as specified.  For the segment (0,0)-(1,1) and the
    point (1,0), [u] is 1/2 and [|v|] is 0.707..., and the code returns 0. *)
Theorem segmentDistance_truncates (s : LineSegment) (p : Vec2) :
  let u := Segment.lineParameter s p in
  let v := Segment.signedLineDistance s p in
  let dx := (vx p - vx (start s))%D in
  let dy := (vy p - vy (start s))%D in
  Segment.segmentDistance s p = Segment.segmentDistance3 s p u v /\
  ((u <? zero)%D = true ->
     Segment.segmentDistance3 s p u v = Some (sqrt (dx * dx + dy * dy)%D)) /\
  ((one <? u)%D = true ->
     Segment.segmentDistance3 s p u v = Some (sqrt (dx * dx + dy * dy)%D)) /\
  ((u <? zero)%D = false -> (one <? u)%D = false ->
     Segment.segmentDistance3 s p u v = Segment.abs_int v /\
     (valid v = true -> (abs v <? one)%D = true ->
        Segment.segmentDistance3 s p u v = Some zero) /\
     (is_finite v = false -> Segment.segmentDistance3 s p u v = None)) /\
  (Segment.lineParameter (seg 0 0 1 1) (pt 1 0) = one_half /\
   (zero <? abs (Segment.signedLineDistance (seg 0 0 1 1) (pt 1 0)))%D = true /\
   Segment.segmentDistance (seg 0 0 1 1) (pt 1 0) = Some zero /\
   Segment.segmentDistance (seg 0 0 1 1) (pt 1 0)
   <> Some (abs (Segment.signedLineDistance (seg 0 0 1 1) (pt 1 0)))).
Proof.
  intros u v dx dy. split; [reflexivity|].
  unfold Segment.segmentDistance3.
  split; [|split; [|split]].
  - intros ->. reflexivity.
  - intros ->. destruct (u <? zero)%D; reflexivity.
  - intros -> ->. split; [reflexivity|]. split.
    + apply abs_int_below_one.
    + apply abs_int_not_finite.
  - repeat split; try (vm_compute; reflexivity).
    vm_compute. discriminate.
Qed.

Lemma segmentDistance_truncates_witness :
  (one <? Segment.lineParameter (seg 0 0 1 0) (pt 3 0))%D = true /\
  Segment.segmentDistance (seg 0 0 1 0) (pt 3 0) = Some (of_int 3) /\
  (Segment.lineParameter (seg 0 0 1 1) (pt 1 0) <? zero)%D = false /\
  (one <? Segment.lineParameter (seg 0 0 1 1) (pt 1 0))%D = false /\
  Segment.segmentDistance (seg 0 0 1 1) (pt 1 0) = Some zero.
Proof.
  assert (Hu : (one <? Segment.lineParameter (seg 0 0 1 0) (pt 3 0))%D = true)
    by (vm_compute; reflexivity).
  assert (H0 : (Segment.lineParameter (seg 0 0 1 1) (pt 1 0) <? zero)%D = false)
    by (vm_compute; reflexivity).
  assert (H1 : (one <? Segment.lineParameter (seg 0 0 1 1) (pt 1 0))%D = false)
    by (vm_compute; reflexivity).
  split; [exact Hu|]. split.
  - destruct (segmentDistance_truncates (seg 0 0 1 0) (pt 3 0)) as (E1 & _ & E3 & _).
    rewrite E1, (E3 Hu). vm_compute. reflexivity.
  - split; [exact H0|]. split; [exact H1|].
    destruct (segmentDistance_truncates (seg 0 0 1 1) (pt 1 0)) as (E1 & _ & _ & E4 & _).
    rewrite E1. apply (proj1 (proj2 (E4 H0 H1))); vm_compute; reflexivity.
Defined.

(** ** Pixels and unit weights *)

Lemma byte_cases (f : Z -> bool) :
  forallb f (seqZ 0 256) = true -> forall b, 0 <= b <= 255 -> f b = true.
Proof.
  intros H b Hb. rewrite forallb_forall in H. apply H.
  apply list_elem_of_In, elem_of_seqZ. lia.
Qed.

Lemma bilinearSum_unit_weights (p00 p01 p10 p11 : Z) :
  0 <= p00 <= 255 -> 0 <= p01 <= 255 -> 0 <= p10 <= 255 -> 0 <= p11 <= 255 ->
  (zero + of_int p00 * one * one + of_int p01 * one * zero
   + of_int p10 * zero * one + of_int p11 * zero * zero)%D = of_int p00.
Proof.
  intros H00 H01 H10 H11.
  assert (HA : forall b, 0 <= b <= 255 ->
             bool_decide ((zero + of_int b * one * one)%D = of_int b) = true)
    by (apply byte_cases; vm_compute; reflexivity).
  assert (HB : forall b, 0 <= b <= 255 ->
             bool_decide ((of_int b * one * zero)%D = zero
                          /\ (of_int b * zero * one)%D = zero
                          /\ (of_int b * zero * zero)%D = zero
                          /\ (of_int b + zero)%D = of_int b) = true)
    by (apply byte_cases; vm_compute; reflexivity).
  pose proof (HA p00 H00) as E0. rewrite bool_decide_eq_true in E0.
  pose proof (HB p01 H01) as E1. rewrite bool_decide_eq_true in E1.
  pose proof (HB p10 H10) as E2. rewrite bool_decide_eq_true in E2.
  pose proof (HB p11 H11) as E3. rewrite bool_decide_eq_true in E3.
  pose proof (HB p00 H00) as E4. rewrite bool_decide_eq_true in E4.
  destruct E1 as (E1 & _), E2 as (_ & E2 & _), E3 as (_ & _ & E3 & _), E4 as (_ & _ & _ & E4).
  rewrite E0, E1, E4, E2, E4, E3, E4. reflexivity.
Qed.

Lemma clampByte_of_int (b : Z) : 0 <= b <= 255 -> clampByte (of_int b) = Some b.
Proof.
  intros Hb. unfold clampByte.
  rewrite floor_to_int_of_int by (unfold INT_MIN, INT_MAX; lia).
  cbn. f_equal. lia.
Qed.

Lemma bilinearSum_integer (p00 p01 p10 p11 cx cy : Z) :
  0 <= p00 <= 255 -> 0 <= p01 <= 255 -> 0 <= p10 <= 255 -> 0 <= p11 <= 255 ->
  INT_MIN <= cx < INT_MAX -> INT_MIN <= cy < INT_MAX ->
  bilinearSum p00 p01 p10 p11 (pt cx cy) cx (cx + 1) cy (cy + 1) = of_int p00.
Proof.
  intros H00 H01 H10 H11 Hx Hy. unfold bilinearSum, pt; cbn [vx vy].
  rewrite !of_int_succ_sub by done.
  rewrite !of_int_sub_diag by (unfold INT_MIN, INT_MAX in *; lia).
  by apply bilinearSum_unit_weights.
Qed.

Lemma pixel_lookup (img : Image) (row col ch : Z) :
  0 <= (row * width img + col) * numChannels img -> 0 <= ch ->
  pixel img row col ch
  = drop (Z.to_nat ((row * width img + col) * numChannels img)) (data img) !! Z.to_nat ch.
Proof.
  intros Hi Hch. unfold pixel.
  destruct (Z.leb_spec 0 ((row * width img + col) * numChannels img + ch)); [|lia].
  rewrite lookup_drop. f_equal. lia.
Qed.

Lemma mapM_pixel (img : Image) (row col : Z) :
  image_wf img -> 0 <= row < height img -> 0 <= col < width img ->
  mapM (pixel img row col) (seqZ 0 (numChannels img)) = Some (pixelBytes img row col).
Proof.
  intros Hwf Hr Hc. apply mapM_Some_2.
  pose proof (wf_channels img Hwf) as Hn.
  apply Forall2_same_length_lookup_2.
  - rewrite length_seqZ. unfold pixelBytes. rewrite length_take, length_drop.
    pose proof (wf_size img Hwf).
    assert (0 <= row * width img + col) by nia.
    assert (row * width img + col + 1 <= width img * height img) by nia.
    assert ((row * width img + col + 1) * numChannels img
            <= width img * height img * numChannels img) by nia.
    assert (0 <= (row * width img + col) * numChannels img) by nia.
    lia.
  - intros i ch b Hch Hb. apply lookup_seqZ in Hch as [-> Hlt].
    unfold pixelBytes in Hb. rewrite lookup_take_lt in Hb by lia.
    assert (0 <= row * width img + col) by nia.
    rewrite pixel_lookup by nia. rewrite <- Hb. f_equal. lia.
Qed.

(** ** The sampler at integer coordinates *)

Lemma mapM_ext_in {A B} (f g : A -> option B) (l : list A) :
  (forall x, x ∈ l -> f x = g x) -> mapM f l = mapM g l.
Proof.
  induction l as [|x l IH]; intros H; [reflexivity|].
  cbn. rewrite (H x) by left. rewrite IH; [reflexivity|].
  intros y Hy. apply H. by right.
Qed.

Lemma sampleChannel_integer (image : Image) (cx cy ch : Z) :
  image_wf image -> 1 <= width image -> 1 <= height image ->
  INT_MIN <= cx < INT_MAX -> INT_MIN <= cy < INT_MAX ->
  0 <= ch < numChannels image ->
  sampleChannel image (pt cx cy) cx (cx + 1) cy (cy + 1) ch
  = pixel image (clampIndex cy (height image - 1)) (clampIndex cx (width image - 1)) ch.
Proof.
  intros Hwf Hw Hh Hx Hy Hch. unfold sampleChannel.
  pose proof (sanitize_in_bounds (width image) (height image) cx cy Hw Hh) as [[Hr0 Hr1] [Hc0 Hc1]].
  set (L := sanitize (width image) (height image) cx cy) in *.
  destruct (pixel_in_bounds image (pr0 L) (pc0 L) ch) as (p00 & E00 & B00); [done|lia|lia|done|].
  destruct (pixel_in_bounds image (pr0 L) (pc1 L) ch) as (p01 & E01 & B01); [done|lia|lia|done|].
  destruct (pixel_in_bounds image (pr1 L) (pc0 L) ch) as (p10 & E10 & B10); [done|lia|lia|done|].
  destruct (pixel_in_bounds image (pr1 L) (pc1 L) ch) as (p11 & E11 & B11); [done|lia|lia|done|].
  rewrite E00, E01, E10, E11. cbn [mbind option_bind].
  rewrite bilinearSum_integer by done.
  rewrite clampByte_of_int by done.
  symmetry. exact E00.
Qed.

Lemma int_add_succ (z : Z) : INT_MIN <= z < INT_MAX -> int_add z 1 = Some (z + 1).
Proof.
  intros Hz. unfold int_add, in_int.
  destruct (Z.leb_spec INT_MIN (z + 1)), (Z.leb_spec (z + 1) INT_MAX); try lia. reflexivity.
Qed.

Lemma clampIndex_range (c hi : Z) : 0 <= hi -> 0 <= clampIndex c hi <= hi.
Proof. unfold clampIndex. lia. Qed.

Lemma sampleBilinear_integer (image : Image) (cx cy : Z) :
  image_wf image -> numChannels image <= 4 ->
  1 <= width image -> 1 <= height image ->
  INT_MIN <= cx < INT_MAX -> INT_MIN <= cy < INT_MAX ->
  sampleBilinear image (pt cx cy)
  = Some (pixelBytes image (clampIndex cy (height image - 1))
                           (clampIndex cx (width image - 1))
          ++ replicate (Z.to_nat (4 - numChannels image)) 0).
Proof.
  intros Hwf Hn Hw Hh Hx Hy. unfold sampleBilinear, pt; cbn [vx vy].
  rewrite !floor_to_int_of_int by lia. cbn [mbind option_bind].
  rewrite !int_add_succ by done. cbn [mbind option_bind].
  rewrite (mapM_ext_in _ (pixel image (clampIndex cy (height image - 1))
                                      (clampIndex cx (width image - 1)))).
  2:{ intros ch Hch. apply elem_of_seqZ in Hch.
      apply (sampleChannel_integer image cx cy ch); (done || lia). }
  pose proof (clampIndex_range cy (height image - 1)).
  pose proof (clampIndex_range cx (width image - 1)).
  rewrite mapM_pixel by (done || lia). cbn [mbind option_bind].
  destruct (Z.ltb_spec 4 (numChannels image)); [lia|reflexivity].
Qed.

Lemma clampIndex_id (c hi : Z) : 0 <= c <= hi -> clampIndex c hi = c.
Proof. unfold clampIndex. lia. Qed.

(** ** Coordinates left of the image *)

Lemma shiftl_neg_below (m : positive) (e : Z) :
  (0 <= e \/ 2 ^ (- e) < Zpos m) -> 2 <= Zpos m ->
  Z.shiftl (Zneg m) e <= -2.
Proof.
  intros He Hm. destruct (Z.le_gt_cases 0 e) as [Hnn|Hneg].
  - rewrite Z.shiftl_mul_pow2 by done.
    assert (1 <= 2 ^ e) by (apply (Z.pow_le_mono_r 2 0 e); lia). nia.
  - destruct He as [|He]; [lia|].
    replace e with (- (- e)) by lia.
    change (Z.shiftl (Z.neg m) (- - e)) with (Z.shiftr (Z.neg m) (- e)).
    rewrite Z.shiftr_div_pow2 by lia.
    assert (Z.neg m / 2 ^ (- e) < -1); [|lia].
    apply Z.div_lt_upper_bound; lia.
Qed.

Lemma floor_below_minus_one (x : double) (c : Z) :
  valid x = true -> (x <? of_int (-1))%D = true -> floorZ x = Some c -> c <= -2.
Proof.
  intros Hv Hlt Hfl.
  change (of_int (-1)) with (S754_finite true 4503599627370496 (-52)) in Hlt.
  destruct x as [s|s| |[|] m e]; try discriminate.
  - cbn in Hfl. injection Hfl as <-.
    unfold valid, valid_binary, bounded, canonical_mantissa, fexp, emin, prec, emax in Hv.
    apply andb_true_iff in Hv as [Hc _]. apply Z.eqb_eq in Hc.
    pose proof (digits2_pos_bounds m) as [Hlo Hhi].
    unfold ltb, SFltb, SFcompare in Hlt.
    destruct (Z.compare_spec e (-52)) as [He|He|He]; try discriminate.
    + subst e.
      destruct (Pos.compare_cont Eq m 4503599627370496) eqn:Hcmp; try discriminate.
      assert (Hgt : (m > 4503599627370496)%positive) by exact Hcmp.
      apply Pos.gt_lt in Hgt. clear Hcmp.
      apply shiftl_neg_below; [right|lia].
      change (2 ^ (- (-52))) with 4503599627370496. lia.
    + assert (Zpos (digits2_pos m) = 53) by lia.
      assert (2 ^ 52 <= Zpos m) by (replace 52 with (Zpos (digits2_pos m) - 1) by lia; done).
      apply shiftl_neg_below; [|lia].
      destruct (Z.le_gt_cases 0 e); [by left|right].
      assert (2 ^ (- e) < 2 ^ 52) by (apply Z.pow_lt_mono_r; lia). lia.
Qed.

Lemma pixelBytes_length (img : Image) (row col : Z) :
  image_wf img -> 0 <= row < height img -> 0 <= col < width img ->
  List.length (pixelBytes img row col) = Z.to_nat (numChannels img).
Proof.
  intros Hwf Hr Hc.
  pose proof (mapM_pixel img row col Hwf Hr Hc) as H.
  apply mapM_Some_1, Forall2_length in H. rewrite <- H. apply length_seqZ.
Qed.

Lemma pixelBytes_lookup (img : Image) (row col ch : Z) :
  image_wf img -> 0 <= row < height img -> 0 <= col < width img ->
  0 <= ch < numChannels img ->
  pixelBytes img row col !! Z.to_nat ch = pixel img row col ch.
Proof.
  intros Hwf Hr Hc Hch. unfold pixelBytes.
  assert (0 <= row * width img + col) by nia.
  rewrite lookup_take_lt by lia. rewrite pixel_lookup by nia. reflexivity.
Qed.

Lemma img_2x2_wf : image_wf img_2x2.
Proof. split; cbn; unfold INT_MAX; try lia. repeat constructor; lia. Qed.

(** ** C9, C4: the bilinear sampler *)

(** C9: at integer coordinates [(x, y)] inside the buffer the sampler
    returns the bytes stored at pixel [(y, x)] in the first [c] slots and 0 in
    the slots from [c] up to 4. *)
Theorem sampleBilinear_at_integer_pixel (image : Image) (x y : Z) :
  image_wf image -> numChannels image <= 4 ->
  0 <= x <= width image - 1 -> 0 <= y <= height image - 1 ->
  exists sampled_color : list Z,
    sampleBilinear image (pt x y) = Some sampled_color /\
    sampled_color
    = pixelBytes image y x ++ replicate (Z.to_nat (4 - numChannels image)) 0 /\
    List.length sampled_color = 4%nat /\
    (forall ch, 0 <= ch < numChannels image ->
       sampled_color !! Z.to_nat ch = pixel image y x ch) /\
    (forall ch, numChannels image <= ch < 4 ->
       sampled_color !! Z.to_nat ch = Some 0).
Proof.
  intros Hwf Hn Hx Hy.
  pose proof (wf_width image Hwf) as Hw. pose proof (wf_height image Hwf) as Hh.
  pose proof (wf_channels image Hwf) as Hc.
  eexists. split; [|split; [reflexivity|]].
  - rewrite sampleBilinear_integer by (done || (unfold INT_MIN, INT_MAX in *; lia)).
    rewrite !clampIndex_id by lia. reflexivity.
  - pose proof (pixelBytes_length image y x Hwf) as Hlen.
    split; [|split].
    + rewrite length_app, length_replicate, Hlen by lia. lia.
    + intros ch Hch. rewrite lookup_app_l by (rewrite Hlen by lia; lia).
      apply pixelBytes_lookup; (done || lia).
    + intros ch Hch. rewrite lookup_app_r by (rewrite Hlen by lia; lia).
      rewrite Hlen by lia. apply lookup_replicate_2. lia.
Qed.

Lemma sampleBilinear_at_integer_pixel_witness :
  sampleBilinear img_2x2 (pt 1 0) = Some [20; 0; 0; 0].
Proof.
  destruct (sampleBilinear_at_integer_pixel img_2x2 1 0 img_2x2_wf)
    as (out & Hout & Heq & _); cbn; try lia.
  rewrite Hout, Heq. reflexivity.
Defined.

(** C4 (fails on the code): the four lattice coordinates are not clamped
    each on its own.  The first column and row are clamped into the buffer,
    and the second ones are the clamped first plus one, cut at the last
    index.  So a coordinate at or beyond the last column or row samples it
    twice, as the comment above [sampleBilinear] asks, while for every
    [x < -1] in a buffer at least two pixels wide the sampled columns are 0
    and 1.  On the row [10 20], at [x = -1.5] the columns are 0 and 1 and the
    sample is 15, the blend of the two, not the border value 10; at
    [x = 2.5] the sample is the border value 20. *)
Theorem sanitize_second_from_first :
  (forall w h col0 row0 : Z,
     1 <= w -> 1 <= h ->
     let L := sanitize w h col0 row0 in
     pc0 L = clampIndex col0 (w - 1) /\ pc1 L = Z.min (pc0 L + 1) (w - 1) /\
     pr0 L = clampIndex row0 (h - 1) /\ pr1 L = Z.min (pr0 L + 1) (h - 1) /\
     (w - 1 <= col0 -> pc0 L = w - 1 /\ pc1 L = w - 1) /\
     (h - 1 <= row0 -> pr0 L = h - 1 /\ pr1 L = h - 1) /\
     (2 <= w -> col0 < 0 -> pc0 L = 0 /\ pc1 L = 1) /\
     (2 <= h -> row0 < 0 -> pr0 L = 0 /\ pr1 L = 1) /\
     (forall x : double,
        2 <= w -> valid x = true -> (x <? of_int (-1))%D = true ->
        floor_to_int x = Some col0 -> pc0 L = 0 /\ pc1 L = 1)) /\
  (minus_three_halves <? of_int (-1))%D = true /\
  floor_to_int minus_three_halves = Some (-2) /\
  pc0 (sanitize (width img_2x1) (height img_2x1) (-2) 0) = 0 /\
  pc1 (sanitize (width img_2x1) (height img_2x1) (-2) 0) = 1 /\
  ~ (pc0 (sanitize (width img_2x1) (height img_2x1) (-2) 0) = 0 /\
     pc1 (sanitize (width img_2x1) (height img_2x1) (-2) 0) = 0) /\
  sampleBilinear img_2x1 (mkVec2 minus_three_halves one_half) = Some [15; 0; 0; 0] /\
  sampleBilinear img_2x1 (mkVec2 (of_int 5 / of_int 2)%D one_half) = Some [20; 0; 0; 0].
Proof.
  split.
  - intros w h col0 row0 Hw Hh L. subst L.
    unfold sanitize, clampIndex; cbn [pc0 pc1 pr0 pr1].
    repeat (split; [try reflexivity; lia|]).
    intros x Hw2 Hv Hlt Hfl.
    unfold floor_to_int in Hfl. destruct (floorZ x) as [c|] eqn:Hc; [|discriminate].
    destruct (in_int c); [|discriminate]. injection Hfl as ->.
    pose proof (floor_below_minus_one x col0 Hv Hlt Hc). lia.
  - repeat split; try (vm_compute; reflexivity).
    intros [_ H]. vm_compute in H. discriminate H.
Qed.

Lemma sanitize_second_from_first_witness :
  pc0 (sanitize 2 1 (-2) 0) = 0 /\ pc1 (sanitize 2 1 (-2) 0) = 1.
Proof.
  assert (H1 : 1 <= 2) by lia. assert (H2 : 1 <= 1) by lia.
  destruct (proj1 sanitize_second_from_first 2 1 (-2) 0 H1 H2)
    as (_ & _ & _ & _ & _ & _ & _ & _ & Hx).
  apply (Hx minus_three_halves); [lia | | | ]; vm_compute; reflexivity.
Defined.

(** ** C1: the weight of a feature *)

(** C1 (fails on the code): the weight is not computed from the reference
    segment.  For every input the length and the distance in the weight are
    those of the start segment [seg_start[i]], with [u] and [v] taken from the
    interpolated one.  For the start segment (3,0)-(4,0), the end segment
    (5,0)-(8,0), [t = 0.5], the pixel (0,0) and [a = b = p = 1] the reference
    segment is (4,0)-(6,0), of length 2 and at distance 4: the specified
    weight is 2/5, and the code computes 1/(1+3) = 1/4. *)
Theorem distort_weight_uses_start_segment (pow : double -> double -> double) :
  (forall x, pow x one = x) ->
  (forall curr t a b p start_ln target,
     snd <$> featureTerm pow curr t a b p start_ln target
     = (d ← Segment.segmentDistance3 start_ln curr
              (Segment.lineParameter (Segment.lerp start_ln target t) curr)
              (Segment.signedLineDistance (Segment.lerp start_ln target t) curr);
        Some (pow (pow (Segment.length start_ln) p / (a + d))%D b))) /\
  Segment.lerp (seg 3 0 4 0) (seg 5 0 8 0) one_half = seg 4 0 6 0 /\
  snd <$> featureTerm pow (pt 0 0) one_half one one one (seg 3 0 4 0) (seg 5 0 8 0)
  = Some (one / of_int 4)%D /\
  specWeight pow (pt 0 0) one_half one one one (seg 3 0 4 0) (seg 5 0 8 0)
  = (of_int 2 / of_int 5)%D /\
  snd <$> featureTerm pow (pt 0 0) one_half one one one (seg 3 0 4 0) (seg 5 0 8 0)
  <> Some (specWeight pow (pt 0 0) one_half one one one (seg 3 0 4 0) (seg 5 0 8 0)).
Proof.
  intros Hpow.
  assert (Hgen : forall curr t a b p start_ln target,
     snd <$> featureTerm pow curr t a b p start_ln target
     = (d ← Segment.segmentDistance3 start_ln curr
              (Segment.lineParameter (Segment.lerp start_ln target t) curr)
              (Segment.signedLineDistance (Segment.lerp start_ln target t) curr);
        Some (pow (pow (Segment.length start_ln) p / (a + d))%D b))).
  { intros curr t a b p start_ln target. unfold featureTerm.
    destruct (Segment.segmentDistance3 _ _ _ _); reflexivity. }
  assert (Hcode : snd <$> featureTerm pow (pt 0 0) one_half one one one
                            (seg 3 0 4 0) (seg 5 0 8 0)
                  = Some (one / of_int 4)%D).
  { rewrite Hgen.
    change (Segment.segmentDistance3 (seg 3 0 4 0) (pt 0 0) _ _) with (Some (of_int 3)).
    cbn [mbind option_bind]. rewrite !Hpow. vm_compute. reflexivity. }
  assert (Hspec : specWeight pow (pt 0 0) one_half one one one (seg 3 0 4 0) (seg 5 0 8 0)
                  = (of_int 2 / of_int 5)%D).
  { unfold specWeight. rewrite !Hpow. vm_compute. reflexivity. }
  split; [exact Hgen|]. split; [vm_compute; reflexivity|].
  split; [exact Hcode|]. split; [exact Hspec|].
  rewrite Hcode, Hspec. vm_compute. discriminate.
Qed.

Lemma distort_weight_uses_start_segment_witness :
  snd <$> featureTerm pow_std (pt 0 0) one_half one one one (seg 3 0 4 0) (seg 5 0 8 0)
  <> Some (specWeight pow_std (pt 0 0) one_half one one one (seg 3 0 4 0) (seg 5 0 8 0)).
Proof.
  assert (Hpow : forall x, pow_std x one = x) by (intros x; reflexivity).
  exact (proj2 (proj2 (proj2 (proj2 (distort_weight_uses_start_segment pow_std Hpow))))).
Defined.

(** ** C8: morphImages *)

(** C8: on images of the same dimensions [morphImages] is the blend, with
    weight [1 - t] on the first operand, of [img1] distorted from [seg1] to
    [seg2] at time [t] and of [img2] distorted from [seg2] to [seg1] at time
    [1 - t]. *)
Theorem morphImages_blend_of_distorts (pow : double -> double -> double)
    (img1 img2 : Image) (seg1 seg2 : list LineSegment) (t a b p : double) :
  hasSameDimsAs img1 img2 = true ->
  morphImages pow img1 img2 seg1 seg2 t a b p
  = (warped1 ← distortImage pow img1 seg1 seg2 t a b p;
     warped2 ← distortImage pow img2 seg2 seg1 (one - t)%D a b p;
     blendImages warped1 warped2 (one - t)%D).
Proof. intros Hdims. unfold morphImages. rewrite Hdims. reflexivity. Qed.

Lemma morphImages_blend_of_distorts_witness :
  morphImages pow_std (mkImage 1 1 1 [100]) (mkImage 1 1 1 [200])
    [seg 0 0 2 0] [seg 0 0 4 0] one_half one one zero
  = Some (mkImage 1 1 1 [150]).
Proof.
  rewrite (morphImages_blend_of_distorts pow_std (mkImage 1 1 1 [100]) (mkImage 1 1 1 [200])
             [seg 0 0 2 0] [seg 0 0 4 0] one_half one one zero eq_refl).
  vm_compute. reflexivity.
Defined.

(** ** The row-major buffer *)

Lemma mapM_total {A B} (f : A -> option B) (g : A -> B) (l : list A) :
  (forall x, x ∈ l -> f x = Some (g x)) -> mapM f l = Some (g <$> l).
Proof.
  induction l as [|x l IH]; intros H; [reflexivity|].
  cbn. rewrite (H x) by left. cbn. rewrite IH; [reflexivity|].
  intros y Hy. apply H. by right.
Qed.

Lemma concat_chunks {A} (l : list A) (c m : nat) :
  concat ((fun j => take c (drop (j * c) l)) <$> seq 0 m) = take (m * c) l.
Proof.
  induction m as [|m IH]; [reflexivity|].
  rewrite seq_S, fmap_app, concat_app, IH. cbn [fmap list_fmap concat Nat.add].
  rewrite app_nil_r, take_take_drop. f_equal. lia.
Qed.

Lemma seqZ_0_fmap (n : Z) : seqZ 0 n = Z.of_nat <$> seq 0 (Z.to_nat n).
Proof.
  unfold seqZ. apply list_fmap_ext. intros _ i _. lia.
Qed.

Lemma scanPixels_total (w h : Z) (body : Z -> Z -> option (list Z))
    (g : Z -> Z -> list Z) :
  (forall row col, 0 <= row < h -> 0 <= col < w -> body row col = Some (g row col)) ->
  scanPixels w h body
  = Some (concat ((fun row => concat (g row <$> seqZ 0 w)) <$> seqZ 0 h)).
Proof.
  intros Hbody. unfold scanPixels.
  rewrite (mapM_total _ (fun row => concat (g row <$> seqZ 0 w))); [reflexivity|].
  intros row Hrow. apply elem_of_seqZ in Hrow.
  rewrite (mapM_total _ (g row)); [reflexivity|].
  intros col Hcol. apply elem_of_seqZ in Hcol. apply Hbody; lia.
Qed.

Lemma row_major_buffer (image : Image) :
  image_wf image ->
  concat ((fun row => concat (pixelBytes image row <$> seqZ 0 (width image)))
            <$> seqZ 0 (height image))
  = data image.
Proof.
  intros Hwf.
  pose proof (wf_width image Hwf) as [Hw _]. pose proof (wf_height image Hwf) as [Hh _].
  pose proof (wf_channels image Hwf) as [Hn _]. pose proof (wf_size image Hwf) as Hsz.
  set (w := Z.to_nat (width image)). set (n := Z.to_nat (numChannels image)).
  rewrite (seqZ_0_fmap (height image)), <- list_fmap_compose.
  rewrite (list_fmap_ext _ (fun r => take (w * n) (drop (r * (w * n)) (data image)))).
  - rewrite concat_chunks. apply take_ge. nia.
  - intros _ r _. cbn.
    rewrite (seqZ_0_fmap (width image)), <- list_fmap_compose. fold w.
    rewrite <- (concat_chunks (drop (r * (w * n)) (data image)) n w).
    f_equal. apply list_fmap_ext. intros _ c _. cbn. unfold pixelBytes. fold n.
    rewrite drop_drop. f_equal. f_equal. subst w n. nia.
Qed.

Lemma img_3x3_wf : image_wf img_3x3.
Proof. split; cbn; unfold INT_MAX; try lia. repeat constructor; lia. Qed.

(** ** Rounding: an upper bound

    The result of rounding a positive number to nearest is at most one unit in
    the last place above it.  This bounds the products and the sum of
    [blendImages]. *)

Lemma pow2_pos (e : Z) : (0 < powerRZ 2 e)%R.
Proof. apply powerRZ_lt. lra. Qed.

Lemma pow2_add (a b : Z) : powerRZ 2 (a + b) = (powerRZ 2 a * powerRZ 2 b)%R.
Proof. apply powerRZ_add. lra. Qed.

Lemma pow2_IZR (n : Z) : 0 <= n -> powerRZ 2 n = IZR (2 ^ n).
Proof.
  intros Hn. destruct n as [|p|p]; [reflexivity| |lia].
  unfold powerRZ. rewrite pow_IZR. f_equal. rewrite positive_nat_Z. reflexivity.
Qed.

Lemma pow2_le (a b : Z) : a <= b -> (powerRZ 2 a <= powerRZ 2 b)%R.
Proof.
  intros Hab. replace b with (a + (b - a)) by lia. rewrite pow2_add.
  assert (1 <= powerRZ 2 (b - a))%R.
  { rewrite pow2_IZR by lia. apply IZR_le.
    assert (0 < 2 ^ (b - a)) by (apply Z.pow_pos_nonneg; lia). lia. }
  pose proof (pow2_pos a). nra.
Qed.

Lemma shr_1_m (mrs : shr_record) :
  0 <= shr_m mrs -> shr_m (shr_1 mrs) = shr_m mrs / 2.
Proof.
  destruct mrs as [m r s]; cbn [shr_m]. intros Hm.
  destruct m as [|[p|p|]|p]; try lia; unfold shr_1; cbn [shr_m].
  - reflexivity.
  - apply (Z.div_unique (Zpos p~1) 2 (Zpos p) 1); lia.
  - apply (Z.div_unique (Zpos p~0) 2 (Zpos p) 0); lia.
  - reflexivity.
Qed.

Lemma pow2_xI (p : positive) : 2 ^ Zpos p~1 = 2 * (2 ^ Zpos p * 2 ^ Zpos p).
Proof.
  assert (E : Zpos p~1 = Z.succ (Zpos p + Zpos p)) by lia.
  rewrite E, Z.pow_succ_r, Z.pow_add_r by lia. reflexivity.
Qed.

Lemma pow2_xO (p : positive) : 2 ^ Zpos p~0 = 2 ^ Zpos p * 2 ^ Zpos p.
Proof.
  assert (E : Zpos p~0 = Zpos p + Zpos p) by lia.
  rewrite E, Z.pow_add_r by lia. reflexivity.
Qed.

Lemma iter_shr_1_m (p : positive) (mrs : shr_record) :
  0 <= shr_m mrs -> shr_m (SpecFloat.iter_pos shr_1 p mrs) = shr_m mrs / 2 ^ Zpos p.
Proof.
  revert mrs. induction p as [p IH|p IH|]; intros mrs Hm; cbn [SpecFloat.iter_pos].
  - assert (Hp : 0 < 2 ^ Zpos p) by (apply Z.pow_pos_nonneg; lia).
    assert (H1 : 0 <= shr_m (shr_1 mrs)).
    { rewrite shr_1_m by done. apply Z.div_pos; lia. }
    assert (H2 : 0 <= shr_m (SpecFloat.iter_pos shr_1 p (shr_1 mrs))).
    { rewrite IH by done. apply Z.div_pos; done. }
    rewrite IH, IH, shr_1_m by done.
    rewrite !Z.div_div by lia. rewrite pow2_xI. f_equal; lia.
  - assert (Hp : 0 < 2 ^ Zpos p) by (apply Z.pow_pos_nonneg; lia).
    assert (H2 : 0 <= shr_m (SpecFloat.iter_pos shr_1 p mrs)).
    { rewrite IH by done. apply Z.div_pos; done. }
    rewrite IH, IH by done.
    rewrite !Z.div_div by lia. rewrite pow2_xO. reflexivity.
  - rewrite shr_1_m by done. reflexivity.
Qed.

Lemma round_nearest_even_bounds (m : Z) (l : location) :
  m <= round_nearest_even m l <= m + 1.
Proof.
  destruct l as [|[| |]]; cbn; try lia. destruct (Z.even m); lia.
Qed.

Lemma shr_spec (m e n : Z) (r s : bool) :
  0 <= m ->
  exists r' s',
    shr (Build_shr_record m r s) e n
    = (Build_shr_record (m / 2 ^ Z.max 0 n) r' s', e + Z.max 0 n) /\
    (n <= 0 -> r' = r /\ s' = s).
Proof.
  intros Hm. unfold shr. destruct n as [|p|p].
  - exists r, s. cbn. rewrite Z.div_1_r, Z.add_0_r. done.
  - pose proof (iter_shr_1_m p (Build_shr_record m r s) Hm) as H.
    destruct (SpecFloat.iter_pos shr_1 p _) as [m' r' s']. cbn [shr_m] in H.
    exists r', s'. replace (Z.max 0 (Zpos p)) with (Zpos p) by lia.
    subst m'. split; [reflexivity|lia].
  - exists r, s. replace (Z.max 0 (Zneg p)) with 0 by lia.
    cbn. rewrite Z.div_1_r, Z.add_0_r. done.
Qed.

Lemma digits_value_bound (q : positive) (e B : Z) :
  (IZR (Zpos q) * powerRZ 2 e < powerRZ 2 B)%R -> Zpos (digits2_pos q) + e <= B.
Proof.
  intros Hlt. pose proof (digits2_pos_bounds q) as [Hlo _].
  destruct (Z.le_gt_cases (Zpos (digits2_pos q) + e) B) as [|Hgt]; [done|exfalso].
  assert (Hle : (powerRZ 2 B <= powerRZ 2 (Zpos (digits2_pos q) - 1 + e))%R)
    by (apply pow2_le; lia).
  rewrite pow2_add, (pow2_IZR (Zpos (digits2_pos q) - 1)) in Hle by lia.
  apply IZR_le in Hlo. pose proof (pow2_pos e). nra.
Qed.

Lemma shift_value_le (a e k : Z) :
  0 <= a -> 0 <= k ->
  (IZR (a / 2 ^ k) * powerRZ 2 (e + k) <= IZR a * powerRZ 2 e)%R.
Proof.
  intros Ha Hk. rewrite pow2_add, (pow2_IZR k) by done.
  assert (H2 : 0 < 2 ^ k) by (apply Z.pow_pos_nonneg; lia).
  pose proof (Z.mul_div_le a (2 ^ k) H2) as Hle. apply IZR_le in Hle.
  rewrite mult_IZR in Hle. pose proof (pow2_pos e). nra.
Qed.

Lemma Zdigits2_value_bound (q e B : Z) :
  0 <= q -> e <= B ->
  (IZR q * powerRZ 2 e < powerRZ 2 B)%R -> Zdigits2 q + e <= B.
Proof.
  intros Hq He Hlt. destruct q as [|p|p]; [cbn; lia| |lia].
  cbn [Zdigits2]. by apply digits_value_bound.
Qed.

Lemma fexp_le (x B : Z) : x <= B -> 0 <= B -> fexp prec emax x <= B - 53.
Proof. unfold fexp, emin, prec, emax. lia. Qed.

Lemma binary_round_aux_upper (m : positive) (e B : Z) :
  e <= 0 -> 0 <= B <= 52 ->
  (IZR (Zpos m) * powerRZ 2 e < powerRZ 2 B)%R ->
  nonneg_small (binary_round_aux prec emax false (Zpos m) e loc_Exact) /\
  (B2R (binary_round_aux prec emax false (Zpos m) e loc_Exact)
   <= IZR (Zpos m) * powerRZ 2 e + powerRZ 2 (B - 53))%R.
Proof.
  intros He HB Hval.
  pose proof (digits_value_bound m e B Hval) as Hd.
  pose proof (fexp_le _ B Hd ltac:(lia)) as Hfe.
  unfold binary_round_aux, shr_fexp. cbn [shr_record_of_loc Zdigits2].
  set (fe := fexp prec emax (Zpos (digits2_pos m) + e)) in *.
  destruct (shr_spec (Zpos m) e (fe - e) false false) as (r' & s' & -> & Hex); [lia|].
  cbn [shr_m].
  set (k := Z.max 0 (fe - e)). set (m' := Zpos m / 2 ^ k).
  set (m1 := round_nearest_even m' (loc_of_shr_record (Build_shr_record m' r' s'))).
  assert (Hk : 0 <= k) by lia.
  assert (Hm' : 0 <= m') by (apply Z.div_pos; [lia|apply Z.pow_pos_nonneg; lia]).
  assert (Hm1 : 0 <= m1) by (pose proof (round_nearest_even_bounds m' (loc_of_shr_record (Build_shr_record m' r' s'))); lia).
  pose proof (pow2_pos e) as Hpe. pose proof (pow2_pos (B - 53)) as HpB.
  assert (Hv1 : (IZR m1 * powerRZ 2 (e + k) <= IZR (Zpos m) * powerRZ 2 e + powerRZ 2 (B - 53))%R).
  { destruct (Z.le_gt_cases (fe - e) 0) as [Hle|Hgt].
    - destruct (Hex Hle) as [-> ->]. subst m1 m'. replace k with 0 by lia.
      cbn [loc_of_shr_record round_nearest_even]. rewrite Z.div_1_r, Z.add_0_r. lra.
    - pose proof (round_nearest_even_bounds m' (loc_of_shr_record (Build_shr_record m' r' s'))) as [_ Hup].
      fold m1 in Hup. apply IZR_le in Hup. rewrite plus_IZR in Hup.
      pose proof (shift_value_le (Zpos m) e k ltac:(lia) Hk) as Hsh. fold m' in Hsh.
      pose proof (pow2_pos (e + k)) as Hpk.
      assert (Hfek : (powerRZ 2 (e + k) <= powerRZ 2 (B - 53))%R) by (apply pow2_le; lia).
      nra. }
  assert (Hek : e + k <= 0) by lia.
  assert (Hv1' : (IZR m1 * powerRZ 2 (e + k) < powerRZ 2 (B + 1))%R).
  { assert (powerRZ 2 (B - 53) <= powerRZ 2 B)%R by (apply pow2_le; lia).
    rewrite (pow2_add B 1), (pow2_IZR 1) by lia. change (2 ^ 1) with 2. lra. }
  pose proof (Zdigits2_value_bound m1 (e + k) (B + 1) Hm1 ltac:(lia) Hv1') as Hd1.
  destruct (shr_spec m1 (e + k) (fexp prec emax (Zdigits2 m1 + (e + k)) - (e + k)) false false)
    as (r2 & s2 & -> & _); [done|].
  cbn [shr_m].
  set (k2 := Z.max 0 (fexp prec emax (Zdigits2 m1 + (e + k)) - (e + k))).
  assert (Hk2 : 0 <= k2) by lia.
  assert (He2 : e + k + k2 <= 0).
  { pose proof (fexp_le (Zdigits2 m1 + (e + k)) 53 ltac:(lia) ltac:(lia)). lia. }
  pose proof (shift_value_le m1 (e + k) k2 Hm1 Hk2) as Hsh2.
  destruct (m1 / 2 ^ k2) as [|m2|m2] eqn:Em2.
  - cbn. split; [done|]. nra.
  - destruct (Z.leb_spec (e + k + k2) (emax - prec)) as [_|Hbad]; [|unfold emax, prec in Hbad; lia].
    cbn [nonneg_small B2R cond_Zopp]. split; [done|]. lra.
  - assert (0 <= m1 / 2 ^ k2) by (apply Z.div_pos; [done|apply Z.pow_pos_nonneg; lia]). lia.
Qed.

Lemma nonneg_small_B2R (x : double) : nonneg_small x -> (0 <= B2R x)%R.
Proof.
  destruct x as [s|s| |[|] m e]; cbn; try done; try lra.
  intros _. pose proof (pow2_pos e). assert (0 < IZR (Zpos m))%R by (apply IZR_lt; lia). nra.
Qed.

Lemma shl_align_spec (m : positive) (e e' : Z) :
  snd (shl_align m e e') <= e /\
  (IZR (Zpos (fst (shl_align m e e'))) * powerRZ 2 (snd (shl_align m e e'))
   = IZR (Zpos m) * powerRZ 2 e)%R.
Proof.
  unfold shl_align. destruct (e' - e) as [|d|d] eqn:Ed; cbn [fst snd]; try (split; [lia|reflexivity]).
  split; [lia|].
  assert (Ee : e = Zpos d + e') by lia.
  rewrite Zpos_iter_xO, mult_IZR, Ee, pow2_add, (pow2_IZR (Zpos d)) by lia. lra.
Qed.

Lemma binary_round_upper (m : positive) (e B : Z) :
  e <= 0 -> 0 <= B <= 52 ->
  (IZR (Zpos m) * powerRZ 2 e < powerRZ 2 B)%R ->
  nonneg_small (binary_round prec emax false m e) /\
  (B2R (binary_round prec emax false m e)
   <= IZR (Zpos m) * powerRZ 2 e + powerRZ 2 (B - 53))%R.
Proof.
  intros He HB Hval. unfold binary_round.
  pose proof (shl_align_spec m e (fexp prec emax (Zpos (digits2_pos m) + e))) as [Hle Heq].
  destruct (shl_align m e _) as [mz ez]. cbn [fst snd] in *.
  rewrite <- Heq in *. apply binary_round_aux_upper; (done || lia).
Qed.

Lemma mul_upper (x y : double) (B : Z) :
  nonneg_small x -> nonneg_small y -> 0 <= B <= 52 ->
  (B2R x * B2R y < powerRZ 2 B)%R ->
  nonneg_small (x * y)%D /\ (B2R (x * y)%D <= B2R x * B2R y + powerRZ 2 (B - 53))%R.
Proof.
  intros Hx Hy HB Hval.
  pose proof (nonneg_small_B2R x Hx). pose proof (nonneg_small_B2R y Hy).
  pose proof (pow2_pos (B - 53)).
  destruct x as [sx|sx| |[|] mx ex], y as [sy|sy| |[|] my ey]; try done;
    try (cbn [mul SFmul xorb nonneg_small B2R]; split; [done|nra]).
  unfold mul, SFmul. cbn [xorb B2R cond_Zopp nonneg_small] in *.
  replace (IZR (Zpos mx) * powerRZ 2 ex * (IZR (Zpos my) * powerRZ 2 ey))%R
    with (IZR (Zpos (mx * my)) * powerRZ 2 (ex + ey))%R in *
    by (rewrite Pos2Z.inj_mul, mult_IZR, pow2_add; ring).
  apply binary_round_aux_upper; (done || lia).
Qed.

Lemma add_upper (x y : double) (B : Z) :
  nonneg_small x -> nonneg_small y -> 0 <= B <= 52 ->
  (B2R x + B2R y < powerRZ 2 B)%R ->
  nonneg_small (x + y)%D /\ (B2R (x + y)%D <= B2R x + B2R y + powerRZ 2 (B - 53))%R.
Proof.
  intros Hx Hy HB Hval.
  pose proof (nonneg_small_B2R x Hx) as Hx0. pose proof (nonneg_small_B2R y Hy) as Hy0.
  pose proof (pow2_pos (B - 53)).
  destruct x as [sx|sx| |[|] mx ex], y as [sy|sy| |[|] my ey]; try done.
  - destruct sx, sy; cbn; split; (done || lra).
  - cbn [add SFadd]. split; [done|]. cbn [B2R] in *. lra.
  - cbn [add SFadd]. split; [done|]. cbn [B2R] in *. lra.
  - unfold add, SFadd. cbn [cond_Zopp B2R nonneg_small] in *.
    pose proof (shl_align_spec mx ex (Z.min ex ey)) as [Hlx Hvx].
    pose proof (shl_align_spec my ey (Z.min ex ey)) as [Hly Hvy].
    assert (Esx : snd (shl_align mx ex (Z.min ex ey)) = Z.min ex ey).
    { unfold shl_align. destruct (Z.min ex ey - ex) eqn:E; cbn; lia. }
    assert (Esy : snd (shl_align my ey (Z.min ex ey)) = Z.min ex ey).
    { unfold shl_align. destruct (Z.min ex ey - ey) eqn:E; cbn; lia. }
    rewrite Esx in Hvx. rewrite Esy in Hvy.
    set (ax := fst (shl_align mx ex (Z.min ex ey))) in *.
    set (ay := fst (shl_align my ey (Z.min ex ey))) in *.
    change (Zpos ax + Zpos ay) with (Zpos (ax + ay)).
    cbn [binary_normalize].
    assert (Hsum : (IZR (Zpos (ax + ay)) * powerRZ 2 (Z.min ex ey)
                    = IZR (Zpos mx) * powerRZ 2 ex + IZR (Zpos my) * powerRZ 2 ey)%R).
    { rewrite Pos2Z.inj_add, plus_IZR. lra. }
    rewrite <- Hsum in *. apply binary_round_upper; (done || lia).
Qed.

Lemma B2R_one : B2R one = 1%R.
Proof.
  change one with (S754_finite false 4503599627370496 (-52)). cbn [B2R cond_Zopp].
  change 4503599627370496 with (2 ^ 52). rewrite <- (pow2_IZR 52), <- pow2_add by lia.
  reflexivity.
Qed.

(** A valid [t] between 0 and 1. *)
Lemma unit_interval (t : double) :
  valid t = true -> (zero <=? t)%D = true -> (t <=? one)%D = true ->
  nonneg_small t /\ (0 <= B2R t <= 1)%R.
Proof.
  intros Hv H0 H1.
  change one with (S754_finite false 4503599627370496 (-52)) in H1.
  destruct t as [s|[|]| |[|] m e]; try discriminate.
  { cbn [nonneg_small B2R]; split; [done|lra]. }
  unfold valid, valid_binary, bounded, canonical_mantissa, fexp, emin, prec, emax in Hv.
  apply andb_true_iff in Hv as [Hc _]. apply Z.eqb_eq in Hc.
  pose proof (digits2_pos_bounds m) as [_ Hhi].
  unfold leb, SFleb, SFcompare in H1.
  assert (He : e <= -52) by (destruct (Z.compare_spec e (-52)); (lia || discriminate)).
  assert (Hval : Zpos m <= 2 ^ (- e)).
  { destruct (Z.compare_spec e (-52)) as [->|Hlt|Hgt]; [| |lia].
    - change (2 ^ (- -52)) with 4503599627370496.
      destruct (Pos.compare_cont Eq m 4503599627370496) eqn:Hcmp; try discriminate.
      + apply Pos.compare_eq in Hcmp. subst m. reflexivity.
      + assert (Hm : (m < 4503599627370496)%positive) by exact Hcmp.
        apply Z.lt_le_incl. exact Hm.
    - assert (Hd : Zpos (digits2_pos m) <= 53) by lia.
      assert (2 ^ Zpos (digits2_pos m) <= 2 ^ (- e)) by (apply Z.pow_le_mono_r; lia).
      lia. }
  split; [cbn; lia|]. cbn [B2R cond_Zopp].
  pose proof (pow2_pos e). split.
  - assert (0 < IZR (Zpos m))%R by (apply IZR_lt; lia). nra.
  - apply IZR_le in Hval. rewrite <- pow2_IZR in Hval by lia.
    assert (E : (powerRZ 2 (- e) * powerRZ 2 e = 1)%R).
    { rewrite <- pow2_add. replace (- e + e) with 0 by lia. reflexivity. }
    nra.
Qed.

Lemma B2R_of_int (p : Z) :
  0 <= p <= 255 -> nonneg_small (of_int p) /\ B2R (of_int p) = IZR p.
Proof.
  intros Hp. destruct (Z.eq_dec p 0) as [-> | Hnz]; [cbn; done|].
  destruct (of_int_nonzero p Hnz) as (m & k & -> & Hm & _ & _); [lia|].
  destruct (Z.ltb_spec p 0) as [|_]; [lia|].
  cbn [nonneg_small B2R cond_Zopp] in *. split; [lia|].
  rewrite Hm, mult_IZR, <- pow2_IZR by lia.
  assert (E : (powerRZ 2 (Zpos k) * powerRZ 2 (- Zpos k) = 1)%R).
  { rewrite <- pow2_add. replace (Zpos k + - Zpos k) with 0 by lia. reflexivity. }
  rewrite Rmult_assoc, E. lra.
Qed.

Lemma sub_one_upper (t : double) :
  nonneg_small t -> (B2R t <= 1)%R ->
  nonneg_small (one - t)%D /\ (B2R (one - t)%D <= 1 - B2R t + powerRZ 2 (-53))%R.
Proof.
  intros Ht Hle. pose proof (pow2_pos (-53)) as Hp.
  destruct t as [s|s| |[|] m e]; try done.
  - change (one - S754_zero s)%D with one. rewrite B2R_one.
    split; [change (-52 <= 0); lia|]. change (B2R (S754_zero s)) with 0%R. lra.
  - change one with (S754_finite false 4503599627370496 (-52)).
    unfold sub, SFsub. cbn [cond_Zopp B2R nonneg_small] in *.
    pose proof (shl_align_spec 4503599627370496 (-52) (Z.min (-52) e)) as [_ Hv1].
    pose proof (shl_align_spec m e (Z.min (-52) e)) as [_ Hvt].
    assert (Es1 : snd (shl_align 4503599627370496 (-52) (Z.min (-52) e)) = Z.min (-52) e).
    { unfold shl_align. destruct (Z.min (-52) e - -52) eqn:E; cbn; lia. }
    assert (Est : snd (shl_align m e (Z.min (-52) e)) = Z.min (-52) e).
    { unfold shl_align. destruct (Z.min (-52) e - e) eqn:E; cbn; lia. }
    rewrite Es1 in Hv1. rewrite Est in Hvt.
    set (a1 := fst (shl_align 4503599627370496 (-52) (Z.min (-52) e))) in *.
    set (at_ := fst (shl_align m e (Z.min (-52) e))) in *.
    set (ez := Z.min (-52) e) in *.
    pose proof B2R_one as H1. change one with (S754_finite false 4503599627370496 (-52)) in H1.
    cbn [B2R cond_Zopp] in H1. rewrite H1 in Hv1.
    pose proof (pow2_pos ez) as Hpz.
    assert (Hdiff : (IZR (Zpos a1 - Zpos at_) * powerRZ 2 ez
                     = 1 - IZR (Zpos m) * powerRZ 2 e)%R).
    { rewrite minus_IZR. lra. }
    assert (Hmpos : (0 < IZR (Zpos m) * powerRZ 2 e)%R).
    { pose proof (pow2_pos e). assert (0 < IZR (Zpos m))%R by (apply IZR_lt; lia). nra. }
    destruct (Zpos a1 - Zpos at_) as [|d|d] eqn:Ed.
    + cbn [binary_normalize nonneg_small B2R]. split; [done|]. lra.
    + cbn [binary_normalize]. rewrite <- Hdiff.
      replace (-53) with (0 - 53) by lia.
      apply binary_round_upper; [lia|lia|]. rewrite Hdiff.
      rewrite (pow2_IZR 0) by lia. change (2 ^ 0) with 1. lra.
    + exfalso. assert (IZR (Zneg d) < 0)%R by (apply IZR_lt; lia). nra.
Qed.

Lemma floorZ_byte (z : double) :
  nonneg_small z -> (B2R z < 256)%R ->
  exists k, floorZ z = Some k /\ 0 <= k <= 255.
Proof.
  intros Hz Hlt. destruct z as [s|s| |[|] m e]; try done.
  - exists 0. cbn. split; [done|lia].
  - cbn [nonneg_small B2R cond_Zopp floorZ] in *.
    exists (Z.shiftl (Zpos m) e). split; [reflexivity|].
    replace e with (- (- e)) by lia.
    change (Z.shiftl (Z.pos m) (- - e)) with (Z.shiftr (Zpos m) (- e)).
    rewrite Z.shiftr_div_pow2 by lia.
    assert (H2 : 0 < 2 ^ (- e)) by (apply Z.pow_pos_nonneg; lia).
    split; [apply Z.div_pos; lia|].
    assert (Zpos m / 2 ^ (- e) < 256); [|lia].
    apply Z.div_lt_upper_bound; [done|].
    apply lt_IZR. rewrite mult_IZR, <- pow2_IZR by lia.
    assert (E : (powerRZ 2 (- e) * powerRZ 2 e = 1)%R).
    { rewrite <- pow2_add. replace (- e + e) with 0 by lia. reflexivity. }
    pose proof (pow2_pos (- e)). pose proof (pow2_pos e).
    assert (IZR (Zpos m) = IZR (Zpos m) * powerRZ 2 e * powerRZ 2 (- e))%R
      by (rewrite Rmult_assoc, (Rmult_comm (powerRZ 2 e)), E; lra).
    nra.
Qed.

Lemma pow2_neg (n : Z) : 0 <= n -> powerRZ 2 (- n) = (/ IZR (2 ^ n))%R.
Proof.
  intros Hn.
  assert (E : (powerRZ 2 (- n) * powerRZ 2 n = 1)%R).
  { rewrite <- pow2_add. replace (- n + n) with 0 by lia. reflexivity. }
  pose proof (pow2_pos n) as Hpos. rewrite (pow2_IZR n) in E, Hpos by done.
  apply (Rmult_eq_reg_r (IZR (2 ^ n))); [|lra].
  rewrite E. field. lra.
Qed.

Lemma pow2_8 : powerRZ 2 8 = 256%R.
Proof. rewrite (pow2_IZR 8) by lia. reflexivity. Qed.

Lemma pow2_9 : powerRZ 2 9 = 512%R.
Proof. rewrite (pow2_IZR 9) by lia. reflexivity. Qed.

Lemma pow2_m10 : powerRZ 2 (-10) = (/ 1024)%R.
Proof. change (powerRZ 2 (Z.opp 10) = (/ 1024)%R). rewrite pow2_neg by lia. reflexivity. Qed.

Lemma pow2_m45 : (powerRZ 2 (8 - 53) <= / 1024)%R.
Proof. rewrite <- pow2_m10. apply pow2_le. lia. Qed.

Lemma pow2_m44 : (powerRZ 2 (9 - 53) <= / 1024)%R.
Proof. rewrite <- pow2_m10. apply pow2_le. lia. Qed.

Lemma pow2_m20 : powerRZ 2 (-20) = (/ 1048576)%R.
Proof. change (powerRZ 2 (Z.opp 20) = (/ 1048576)%R). rewrite pow2_neg by lia. reflexivity. Qed.

Lemma pow2_m53 : (powerRZ 2 (-53) <= / 1048576)%R.
Proof. rewrite <- pow2_m20. apply pow2_le. lia. Qed.

Lemma blendValue_range (p1 p2 : Z) (t : double) :
  0 <= p1 <= 255 -> 0 <= p2 <= 255 ->
  valid t = true -> (zero <=? t)%D = true -> (t <=? one)%D = true ->
  nonneg_small (blendValue p1 p2 t) /\ (B2R (blendValue p1 p2 t) < 256)%R.
Proof.
  intros Hp1 Hp2 Hv H0 H1. unfold blendValue.
  destruct (unit_interval t Hv H0 H1) as [Ht [Ht0 Ht1]].
  destruct (B2R_of_int p1 Hp1) as [Hn1 Hv1]. destruct (B2R_of_int p2 Hp2) as [Hn2 Hv2].
  destruct (sub_one_upper t Ht Ht1) as [Hs Hsv].
  pose proof (nonneg_small_B2R _ Hs) as Hs0.
  pose proof pow2_m45 as E45. pose proof pow2_m44 as E44. pose proof pow2_m53 as E53.
  pose proof (pow2_pos (8 - 53)). pose proof (pow2_pos (9 - 53)). pose proof (pow2_pos (-53)).
  assert (HP1 : (0 <= IZR p1 <= 255)%R) by (split; apply IZR_le; lia).
  assert (HP2 : (0 <= IZR p2 <= 255)%R) by (split; apply IZR_le; lia).
  destruct (mul_upper (of_int p1) t 8 Hn1 Ht ltac:(lia)) as [Ha Hav].
  { rewrite Hv1, pow2_8. nra. }
  destruct (mul_upper (of_int p2) (one - t)%D 8 Hn2 Hs ltac:(lia)) as [Hb Hbv].
  { rewrite Hv2, pow2_8. nra. }
  rewrite Hv1 in Hav. rewrite Hv2 in Hbv.
  pose proof (nonneg_small_B2R _ Ha) as Ha0. pose proof (nonneg_small_B2R _ Hb) as Hb0.
  assert (Hsum : (B2R (of_int p1 * t)%D + B2R (of_int p2 * (one - t))%D
                  <= 255 + 3 / 1024)%R) by nra.
  destruct (add_upper (of_int p1 * t)%D (of_int p2 * (one - t))%D 9 Ha Hb ltac:(lia)) as [Hz Hzv].
  { rewrite pow2_9. lra. }
  split; [exact Hz|]. lra.
Qed.

Lemma blendByte_range (p1 p2 : Z) (t : double) :
  0 <= p1 <= 255 -> 0 <= p2 <= 255 ->
  valid t = true -> (zero <=? t)%D = true -> (t <=? one)%D = true ->
  exists z, blendByte p1 p2 t = Some z /\ floorZ (blendValue p1 p2 t) = Some z /\
            0 <= z <= 255.
Proof.
  intros Hp1 Hp2 Hv H0 H1.
  destruct (blendValue_range p1 p2 t Hp1 Hp2 Hv H0 H1) as [Hn Hlt].
  destruct (floorZ_byte _ Hn Hlt) as (z & Hz & Hr).
  exists z. unfold blendByte, floor_to_uchar. rewrite Hz.
  destruct (Z.leb_spec 0 z), (Z.leb_spec z 255); try lia. done.
Qed.

(** ** Reading the scanned buffer *)

Lemma concat_chunks_length {A} (f : nat -> list A) (c m : nat) :
  (forall i, (i < m)%nat -> List.length (f i) = c) ->
  List.length (concat (f <$> seq 0 m)) = (m * c)%nat.
Proof.
  induction m as [|m IH]; intros Hlen; [reflexivity|].
  rewrite seq_S, fmap_app, concat_app, length_app, IH by (intros; apply Hlen; lia).
  cbn. rewrite app_nil_r, Hlen by lia. lia.
Qed.

Lemma concat_chunks_drop {A} (f : nat -> list A) (c m j : nat) :
  (forall i, (i < m)%nat -> List.length (f i) = c) -> (j < m)%nat ->
  exists rest, drop (j * c) (concat (f <$> seq 0 m)) = f j ++ rest.
Proof.
  intros Hlen Hj.
  pose proof (seq_app j (S (m - S j)) 0) as Hsplit.
  replace (j + S (m - S j))%nat with m in Hsplit by lia.
  rewrite Hsplit, fmap_app, concat_app. cbn [seq fmap list_fmap concat Nat.add].
  exists (concat (f <$> seq (S j) (m - S j))).
  rewrite drop_app_length'; [reflexivity|].
  symmetry. apply concat_chunks_length. intros i Hi. apply Hlen. lia.
Qed.

Lemma scan_buffer_pixel (g : Z -> Z -> list Z) (w h n row col : Z) :
  0 <= w -> 0 <= h -> 0 <= n ->
  (forall r c, 0 <= r < h -> 0 <= c < w -> List.length (g r c) = Z.to_nat n) ->
  0 <= row < h -> 0 <= col < w ->
  exists rest,
    drop (Z.to_nat ((row * w + col) * n))
         (concat ((fun r => concat (g r <$> seqZ 0 w)) <$> seqZ 0 h))
    = g row col ++ rest.
Proof.
  intros Hw Hh Hn Hlen Hrow Hcol.
  rewrite (seqZ_0_fmap h), <- list_fmap_compose.
  set (frow := (fun r : Z => concat (g r <$> seqZ 0 w)) ∘ Z.of_nat).
  assert (Hfrow : forall r, (r < Z.to_nat h)%nat ->
            frow r = concat ((fun c => g (Z.of_nat r) (Z.of_nat c)) <$> seq 0 (Z.to_nat w))).
  { intros r _. subst frow. cbn. rewrite (seqZ_0_fmap w), <- list_fmap_compose. reflexivity. }
  assert (Hlrow : forall r, (r < Z.to_nat h)%nat ->
            List.length (frow r) = (Z.to_nat w * Z.to_nat n)%nat).
  { intros r Hr. rewrite Hfrow by done. apply concat_chunks_length.
    intros c Hc. apply Hlen; lia. }
  destruct (concat_chunks_drop frow _ (Z.to_nat h) (Z.to_nat row) Hlrow ltac:(lia))
    as (rest & Hrest).
  destruct (concat_chunks_drop (fun c => g row (Z.of_nat c)) (Z.to_nat n)
              (Z.to_nat w) (Z.to_nat col)) as (rest' & Hrest').
  { intros c Hc. apply Hlen; lia. }
  { lia. }
  exists (rest' ++ rest).
  replace (Z.to_nat ((row * w + col) * n))
    with (Z.to_nat row * (Z.to_nat w * Z.to_nat n) + Z.to_nat col * Z.to_nat n)%nat by nia.
  rewrite <- drop_drop, Hrest, drop_app_le.
  2:{ rewrite Hlrow by lia. nia. }
  rewrite Hfrow by lia. rewrite Z2Nat.id by lia.
  rewrite Hrest', Z2Nat.id by lia. by rewrite app_assoc.
Qed.

(** ** C7: blendImages *)

(** C7: for images of the same dimensions and a weight [t] between 0 and 1,
    every byte of the blend is the floor of [t * pixel1 + (1 - t) * pixel2]
    as the code evaluates it in [double], and that floor lies between 0 and
    255: the narrowing to [unsigned char] is defined without clamping. *)
Theorem blendImages_bytes_in_range (img1 img2 : Image) (t : double) :
  image_wf img1 -> image_wf img2 -> hasSameDimsAs img1 img2 = true ->
  valid t = true -> (zero <=? t)%D = true -> (t <=? one)%D = true ->
  (forall p1 p2, 0 <= p1 <= 255 -> 0 <= p2 <= 255 ->
     exists z, blendByte p1 p2 t = Some z /\
               floorZ (of_int p1 * t + of_int p2 * (one - t))%D = Some z /\
               0 <= z <= 255) /\
  exists result,
    blendImages img1 img2 t = Some result /\
    width result = width img1 /\ height result = height img1 /\
    numChannels result = numChannels img1 /\
    forall row col channel,
      0 <= row < height img1 -> 0 <= col < width img1 ->
      0 <= channel < numChannels img1 ->
      exists p1 p2 z,
        pixel img1 row col channel = Some p1 /\
        pixel img2 row col channel = Some p2 /\
        floorZ (of_int p1 * t + of_int p2 * (one - t))%D = Some z /\
        0 <= z <= 255 /\
        pixel result row col channel = Some z.
Proof.
  intros Hwf1 Hwf2 Hdims Hv H0 H1.
  split; [intros p1 p2 Hp1 Hp2; by apply blendByte_range|].
  pose proof Hdims as Hsame. unfold hasSameDimsAs in Hdims.
  apply andb_true_iff in Hdims as [Hdims Hn]. apply andb_true_iff in Hdims as [Hw Hh].
  apply Z.eqb_eq in Hw, Hh, Hn.
  pose proof (wf_width img1 Hwf1) as [Hw0 _]. pose proof (wf_height img1 Hwf1) as [Hh0 _].
  pose proof (wf_channels img1 Hwf1) as [Hn0 _].
  set (byteAt := fun row col channel =>
         default 0 (p1 ← pixel img1 row col channel;
                    p2 ← pixel img2 row col channel;
                    blendByte p1 p2 t)).
  assert (Hbyte : forall row col channel,
            0 <= row < height img1 -> 0 <= col < width img1 ->
            0 <= channel < numChannels img1 ->
            exists p1 p2 z,
              pixel img1 row col channel = Some p1 /\
              pixel img2 row col channel = Some p2 /\
              blendByte p1 p2 t = Some z /\
              floorZ (blendValue p1 p2 t) = Some z /\ 0 <= z <= 255 /\
              byteAt row col channel = z).
  { intros row col channel Hr Hc Hch.
    destruct (pixel_in_bounds img1 row col channel) as (p1 & E1 & B1);
      [done | done | done | done |].
    destruct (pixel_in_bounds img2 row col channel) as (p2 & E2 & B2);
      [done | lia | lia | lia |].
    destruct (blendByte_range p1 p2 t B1 B2 Hv H0 H1) as (z & Ez & Ef & Bz).
    exists p1, p2, z. repeat (split; [done|]).
    subst byteAt. cbn beta. rewrite E1, E2. cbn. rewrite Ez. reflexivity. }
  set (g := fun row col => byteAt row col <$> seqZ 0 (numChannels img1)).
  assert (Hscan : scanPixels (width img1) (height img1) (blendPixel img1 img2 t)
                  = Some (concat ((fun row => concat (g row <$> seqZ 0 (width img1)))
                                     <$> seqZ 0 (height img1)))).
  { apply scanPixels_total. intros row col Hr Hc. unfold blendPixel.
    apply mapM_total. intros channel Hch. apply elem_of_seqZ in Hch.
    destruct (Hbyte row col channel) as (p1 & p2 & z & E1 & E2 & Ez & _ & _ & Eb); try (done || lia).
    rewrite E1, E2. cbn. rewrite Ez, Eb. reflexivity. }
  unfold blendImages. rewrite Hsame. cbn [negb].
  rewrite Hscan. cbn [mbind option_bind].
  eexists. split; [reflexivity|]. cbn [width height numChannels].
  repeat (split; [reflexivity|]).
  intros row col channel Hr Hc Hch.
  destruct (Hbyte row col channel Hr Hc Hch) as (p1 & p2 & z & E1 & E2 & _ & Ef & Bz & Eb).
  exists p1, p2, z. repeat (split; [done|]).
  destruct (scan_buffer_pixel g (width img1) (height img1) (numChannels img1) row col)
    as (rest & Hrest); try done.
  { intros r c _ _. subst g. cbn. by rewrite length_fmap, length_seqZ. }
  assert (0 <= row * width img1 + col) by nia.
  rewrite pixel_lookup by (cbn [width numChannels]; nia).
  cbn [width height numChannels data]. rewrite Hrest.
  rewrite lookup_app_l by (subst g; cbn; rewrite length_fmap, length_seqZ; lia).
  subst g. cbn. rewrite list_lookup_fmap, lookup_seqZ_lt by lia.
  cbn. f_equal. rewrite <- Eb. f_equal. lia.
Qed.

Lemma blendImages_bytes_in_range_witness :
  exists result,
    blendImages img_grey100 img_grey200 one_half = Some result /\
    pixel result 0 0 0 = Some 150 /\ pixel result 0 0 3 = Some 255.
Proof.
  assert (Hwf1 : image_wf img_grey100).
  { split; cbn; unfold INT_MAX; try lia. repeat constructor; lia. }
  assert (Hwf2 : image_wf img_grey200).
  { split; cbn; unfold INT_MAX; try lia. repeat constructor; lia. }
  destruct (blendImages_bytes_in_range img_grey100 img_grey200 one_half Hwf1 Hwf2
              eq_refl eq_refl eq_refl eq_refl) as (_ & result & Hres & _).
  exists result. split; [exact Hres|].
  vm_compute in Hres. injection Hres as <-. split; reflexivity.
Defined.

(** * Further properties *)

(** ** sampleBilinear: the four slots *)

Lemma clampByte_range (res : double) (b : Z) :
  clampByte res = Some b -> 0 <= b <= 255.
Proof.
  unfold clampByte. intros H. destruct (floor_to_int res) as [z|]; [|discriminate H].
  cbn in H. injection H as <-. lia.
Qed.

Lemma sampleChannel_range (image : Image) (loc : Vec2)
    (col0 col1 row0 row1 channel b : Z) :
  sampleChannel image loc col0 col1 row0 row1 channel = Some b -> 0 <= b <= 255.
Proof.
  unfold sampleChannel. intros H.
  repeat match type of H with
  | (?m ≫= _) = Some _ =>
      destruct m; cbn [mbind option_bind] in H; [|discriminate H]
  end.
  revert H.
  apply clampByte_range.
Qed.

(** X1: whenever [sampleBilinear] returns, it has filled exactly four
    slots, each with a byte, and the slots from the channel count on hold
    0. *)
Theorem sampleBilinear_four_slots (image : Image) (loc : Vec2)
    (sampled_color : list Z) :
  0 <= numChannels image ->
  sampleBilinear image loc = Some sampled_color ->
  numChannels image <= 4 /\
  List.length sampled_color = 4%nat /\
  Forall (fun b => 0 <= b <= 255) sampled_color /\
  (forall i, numChannels image <= i < 4 -> sampled_color !! Z.to_nat i = Some 0).
Proof.
  intros Hn H. unfold sampleBilinear in H.
  destruct (floor_to_int (vx loc)) as [col0|]; cbn in H; [|discriminate H].
  destruct (int_add col0 1) as [col1|]; cbn in H; [|discriminate H].
  destruct (floor_to_int (vy loc)) as [row0|]; cbn in H; [|discriminate H].
  destruct (int_add row0 1) as [row1|]; cbn in H; [|discriminate H].
  destruct (mapM _ _) as [chans|] eqn:Hch; cbn in H; [|discriminate H].
  destruct (Z.ltb_spec 4 (numChannels image)) as [|Hle]; [discriminate H|].
  revert H.
  intros [= <-].
  apply mapM_Some_1 in Hch.
  pose proof (Forall2_length _ _ _ Hch) as Hlen. rewrite length_seqZ in Hlen.
  split; [exact Hle|]. split; [|split].
  - rewrite length_app, length_replicate. lia.
  - apply Forall_app. split.
    + apply Forall_forall. intros b Hb.
      apply list_elem_of_lookup in Hb as [i Hb].
      destruct (Forall2_lookup_r _ _ _ _ _ Hch Hb) as (ch & _ & Hs).
      by eapply sampleChannel_range.
    + apply Forall_replicate. lia.
  - intros i Hi. rewrite lookup_app_r by lia.
    apply lookup_replicate_2. lia.
Qed.

Lemma sampleBilinear_four_slots_witness :
  sampleBilinear img_2x2 (mkVec2 one_half one_half) = Some [25; 0; 0; 0] /\
  List.length [25; 0; 0; 0] = 4%nat.
Proof.
  assert (H : sampleBilinear img_2x2 (mkVec2 one_half one_half) = Some [25; 0; 0; 0])
    by (vm_compute; reflexivity).
  split; [exact H|].
  assert (Hn : 0 <= numChannels img_2x2) by (cbn; lia).
  exact (proj1 (proj2 (sampleBilinear_four_slots img_2x2 _ _ Hn H))).
Defined.

(** ** Image.hpp: the layout of the buffer *)

(** X2: inside the image, [pixel(row, col)[ch]] lies inside the buffer, at
    the offset where [pixel] of the model reads, and inside the scanline
    of its row; the scanlines follow each other [w * nc] bytes apart. *)
Theorem pixelOffset_in_buffer (img : Image) (row col ch : Z) :
  image_wf img ->
  0 <= row < height img -> 0 <= col < width img -> 0 <= ch < numChannels img ->
  0 <= pixelOffset img row col ch < Z.of_nat (List.length (data img)) /\
  pixel img row col ch = data img !! Z.to_nat (pixelOffset img row col ch) /\
  scanlineOffset img row <= pixelOffset img row col ch < scanlineOffset img (row + 1) /\
  scanlineOffset img (row + 1) = scanlineOffset img row + width img * numChannels img.
Proof.
  intros Hwf Hr Hc Hch.
  destruct Hwf as [Hw Hh Hn Hsize _ _].
  unfold pixelOffset, scanlineOffset, pixel.
  assert (H0 : 0 <= row * width img) by nia.
  assert (H1 : 0 <= (row * width img + col) * numChannels img) by nia.
  assert (H2 : (row * width img + col + 1) * numChannels img
               <= width img * height img * numChannels img).
  { apply Z.mul_le_mono_nonneg_r; [lia|]. nia. }
  assert (H3 : (row * width img + col + 1) * numChannels img
               <= (row + 1) * width img * numChannels img).
  { apply Z.mul_le_mono_nonneg_r; [lia|]. nia. }
  assert (H4 : row * width img * numChannels img
               <= (row * width img + col) * numChannels img).
  { apply Z.mul_le_mono_nonneg_r; lia. }
  repeat split; try lia.
  destruct (Z.leb_spec 0 ((row * width img + col) * numChannels img + ch));
    [reflexivity | lia].
Qed.

Lemma pixelOffset_in_buffer_witness :
  0 <= pixelOffset img_2x2 1 0 0 < 4 /\ pixel img_2x2 1 0 0 = Some 30.
Proof.
  assert (Hr : 0 <= 1 < height img_2x2) by (cbn; lia).
  assert (Hc : 0 <= 0 < width img_2x2) by (cbn; lia).
  assert (Hch : 0 <= 0 < numChannels img_2x2) by (cbn; lia).
  pose proof (pixelOffset_in_buffer img_2x2 1 0 0 img_2x2_wf Hr Hc Hch)
    as (Hb & Hp & _).
  split; [exact Hb | rewrite Hp; reflexivity].
Defined.

(** X3: two places of the image never share a byte: with the columns and
    the channels in range, equal offsets mean the same row, column and
    channel. *)
Theorem pixelOffset_injective (img : Image) (row col ch row' col' ch' : Z) :
  0 <= col < width img -> 0 <= col' < width img ->
  0 <= ch < numChannels img -> 0 <= ch' < numChannels img ->
  pixelOffset img row col ch = pixelOffset img row' col' ch' ->
  row = row' /\ col = col' /\ ch = ch'.
Proof.
  unfold pixelOffset. intros Hc Hc' Hch Hch' H.
  assert (E1 : row * width img + col = row' * width img + col' /\ ch = ch').
  { destruct (Z.lt_trichotomy (row * width img + col) (row' * width img + col'))
      as [Hlt | [Heq | Hgt]]; [exfalso | split; [exact Heq | lia] | exfalso].
    - assert ((row * width img + col + 1) * numChannels img
              <= (row' * width img + col') * numChannels img)
        by (apply Z.mul_le_mono_nonneg_r; lia).
      lia.
    - assert ((row' * width img + col' + 1) * numChannels img
              <= (row * width img + col) * numChannels img)
        by (apply Z.mul_le_mono_nonneg_r; lia).
      lia. }
  destruct E1 as [E1 E2]. split; [|split; [|exact E2]].
  - destruct (Z.lt_trichotomy row row') as [Hlt | [Heq | Hgt]];
      [exfalso | exact Heq | exfalso].
    + assert ((row + 1) * width img <= row' * width img)
        by (apply Z.mul_le_mono_nonneg_r; lia).
      lia.
    + assert ((row' + 1) * width img <= row * width img)
        by (apply Z.mul_le_mono_nonneg_r; lia).
      lia.
  - destruct (Z.lt_trichotomy row row') as [Hlt | [Heq | Hgt]];
      [exfalso | subst; lia | exfalso].
    + assert ((row + 1) * width img <= row' * width img)
        by (apply Z.mul_le_mono_nonneg_r; lia).
      lia.
    + assert ((row' + 1) * width img <= row * width img)
        by (apply Z.mul_le_mono_nonneg_r; lia).
      lia.
Qed.

Lemma pixelOffset_injective_witness :
  pixelOffset img_2x2 1 0 0 = pixelOffset img_2x2 1 0 0 /\ (1 = 1 /\ 0 = 0 /\ 0 = 0).
Proof.
  split; [reflexivity|].
  apply (pixelOffset_injective img_2x2 1 0 0 1 0 0); cbn; first [lia | reflexivity].
Defined.

(** ** LineSegment.hpp: the endpoint accessors *)

(** X4: [setEndpoint(i, p)] followed by [endpoint(i)] reads [p] back and
    leaves the other endpoint as it was; index 0 is [setStart], index 1 is
    [setEnd], and setting both in turn is [setEndpoints]; outside 0 and 1
    both accessors fail their assertion. *)
Theorem setEndpoint_endpoint (s : LineSegment) (i : Z) (p : Vec2) :
  (0 <= i < 2 ->
   exists s', setEndpoint s i p = Some s' /\
              endpoint s' i = Some p /\
              endpoint s' (1 - i) = endpoint s (1 - i) /\
              s' = (if i =? 0 then setStart s p else setEnd s p)) /\
  (~ 0 <= i < 2 -> setEndpoint s i p = None /\ endpoint s i = None) /\
  (forall q, setEndpoint (setStart s p) 1 q = Some (setEndpoints s p q) /\
             setEndpoint (setEnd s q) 0 p = Some (setEndpoints s p q)).
Proof.
  split; [|split].
  - intros Hi.
    assert (Hcases : i = 0 \/ i = 1) by lia.
    destruct Hcases as [-> | ->]; eexists; repeat split.
  - intros Hi. unfold setEndpoint, endpoint.
    destruct (Z.leb_spec 0 i), (Z.ltb_spec i 2); cbn; try (split; reflexivity); lia.
  - intros q. split; reflexivity.
Qed.

Lemma setEndpoint_endpoint_witness :
  exists s', setEndpoint (seg 0 0 1 0) 1 (pt 5 5) = Some s' /\
             endpoint s' 1 = Some (pt 5 5) /\
             endpoint s' (1 - 1) = endpoint (seg 0 0 1 0) (1 - 1) /\
             s' = (if 1 =? 0 then setStart (seg 0 0 1 0) (pt 5 5)
                   else setEnd (seg 0 0 1 0) (pt 5 5)).
Proof.
  apply (proj1 (setEndpoint_endpoint (seg 0 0 1 0) 1 (pt 5 5))). lia.
Defined.

(** ** Image.cpp: the sanity check of [main] *)

Lemma SFcompare_antisym (x y : double) :
  SFcompare y x = option_map CompOpp (SFcompare x y).
Proof.
  destruct x as [sx | sx | | sx mx ex], y as [sy | sy | | sy my ey];
    try destruct sx; try destruct sy; try reflexivity.
  - cbn. rewrite (Z.compare_antisym ey ex).
    destruct (ey ?= ex); cbn; try reflexivity.
    rewrite CompOpp_involutive.
    first [ exact (f_equal Some (Pos.compare_cont_antisym my mx Eq))
          | exact (f_equal Some (eq_sym (Pos.compare_cont_antisym my mx Eq))) ].
  - cbn. rewrite (Z.compare_antisym ey ex).
    destruct (ey ?= ex); cbn; try reflexivity.
    first [ exact (f_equal Some (Pos.compare_cont_antisym mx my Eq))
          | exact (f_equal Some (eq_sym (Pos.compare_cont_antisym mx my Eq))) ].
Qed.

Lemma ltb_false_leb (x y : double) :
  is_nan x = false -> is_nan y = false -> (x <? y)%D = false -> (y <=? x)%D = true.
Proof.
  unfold ltb, leb, SFltb, SFleb. intros Hx Hy.
  rewrite (SFcompare_antisym x y).
  destruct (SFcompare x y) as [[]|] eqn:E; cbn; try reflexivity; try discriminate.
  destruct x, y; try discriminate Hx; try discriminate Hy; discriminate E.
Qed.

Lemma ltb_leb_weak (x y : double) : (x <? y)%D = true -> (x <=? y)%D = true.
Proof.
  unfold ltb, leb, SFltb, SFleb.
  destruct (SFcompare x y) as [[]|]; try reflexivity; discriminate.
Qed.

Lemma leb_not_ltb (x y : double) : (x <=? y)%D = true -> (y <? x)%D = false.
Proof.
  unfold ltb, leb, SFltb, SFleb.
  rewrite (SFcompare_antisym x y).
  destruct (SFcompare x y) as [[]|]; try reflexivity; discriminate.
Qed.

(** X5: after the sanity check of [main] a time that is a number lies in
    [0, 1], and a time already there is kept; NaN fails both comparisons
    and passes the check unchanged. *)
Theorem clampTime_range (t : double) :
  (is_nan t = false ->
   (zero <=? clampTime t)%D = true /\ (clampTime t <=? one)%D = true) /\
  ((zero <=? t)%D = true -> (t <=? one)%D = true -> clampTime t = t) /\
  (is_nan t = true -> clampTime t = t).
Proof.
  unfold clampTime. split; [|split].
  - intros Hn. destruct (one <? t)%D eqn:E1.
    + rewrite orb_true_r. split; reflexivity.
    + rewrite orb_false_r. destruct (t <? zero)%D eqn:E0; [split; reflexivity|].
      split; now apply ltb_false_leb.
  - intros H0 H1. rewrite (leb_not_ltb _ _ H0), (leb_not_ltb _ _ H1). reflexivity.
  - intros Hn. destruct t; try discriminate Hn. reflexivity.
Qed.

Lemma clampTime_range_witness :
  clampTime (of_int 3) = one /\ clampTime (of_int (-3)) = zero /\
  clampTime one_half = one_half /\
  ((zero <=? clampTime (of_int 3))%D = true /\ (clampTime (of_int 3) <=? one)%D = true).
Proof.
  split; [reflexivity|]. split; [reflexivity|].
  split.
  - apply (proj1 (proj2 (clampTime_range one_half))); reflexivity.
  - apply (proj1 (clampTime_range (of_int 3))). reflexivity.
Defined.

(** ** LineSegment.hpp: a segment whose endpoints coincide *)

Lemma degenerate_direction (s : LineSegment) :
  start s = end_ s ->
  Segment.direction s = mkVec2 zero zero \/
  vx (Segment.direction s) = nan \/ vy (Segment.direction s) = nan.
Proof.
  intros E. unfold Segment.direction, vsub. rewrite <- E. cbn.
  destruct (sub_diag (vx (start s))) as [-> | ->],
           (sub_diag (vy (start s))) as [-> | ->]; auto.
Qed.

Lemma zero_mul_add_div_zero (x y : double) :
  ((zero * x + zero * y) / (zero * zero + zero * zero))%D = nan.
Proof.
  destruct x as [sx | sx | | sx mx ex], y as [sy | sy | | sy my ey];
    try destruct sx; try destruct sy; reflexivity.
Qed.

Lemma mul_zeros_add_div_zero (x y : double) :
  ((x * SFopp zero + y * zero) / sqrt (zero * zero + zero * zero))%D = nan.
Proof.
  destruct x as [sx | sx | | sx mx ex], y as [sy | sy | | sy my ey];
    try destruct sx; try destruct sy; reflexivity.
Qed.

(** X6: for a segment whose two endpoints are the same point,
    [lineParameter] and [signedLineDistance] answer NaN at every point, and
    [segmentDistance] then converts NaN to [int], which is undefined; none
    of them falls back to the distance to that point. *)
Theorem degenerate_segment_queries (s : LineSegment) (p : Vec2) :
  start s = end_ s ->
  Segment.lineParameter s p = nan /\
  Segment.signedLineDistance s p = nan /\
  Segment.segmentDistance s p = None.
Proof.
  intros E.
  assert (Hu : Segment.lineParameter s p = nan).
  { unfold Segment.lineParameter, Segment.length2, vlength2, dot.
    destruct (degenerate_direction s E) as [Hd | [Hd | Hd]];
      unfold Segment.direction in Hd.
    - rewrite Hd. cbn [vx vy]. apply zero_mul_add_div_zero.
    - rewrite Hd. rewrite !mul_nan_l, !add_nan_l. apply div_nan_l.
    - rewrite Hd. rewrite !mul_nan_l, !add_nan_r. apply div_nan_l. }
  assert (Hv : Segment.signedLineDistance s p = nan).
  { unfold Segment.signedLineDistance, Segment.length, Segment.length2,
      Segment.perp, vlength2, dot, vperp.
    destruct (degenerate_direction s E) as [Hd | [Hd | Hd]].
    - fold (Segment.direction s). rewrite Hd. cbn [vx vy].
      apply mul_zeros_add_div_zero.
    - rewrite Hd. rewrite !mul_nan_r, !add_nan_r. apply div_nan_l.
    - rewrite Hd. cbn [SFopp]. rewrite !mul_nan_r, !add_nan_l. apply div_nan_l. }
  split; [exact Hu|]. split; [exact Hv|].
  unfold Segment.segmentDistance, Segment.segmentDistance3.
  rewrite Hu, Hv. reflexivity.
Qed.

Lemma degenerate_segment_queries_witness :
  Segment.lineParameter (seg 1 1 1 1) (pt 3 4) = nan /\
  Segment.signedLineDistance (seg 1 1 1 1) (pt 3 4) = nan /\
  Segment.segmentDistance (seg 1 1 1 1) (pt 3 4) = None.
Proof.
  apply (degenerate_segment_queries (seg 1 1 1 1) (pt 3 4)). reflexivity.
Defined.

(** ** Algebra3: division of a vector by a scalar *)

Lemma one_div_zero (s : bool) : (one / S754_zero s)%D = S754_infinity s.
Proof. destruct s; reflexivity. Qed.

Lemma mul_infinity_not_finite (x : double) (s : bool) :
  is_finite (x * S754_infinity s)%D = false.
Proof. destruct x; reflexivity. Qed.

(** X7: dividing a vector by a zero of either sign leaves no finite
    coordinate: the reciprocal is an infinity, and each product with it is
    an infinity or NaN. *)
Theorem div_by_zero_not_finite (a : Vec2) (s : bool) :
  is_finite (vx (Algebra3.div a (S754_zero s))) = false /\
  is_finite (vy (Algebra3.div a (S754_zero s))) = false.
Proof.
  unfold Algebra3.div. cbn [vx vy]. rewrite one_div_zero.
  split; apply mul_infinity_not_finite.
Qed.

(** X8: [normalize] of a vector whose computed length is zero has no
    finite coordinate, and for the zero vector the result is NaN in both
    coordinates.  The length is zero also for a vector so short that its
    squares underflow. *)
Theorem normalize_zero_length (a : Vec2) (s : bool) :
  vlength a = S754_zero s ->
  is_finite (vx (Algebra3.normalize a)) = false /\
  is_finite (vy (Algebra3.normalize a)) = false /\
  (forall sx sy, a = mkVec2 (S754_zero sx) (S754_zero sy) ->
     Algebra3.normalize a = nanVec).
Proof.
  intros H. unfold Algebra3.normalize. rewrite H.
  split; [|split];
    try (unfold Algebra3.div; cbn [vx vy]; rewrite one_div_zero;
         apply mul_infinity_not_finite).
  intros sx sy ->. unfold Algebra3.div. rewrite one_div_zero.
  destruct sx, sy, s; reflexivity.
Qed.

Lemma normalize_zero_length_witness :
  vlength (mkVec2 (S754_finite false 4503599627370496 (-652)) zero) = zero /\
  Algebra3.normalize (mkVec2 (S754_finite false 4503599627370496 (-652)) zero)
  = mkVec2 (S754_infinity false) nan /\
  is_finite (vx (Algebra3.normalize
                   (mkVec2 (S754_finite false 4503599627370496 (-652)) zero))) = false.
Proof.
  assert (H : vlength (mkVec2 (S754_finite false 4503599627370496 (-652)) zero)
              = S754_zero false) by (vm_compute; reflexivity).
  split; [exact H|]. split; [vm_compute; reflexivity|].
  exact (proj1 (normalize_zero_length _ false H)).
Defined.

(** X9: the normal [perp() / length()] of a segment whose endpoints
    coincide is NaN in both coordinates when it is computed with
    [operator /] of Algebra3, which multiplies by the reciprocal, as it is
    with a division per coordinate. *)
Theorem div_degenerate_normal (s : LineSegment) :
  start s = end_ s ->
  Algebra3.div (Segment.perp s) (Segment.length s) = nanVec /\
  Algebra3.div (Segment.perp s) (Segment.length s)
  = mkVec2 (vx (Segment.perp s) / Segment.length s)%D
           (vy (Segment.perp s) / Segment.length s)%D.
Proof.
  intros E. rewrite (degenerate_normal s E). split; [reflexivity|].
  unfold Segment.perp, Segment.length, Segment.length2, vperp, vlength2, dot.
  fold (Segment.direction s).
  destruct (degenerate_direction s E) as [Hd | [Hd | Hd]].
  - rewrite Hd. reflexivity.
  - rewrite Hd. cbn [vx vy]. rewrite !mul_nan_l, !add_nan_l.
    change (sqrt nan) with nan. rewrite !div_nan_r. reflexivity.
  - rewrite Hd. cbn [vx vy]. rewrite !mul_nan_l, !add_nan_r.
    change (sqrt nan) with nan. rewrite !div_nan_r. reflexivity.
Qed.

Lemma div_degenerate_normal_witness :
  Algebra3.div (Segment.perp (seg 2 3 2 3)) (Segment.length (seg 2 3 2 3)) = nanVec.
Proof.
  apply (proj1 (div_degenerate_normal (seg 2 3 2 3) eq_refl)).
Defined.

(** X10: [operator /] of Algebra3 is not the quotient per coordinate: for
    (49, 49) / 49 the reciprocal 1/49 is rounded first, and the product
    with 49 falls one unit in the last place short of 1. *)
Theorem div_reciprocal_not_quotient :
  exists (a : Vec2) (d : double),
    is_finite d = true /\ (zero <? d)%D = true /\
    Algebra3.div a d <> mkVec2 (vx a / d)%D (vy a / d)%D /\
    mkVec2 (vx a / d)%D (vy a / d)%D = mkVec2 one one /\
    (vx (Algebra3.div a d) <? one)%D = true.
Proof.
  exists (pt 49 49), (of_int 49).
  repeat split; try (vm_compute; reflexivity).
  vm_compute. discriminate.
Qed.

(** ** Image.cpp: what the pixel loops store *)

Lemma scanPixels_Some_inv (w h : Z) (body : Z -> Z -> option (list Z))
    (buf : list Z) :
  scanPixels w h body = Some buf ->
  exists g : Z -> Z -> list Z,
    (forall row col, 0 <= row < h -> 0 <= col < w -> body row col = Some (g row col)) /\
    buf = concat ((fun row => concat (g row <$> seqZ 0 w)) <$> seqZ 0 h).
Proof.
  intros H. exists (fun row col => default [] (body row col)).
  assert (Hb : forall row col, 0 <= row < h -> 0 <= col < w ->
            body row col = Some (default [] (body row col))).
  { intros row col Hr Hc. unfold scanPixels in H.
    destruct (mapM _ (seqZ 0 h)) as [rows|] eqn:E; [|discriminate H].
    assert (Hs : is_Some (mapM (fun row => cols ← mapM (body row) (seqZ 0 w);
                                           Some (concat cols)) (seqZ 0 h)))
      by (rewrite E; eauto).
    rewrite mapM_is_Some, Forall_forall in Hs.
    specialize (Hs row). cbn in Hs.
    destruct (mapM (body row) (seqZ 0 w)) as [cols|] eqn:E2.
    - assert (Hs2 : is_Some (mapM (body row) (seqZ 0 w))) by (rewrite E2; eauto).
      rewrite mapM_is_Some, Forall_forall in Hs2.
      destruct (Hs2 col) as [l Hl]; [apply elem_of_seqZ; lia|].
      cbn in Hl. rewrite Hl. reflexivity.
    - destruct Hs as [l Hl]; [apply elem_of_seqZ; lia | discriminate Hl]. }
  split; [exact Hb|].
  rewrite (scanPixels_total _ _ _ _ Hb) in H. congruence.
Qed.

Lemma scan_buffer_length (g : Z -> Z -> list Z) (w h n : Z) :
  0 <= w -> 0 <= h -> 0 <= n ->
  (forall r c, 0 <= r < h -> 0 <= c < w -> List.length (g r c) = Z.to_nat n) ->
  Z.of_nat (List.length (concat ((fun r => concat (g r <$> seqZ 0 w)) <$> seqZ 0 h)))
  = w * h * n.
Proof.
  intros Hw Hh Hn Hlen.
  rewrite (seqZ_0_fmap h), <- list_fmap_compose.
  rewrite (concat_chunks_length _ (Z.to_nat w * Z.to_nat n) (Z.to_nat h)); [nia|].
  intros r Hr. cbn. rewrite (seqZ_0_fmap w), <- list_fmap_compose.
  apply concat_chunks_length. intros c Hc. cbn. apply Hlen; lia.
Qed.

Lemma scan_buffer_Forall (P : Z -> Prop) (g : Z -> Z -> list Z) (w h : Z) :
  (forall r c, 0 <= r < h -> 0 <= c < w -> Forall P (g r c)) ->
  Forall P (concat ((fun r => concat (g r <$> seqZ 0 w)) <$> seqZ 0 h)).
Proof.
  intros H. apply Forall_concat, Forall_fmap, Forall_forall.
  intros r Hr. apply elem_of_seqZ in Hr. cbn.
  apply Forall_concat, Forall_fmap, Forall_forall.
  intros c Hc. apply elem_of_seqZ in Hc. cbn. apply H; lia.
Qed.

Lemma seqZ_nonpos (n : Z) : n <= 0 -> seqZ 0 n = [].
Proof. intros H. unfold seqZ. replace (Z.to_nat n) with 0%nat by lia. reflexivity. Qed.

Lemma scan_buffer_empty (g : Z -> Z -> list Z) (w h : Z) :
  w <= 0 \/ h <= 0 ->
  concat ((fun r => concat (g r <$> seqZ 0 w)) <$> seqZ 0 h) = [].
Proof.
  intros [Hw | Hh].
  - rewrite (seqZ_nonpos w Hw). induction (seqZ 0 h) as [|r l IH]; [reflexivity|].
    cbn. exact IH.
  - rewrite (seqZ_nonpos h Hh). reflexivity.
Qed.

Lemma sampleBilinear_bytes (image : Image) (loc : Vec2) (sampled_color : list Z) :
  0 <= numChannels image ->
  sampleBilinear image loc = Some sampled_color ->
  numChannels image <= 4 /\ List.length sampled_color = 4%nat /\
  Forall (fun b => 0 <= b <= 255) sampled_color.
Proof.
  intros Hn H. unfold sampleBilinear in H.
  repeat match type of H with
  | (?m ≫= _) = Some _ =>
      let E := fresh "E" in
      destruct m eqn:E; cbn [mbind option_bind] in H; [|discriminate H]
  end.
  destruct (Z.ltb_spec 4 (numChannels image)) as [|Hle]; [discriminate H|].
  injection H as <-.
  match goal with E : mapM _ _ = Some _ |- _ => apply mapM_Some_1 in E; rename E into Hch end.
  pose proof (Forall2_length _ _ _ Hch) as Hlen. rewrite length_seqZ in Hlen.
  split; [exact Hle|]. split.
  - rewrite length_app, length_replicate. lia.
  - apply Forall_app. split.
    + apply Forall_forall. intros b Hb.
      apply list_elem_of_lookup in Hb as [i Hb].
      destruct (Forall2_lookup_r _ _ _ _ _ Hch Hb) as (ch & _ & Hs).
      by eapply sampleChannel_range.
    + apply Forall_replicate. lia.
Qed.

Lemma distortPixel_Some_inv (pow : double -> double -> double) (image : Image)
    (seg_start seg_end : list LineSegment) (t a b p : double) (row col : Z)
    (px : list Z) :
  distortPixel pow image seg_start seg_end t a b p row col = Some px ->
  exists interpolated sample,
    finalSource pow seg_start seg_end (mkVec2 (of_int col) (of_int row)) t a b p
    = Some interpolated /\
    sampleBilinear image interpolated = Some sample /\
    px = take (Z.to_nat (numChannels image)) sample.
Proof.
  unfold distortPixel. intros H.
  destruct (finalSource _ _ _ _ _ _ _ _) as [interpolated|];
    cbn [mbind option_bind] in H; [|discriminate H].
  destruct (sampleBilinear image interpolated) as [sample|] eqn:Es;
    cbn [mbind option_bind] in H; [|discriminate H].
  injection H as <-. exists interpolated, sample. auto.
Qed.

Lemma distortImage_Some_inv (pow : double -> double -> double) (image : Image)
    (seg_start seg_end : list LineSegment) (t a b p : double) (result : Image) :
  image_wf image ->
  distortImage pow image seg_start seg_end t a b p = Some result ->
  image_wf result /\
  width result = width image /\ height result = height image /\
  numChannels result = numChannels image.
Proof.
  intros Hwf H. unfold distortImage in H.
  destruct (negb _); [discriminate H|].
  destruct (scanPixels _ _ _) as [buf|] eqn:Hscan; [|discriminate H].
  cbn in H. injection H as <-. cbn [width height numChannels].
  split; [|repeat split].
  destruct Hwf as [Hw Hh Hn Hsize Hint Hbytes].
  apply scanPixels_Some_inv in Hscan as (g & Hg & ->).
  assert (Hpix : forall r c, 0 <= r < height image -> 0 <= c < width image ->
            List.length (g r c) = Z.to_nat (numChannels image) /\
            Forall (fun b => 0 <= b <= 255) (g r c)).
  { intros r c Hr Hc. specialize (Hg r c Hr Hc).
    apply distortPixel_Some_inv in Hg as (src & sample & _ & Es & ->).
    destruct (sampleBilinear_bytes _ _ _ (proj1 Hn) Es) as (Hle & Hl & Hb).
    split; [rewrite length_take; lia | by apply Forall_take]. }
  split; cbn [width height numChannels data]; try done.
  - apply scan_buffer_length; try lia. intros r c Hr Hc. by apply Hpix.
  - apply scan_buffer_Forall. intros r c Hr Hc. by apply Hpix.
Qed.

(** X11: an image without pixels is warped without a single sample: with
    width or height 0, [distortImage] returns the empty image of the same
    dimensions for any feature lists of equal length, the empty lists
    included. *)
Theorem distortImage_empty (pow : double -> double -> double) (image : Image)
    (seg_start seg_end : list LineSegment) (t a b p : double) :
  List.length seg_start = List.length seg_end ->
  width image <= 0 \/ height image <= 0 ->
  distortImage pow image seg_start seg_end t a b p
  = Some (mkImage (width image) (height image) (numChannels image) []).
Proof.
  intros Hlen Hempty. unfold distortImage.
  rewrite Hlen, Nat.eqb_refl. cbn [negb].
  rewrite (scanPixels_total _ _ _ (fun _ _ => [])).
  - rewrite scan_buffer_empty by exact Hempty. reflexivity.
  - intros row col Hr Hc. lia.
Qed.

Lemma distortImage_empty_witness :
  distortImage pow_std (mkImage 0 5 3 []) [] [] one_half one one one
  = Some (mkImage 0 5 3 []).
Proof.
  apply (distortImage_empty pow_std (mkImage 0 5 3 []) [] [] one_half one one one).
  - reflexivity.
  - left. cbn. lia.
Defined.

(** X12: when [distortImage] returns, the two feature lists had the same
    length, the result has the width, the height and the channel count of
    the input, its buffer holds [w * h * nc] bytes, and an input with at
    least one pixel has at most 4 channels. *)
Theorem distortImage_output_wf (pow : double -> double -> double) (image : Image)
    (seg_start seg_end : list LineSegment) (t a b p : double) (result : Image) :
  image_wf image ->
  distortImage pow image seg_start seg_end t a b p = Some result ->
  List.length seg_start = List.length seg_end /\
  image_wf result /\ hasSameDimsAs image result = true /\
  (1 <= width image -> 1 <= height image -> numChannels image <= 4).
Proof.
  intros Hwf H.
  destruct (distortImage_Some_inv _ _ _ _ _ _ _ _ _ Hwf H) as (Hwf' & Hw & Hh & Hn).
  split; [|split; [exact Hwf'|split]].
  - unfold distortImage in H.
    destruct (Nat.eqb_spec (List.length seg_start) (List.length seg_end));
      [done | discriminate H].
  - unfold hasSameDimsAs. rewrite Hw, Hh, Hn, !Z.eqb_refl. reflexivity.
  - intros H1 H2. unfold distortImage in H.
    destruct (negb _); [discriminate H|].
    destruct (scanPixels _ _ _) as [buf|] eqn:Hscan; [|discriminate H].
    apply scanPixels_Some_inv in Hscan as (g & Hg & _).
    specialize (Hg 0 0 ltac:(lia) ltac:(lia)).
    apply distortPixel_Some_inv in Hg as (src & sample & _ & Es & _).
    pose proof (wf_channels image Hwf) as [Hn0 _].
    exact (proj1 (sampleBilinear_bytes _ _ _ Hn0 Es)).
Qed.

Lemma distortImage_output_wf_witness :
  distortImage pow_std img_3x3 [seg 0 0 2 0] [seg 0 0 2 0] one_half one one zero
  = Some img_3x3 /\
  hasSameDimsAs img_3x3 img_3x3 = true.
Proof.
  assert (H : distortImage pow_std img_3x3 [seg 0 0 2 0] [seg 0 0 2 0]
                one_half one one zero = Some img_3x3) by (vm_compute; reflexivity).
  split; [exact H|].
  exact (proj1 (proj2 (proj2 (distortImage_output_wf _ _ _ _ _ _ _ _ _ img_3x3_wf H)))).
Defined.

(** ** Image.cpp: blending and morphing at the ends of the interval *)

Lemma blend_byte_facts (b : Z) :
  0 <= b <= 255 ->
  (of_int b * one)%D = of_int b /\ (of_int b * zero)%D = zero /\
  (of_int b + zero)%D = of_int b /\ (zero + of_int b)%D = of_int b /\
  floor_to_uchar (of_int b) = Some b.
Proof.
  intros Hb.
  assert (H : forall b, 0 <= b <= 255 ->
            bool_decide ((of_int b * one)%D = of_int b /\ (of_int b * zero)%D = zero /\
                         (of_int b + zero)%D = of_int b /\
                         (zero + of_int b)%D = of_int b /\
                         floor_to_uchar (of_int b) = Some b) = true)
    by (apply byte_cases; vm_compute; reflexivity).
  specialize (H b Hb). by rewrite bool_decide_eq_true in H.
Qed.

Lemma blendByte_one (p1 p2 : Z) :
  0 <= p1 <= 255 -> 0 <= p2 <= 255 -> blendByte p1 p2 one = Some p1.
Proof.
  intros H1 H2. unfold blendByte, blendValue.
  change (one - one)%D with zero.
  destruct (blend_byte_facts p1 H1) as (E1 & _ & E3 & _ & E5).
  destruct (blend_byte_facts p2 H2) as (_ & E2 & _).
  rewrite E1, E2, E3. exact E5.
Qed.

Lemma blendByte_zero (p1 p2 : Z) :
  0 <= p1 <= 255 -> 0 <= p2 <= 255 -> blendByte p1 p2 zero = Some p2.
Proof.
  intros H1 H2. unfold blendByte, blendValue.
  change (one - zero)%D with one.
  destruct (blend_byte_facts p1 H1) as (_ & E2 & _).
  destruct (blend_byte_facts p2 H2) as (E1 & _ & _ & E4 & E5).
  rewrite E1, E2, E4. exact E5.
Qed.

Lemma blendImages_one (img1 img2 : Image) :
  image_wf img1 -> image_wf img2 -> hasSameDimsAs img1 img2 = true ->
  blendImages img1 img2 one = Some img1.
Proof.
  intros Hwf1 Hwf2 Hdims.
  pose proof Hdims as Hsame. unfold hasSameDimsAs in Hdims.
  apply andb_true_iff in Hdims as [Hdims Hn]. apply andb_true_iff in Hdims as [Hw Hh].
  apply Z.eqb_eq in Hw, Hh, Hn.
  unfold blendImages. rewrite Hsame. cbn [negb].
  rewrite (scanPixels_total _ _ _ (pixelBytes img1)).
  - cbn [mbind option_bind]. rewrite row_major_buffer by done. by destruct img1.
  - intros row col Hr Hc. unfold blendPixel.
    rewrite <- (mapM_pixel img1 row col) by done.
    apply mapM_ext_in. intros ch Hch. apply elem_of_seqZ in Hch.
    destruct (pixel_in_bounds img1 row col ch) as (p1 & E1 & B1);
      [done | done | done | lia |].
    destruct (pixel_in_bounds img2 row col ch) as (p2 & E2 & B2);
      [done | lia | lia | lia |].
    rewrite E1, E2. cbn. by apply blendByte_one.
Qed.

Lemma blendImages_zero (img1 img2 : Image) :
  image_wf img1 -> image_wf img2 -> hasSameDimsAs img1 img2 = true ->
  blendImages img1 img2 zero = Some img2.
Proof.
  intros Hwf1 Hwf2 Hdims.
  pose proof Hdims as Hsame. unfold hasSameDimsAs in Hdims.
  apply andb_true_iff in Hdims as [Hdims Hn]. apply andb_true_iff in Hdims as [Hw Hh].
  apply Z.eqb_eq in Hw, Hh, Hn.
  unfold blendImages. rewrite Hsame. cbn [negb].
  rewrite (scanPixels_total _ _ _ (pixelBytes img2)).
  - cbn [mbind option_bind]. rewrite Hw, Hh, Hn.
    rewrite row_major_buffer by done. by destruct img2.
  - intros row col Hr Hc. unfold blendPixel.
    rewrite <- (mapM_pixel img2 row col) by (done || lia).
    rewrite Hn.
    apply mapM_ext_in. intros ch Hch. apply elem_of_seqZ in Hch.
    destruct (pixel_in_bounds img1 row col ch) as (p1 & E1 & B1);
      [done | done | done | lia |].
    destruct (pixel_in_bounds img2 row col ch) as (p2 & E2 & B2);
      [done | lia | lia | lia |].
    rewrite E1, E2. cbn. by apply blendByte_zero.
Qed.

Lemma img_grey100_wf : image_wf img_grey100.
Proof. split; cbn; unfold INT_MAX; try lia. repeat constructor; lia. Qed.

Lemma img_grey200_wf : image_wf img_grey200.
Proof. split; cbn; unfold INT_MAX; try lia. repeat constructor; lia. Qed.

(** X13: at the ends of the interval the blend is one of its inputs, byte
    for byte: with weight 1 the first image, with weight 0 the second. *)
Theorem blendImages_endpoints (img1 img2 : Image) :
  image_wf img1 -> image_wf img2 -> hasSameDimsAs img1 img2 = true ->
  blendImages img1 img2 one = Some img1 /\
  blendImages img1 img2 zero = Some img2.
Proof.
  intros Hwf1 Hwf2 Hdims.
  split; [by apply blendImages_one | by apply blendImages_zero].
Qed.

Lemma blendImages_endpoints_witness :
  blendImages img_grey100 img_grey200 one = Some img_grey100 /\
  blendImages img_grey100 img_grey200 zero = Some img_grey200.
Proof.
  apply (blendImages_endpoints img_grey100 img_grey200 img_grey100_wf img_grey200_wf).
  reflexivity.
Defined.

Lemma hasSameDimsAs_trans_distort (img1 img2 d1 d2 : Image) :
  hasSameDimsAs img1 img2 = true ->
  width d1 = width img1 -> height d1 = height img1 ->
  numChannels d1 = numChannels img1 ->
  width d2 = width img2 -> height d2 = height img2 ->
  numChannels d2 = numChannels img2 ->
  hasSameDimsAs d1 d2 = true.
Proof.
  unfold hasSameDimsAs. intros H -> -> -> -> -> ->. exact H.
Qed.

(** X14: inside [morphImages] the assertion of [blendImages] always
    holds: when both calls of [distortImage] return, the two warped images
    have the same dimensions, and the morph is their blend with the
    dimensions of the inputs. *)
Theorem morphImages_blend_assertion_holds (pow : double -> double -> double)
    (img1 img2 : Image) (seg1 seg2 : list LineSegment) (t a b p : double)
    (distorted1 distorted2 : Image) :
  image_wf img1 -> image_wf img2 -> hasSameDimsAs img1 img2 = true ->
  distortImage pow img1 seg1 seg2 t a b p = Some distorted1 ->
  distortImage pow img2 seg2 seg1 (one - t)%D a b p = Some distorted2 ->
  hasSameDimsAs distorted1 distorted2 = true /\
  morphImages pow img1 img2 seg1 seg2 t a b p
  = blendImages distorted1 distorted2 (one - t)%D /\
  (forall blended,
     morphImages pow img1 img2 seg1 seg2 t a b p = Some blended ->
     hasSameDimsAs img1 blended = true).
Proof.
  intros Hwf1 Hwf2 Hdims H1 H2.
  destruct (distortImage_Some_inv _ _ _ _ _ _ _ _ _ Hwf1 H1) as (Hd1 & Hw1 & Hh1 & Hn1).
  destruct (distortImage_Some_inv _ _ _ _ _ _ _ _ _ Hwf2 H2) as (Hd2 & Hw2 & Hh2 & Hn2).
  assert (Hsame : hasSameDimsAs distorted1 distorted2 = true)
    by (by eapply hasSameDimsAs_trans_distort).
  assert (Hm : morphImages pow img1 img2 seg1 seg2 t a b p
               = blendImages distorted1 distorted2 (one - t)%D).
  { unfold morphImages. rewrite Hdims, H1, H2. reflexivity. }
  split; [exact Hsame|]. split; [exact Hm|].
  intros blended Hb. rewrite Hm in Hb. unfold blendImages in Hb.
  rewrite Hsame in Hb. cbn [negb] in Hb.
  destruct (scanPixels _ _ _) as [buf|]; [|discriminate Hb].
  cbn in Hb. injection Hb as <-.
  unfold hasSameDimsAs. cbn [width height numChannels].
  rewrite Hw1, Hh1, Hn1, !Z.eqb_refl. reflexivity.
Qed.

Lemma morph_grey_wf (v : Z) : 0 <= v <= 255 -> image_wf (mkImage 1 1 1 [v]).
Proof.
  intros Hv. split; cbn; unfold INT_MAX; try lia. repeat constructor; lia.
Qed.

Lemma morphImages_blend_assertion_holds_witness :
  hasSameDimsAs (mkImage 1 1 1 [100]) (mkImage 1 1 1 [200]) = true /\
  morphImages pow_std (mkImage 1 1 1 [100]) (mkImage 1 1 1 [200])
    [seg 0 0 2 0] [seg 0 0 4 0] one_half one one zero
  = blendImages (mkImage 1 1 1 [100]) (mkImage 1 1 1 [200]) (one - one_half)%D.
Proof.
  assert (Ha : 0 <= 100 <= 255) by lia. assert (Hb : 0 <= 200 <= 255) by lia.
  assert (H1 : distortImage pow_std (mkImage 1 1 1 [100]) [seg 0 0 2 0] [seg 0 0 4 0]
                 one_half one one zero = Some (mkImage 1 1 1 [100]))
    by (vm_compute; reflexivity).
  assert (H2 : distortImage pow_std (mkImage 1 1 1 [200]) [seg 0 0 4 0] [seg 0 0 2 0]
                 (one - one_half)%D one one zero = Some (mkImage 1 1 1 [200]))
    by (vm_compute; reflexivity).
  pose proof (morphImages_blend_assertion_holds pow_std _ _ _ _ _ _ _ _ _ _
                (morph_grey_wf 100 Ha) (morph_grey_wf 200 Hb) eq_refl H1 H2)
    as (Hs & Hm & _).
  split; [exact Hs | exact Hm].
Defined.

(** X15: at [t = 0] the morph is the first image warped at time 0, and at
    [t = 1] it is the second image warped at time 0, byte for byte; the
    other image is still warped (at time 1) and only has to come back. *)
Theorem morphImages_endpoints (pow : double -> double -> double)
    (img1 img2 : Image) (seg1 seg2 : list LineSegment) (a b p : double) :
  image_wf img1 -> image_wf img2 -> hasSameDimsAs img1 img2 = true ->
  (is_Some (distortImage pow img2 seg2 seg1 one a b p) ->
   morphImages pow img1 img2 seg1 seg2 zero a b p
   = distortImage pow img1 seg1 seg2 zero a b p) /\
  (is_Some (distortImage pow img1 seg1 seg2 one a b p) ->
   morphImages pow img1 img2 seg1 seg2 one a b p
   = distortImage pow img2 seg2 seg1 zero a b p).
Proof.
  intros Hwf1 Hwf2 Hdims. split.
  - intros [d2 H2]. unfold morphImages. rewrite Hdims. cbn [negb].
    change (one - zero)%D with one. rewrite H2.
    destruct (distortImage pow img1 seg1 seg2 zero a b p) as [d1|] eqn:H1;
      [|reflexivity].
    cbn [mbind option_bind].
    destruct (distortImage_Some_inv _ _ _ _ _ _ _ _ _ Hwf1 H1) as (Hd1 & Hw1 & Hh1 & Hn1).
    destruct (distortImage_Some_inv _ _ _ _ _ _ _ _ _ Hwf2 H2) as (Hd2 & Hw2 & Hh2 & Hn2).
    apply blendImages_one; try done. by eapply hasSameDimsAs_trans_distort.
  - intros [d1 H1]. unfold morphImages. rewrite Hdims. cbn [negb].
    change (one - one)%D with zero. rewrite H1. cbn [mbind option_bind].
    destruct (distortImage pow img2 seg2 seg1 zero a b p) as [d2|] eqn:H2;
      [|reflexivity].
    cbn [mbind option_bind].
    destruct (distortImage_Some_inv _ _ _ _ _ _ _ _ _ Hwf1 H1) as (Hd1 & Hw1 & Hh1 & Hn1).
    destruct (distortImage_Some_inv _ _ _ _ _ _ _ _ _ Hwf2 H2) as (Hd2 & Hw2 & Hh2 & Hn2).
    apply blendImages_zero; try done. by eapply hasSameDimsAs_trans_distort.
Qed.

Lemma morphImages_endpoints_witness :
  morphImages pow_std (mkImage 1 1 1 [100]) (mkImage 1 1 1 [200])
    [seg 0 0 2 0] [seg 0 0 4 0] zero one one zero
  = distortImage pow_std (mkImage 1 1 1 [100]) [seg 0 0 2 0] [seg 0 0 4 0]
      zero one one zero /\
  morphImages pow_std (mkImage 1 1 1 [100]) (mkImage 1 1 1 [200])
    [seg 0 0 2 0] [seg 0 0 4 0] zero one one zero
  = Some (mkImage 1 1 1 [100]).
Proof.
  assert (Ha : 0 <= 100 <= 255) by lia. assert (Hb : 0 <= 200 <= 255) by lia.
  assert (H2 : is_Some (distortImage pow_std (mkImage 1 1 1 [200]) [seg 0 0 4 0]
                          [seg 0 0 2 0] one one one zero))
    by (vm_compute; eauto).
  pose proof (proj1 (morphImages_endpoints pow_std _ _ [seg 0 0 2 0] [seg 0 0 4 0]
                       one one zero
                       (morph_grey_wf 100 Ha) (morph_grey_wf 200 Hb) eq_refl) H2) as Hm.
  split; [exact Hm|]. vm_compute. reflexivity.
Defined.

(** ** Signs: lengths and distances are never negative *)

Lemma binary_round_aux_signbit (s : bool) (m e : Z) (l : location) :
  signbit (binary_round_aux prec emax s m e l) = s \/
  binary_round_aux prec emax s m e l = nan.
Proof.
  unfold binary_round_aux.
  destruct (shr_fexp prec emax m e l) as [mrs' e'].
  destruct (shr_fexp prec emax _ e' loc_Exact) as [mrs'' e''].
  destruct (shr_m mrs''); [left; reflexivity | | right; reflexivity].
  destruct (e'' <=? emax - prec); left; reflexivity.
Qed.

Lemma binary_round_aux_nonneg (m e : Z) (l : location) :
  signbit (binary_round_aux prec emax false m e l) = false.
Proof.
  destruct (binary_round_aux_signbit false m e l) as [H | H]; [exact H|].
  rewrite H. reflexivity.
Qed.

Lemma mul_self_nonneg (x : double) : signbit (x * x)%D = false.
Proof.
  destruct x as [[|] | [|] | | s m e]; try reflexivity.
  unfold mul, SFmul. destruct s; apply binary_round_aux_nonneg.
Qed.

Lemma add_nonneg (x y : double) :
  signbit x = false -> signbit y = false -> signbit (x + y)%D = false.
Proof.
  destruct x as [sx | sx | | sx mx ex], y as [sy | sy | | sy my ey];
    cbn [signbit]; intros Hx Hy; subst; try reflexivity.
  unfold add, SFadd. cbn [cond_Zopp].
  destruct (shl_align mx ex (Z.min ex ey)) as [mx' ex'].
  destruct (shl_align my ey (Z.min ex ey)) as [my' ey'].
  cbn [fst]. change (Zpos mx' + Zpos my') with (Zpos (mx' + my')).
  cbn [binary_normalize]. unfold binary_round.
  destruct (shl_align _ _ _) as [mz ez]. apply binary_round_aux_nonneg.
Qed.

Lemma sqrt_nonneg (x : double) : signbit x = false -> signbit (sqrt x) = false.
Proof.
  destruct x as [s | s | | s m e]; cbn [signbit]; intros Hx; subst; try reflexivity.
  unfold sqrt, SFsqrt.
  destruct (SFsqrt_core_binary prec emax (Zpos m) e) as [[mz ez] lz].
  apply binary_round_aux_nonneg.
Qed.

Lemma vlength2_nonneg (a : Vec2) : signbit (vlength2 a) = false.
Proof. unfold vlength2, dot. apply add_nonneg; apply mul_self_nonneg. Qed.

Lemma vlength_nonneg (a : Vec2) : signbit (vlength a) = false.
Proof. unfold vlength. apply sqrt_nonneg, vlength2_nonneg. Qed.

Lemma abs_nonneg (x : double) : signbit (abs x) = false.
Proof. destruct x; reflexivity. Qed.

Lemma signbit_not_ltb_zero (x : double) : signbit x = false -> (x <? zero)%D = false.
Proof. destruct x as [s | s | | s m e]; cbn [signbit]; intros Hx; subst; reflexivity. Qed.

Lemma of_int_nonneg (n : Z) : 0 <= n -> signbit (of_int n) = false.
Proof.
  intros Hn. destruct n as [|q|q]; [reflexivity | | lia].
  unfold of_int, binary_normalize, binary_round.
  destruct (shl_align _ _ _) as [mz ez]. apply binary_round_aux_nonneg.
Qed.

Lemma abs_int_nonneg (v d : double) : Segment.abs_int v = Some d -> signbit d = false.
Proof.
  unfold Segment.abs_int, int_abs. intros H.
  destruct (trunc_to_int v) as [z|]; cbn [mbind option_bind] in H; [|discriminate H].
  destruct (z =? INT_MIN); cbn [mbind option_bind] in H; [discriminate H|].
  injection H as <-. apply of_int_nonneg. lia.
Qed.

(** X16: no length and no distance is ever negative, not even a negative
    zero: [length2] and [length] return a number without the sign bit, or
    NaN, and whenever [segmentDistance] returns, in either form, the value
    has no sign bit and does not compare below zero. *)
Theorem segmentDistance_nonneg (s : LineSegment) (p : Vec2) (u v : double) :
  signbit (Segment.length2 s) = false /\
  signbit (Segment.length s) = false /\
  (forall d, Segment.segmentDistance3 s p u v = Some d ->
     signbit d = false /\ (d <? zero)%D = false) /\
  (forall d, Segment.segmentDistance s p = Some d ->
     signbit d = false /\ (d <? zero)%D = false).
Proof.
  assert (H3 : forall u v d, Segment.segmentDistance3 s p u v = Some d ->
            signbit d = false).
  { intros u' v' d. unfold Segment.segmentDistance3.
    destruct (u' <? zero)%D; [intros [= <-]; apply vlength_nonneg|].
    destruct (one <? u')%D; [intros [= <-]; apply vlength_nonneg | apply abs_int_nonneg]. }
  split; [apply vlength2_nonneg|]. split; [apply vlength_nonneg|].
  split; intros d Hd; apply H3 in Hd; (split; [exact Hd | by apply signbit_not_ltb_zero]).
Qed.

Lemma segmentDistance_nonneg_witness :
  Segment.segmentDistance (seg 0 0 4 0) (pt 2 (-3)) = Some (of_int 3) /\
  signbit (of_int 3) = false /\ (of_int 3 <? zero)%D = false.
Proof.
  assert (H : Segment.segmentDistance (seg 0 0 4 0) (pt 2 (-3)) = Some (of_int 3))
    by (vm_compute; reflexivity).
  split; [exact H|].
  exact (proj2 (proj2 (proj2 (segmentDistance_nonneg (seg 0 0 4 0) (pt 2 (-3)) zero zero)))
           (of_int 3) H).
Defined.

(** ** Exact cases of the arithmetic *)

Lemma new_location_zero (n : Z) : new_location n 0 = loc_Exact.
Proof. unfold new_location. destruct (Z.even n); reflexivity. Qed.

Lemma div_self (s : bool) (m : positive) (e : Z) :
  (S754_finite s m e / S754_finite s m e)%D = one.
Proof.
  unfold div, SFdiv, SFdiv_core_binary. cbv zeta.
  replace (Zdigits2 (Zpos m) + e - (Zdigits2 (Zpos m) + e)) with 0 by lia.
  replace (e - e) with 0 by lia.
  change (Z.min (fexp prec emax 0) 0) with (-53).
  change (0 - -53) with 53. cbv iota.
  assert (Hq : Z.div_eucl (Z.shiftl (Zpos m) 53) (Zpos m) = (2 ^ 53, 0)).
  { rewrite Z.shiftl_mul_pow2 by lia.
    pose proof (Z.div_mul (2 ^ 53) (Zpos m) ltac:(lia)) as Hd.
    pose proof (Z.mod_mul (2 ^ 53) (Zpos m) ltac:(lia)) as Hm.
    rewrite (Z.mul_comm (2 ^ 53)) in Hd, Hm.
    unfold Z.div, Z.modulo in Hd, Hm.
    destruct (Z.div_eucl (Zpos m * 2 ^ 53) (Zpos m)) as [q r].
    congruence. }
  change (IntDef.Z.div_eucl (Z.shiftl (Zpos m) 53) (Zpos m))
    with (Z.div_eucl (Z.shiftl (Zpos m) 53) (Zpos m)).
  rewrite Hq, new_location_zero.
  destruct s; vm_compute; reflexivity.
Qed.

Lemma mul_one_l (x : double) : valid x = true -> (one * x)%D = x.
Proof.
  destruct x as [[|] | [|] | | s m e]; intros Hv; try reflexivity.
  unfold valid, valid_binary, bounded, canonical_mantissa in Hv.
  apply andb_true_iff in Hv as [Hc He].
  apply Z.eqb_eq in Hc. apply Z.leb_le in He.
  change one with (S754_finite false 4503599627370496 (-52)).
  unfold mul, SFmul. cbn [xorb].
  change (Pos.mul 4503599627370496 m) with (Pos.iter xO m 52).
  unfold binary_round_aux, shr_fexp. cbn [Zdigits2].
  rewrite digits2_pos_iter_xO.
  replace (Zpos (digits2_pos m + 52) + (-52 + e)) with (Zpos (digits2_pos m) + e) by lia.
  rewrite Hc.
  replace (e - (-52 + e)) with 52 by lia.
  change (shr (shr_record_of_loc (Zpos (Pos.iter xO m 52)) loc_Exact) (-52 + e) 52)
    with ({| shr_m := Zpos m; shr_r := false; shr_s := false |}, -52 + e + 52).
  cbn [shr_m loc_of_shr_record round_nearest_even shr_record_of_loc Zdigits2].
  replace (-52 + e + 52) with e by lia.
  rewrite Hc, Z.sub_diag. cbn [shr shr_m].
  destruct (Z.leb_spec e (emax - prec)); [reflexivity | lia].
Qed.

Lemma mul_comm (x y : double) : (x * y)%D = (y * x)%D.
Proof.
  destruct x as [sx | sx | | sx mx ex], y as [sy | sy | | sy my ey];
    try reflexivity; try (destruct sx, sy; reflexivity).
  change (binary_round_aux prec emax (xorb sx sy) (Zpos (mx * my)) (ex + ey) loc_Exact
          = binary_round_aux prec emax (xorb sy sx) (Zpos (my * mx)) (ey + ex) loc_Exact).
  rewrite (xorb_comm sx sy), (Pos.mul_comm mx my), (Z.add_comm ex ey). reflexivity.
Qed.

Lemma mul_one_r (x : double) : valid x = true -> (x * one)%D = x.
Proof. intros Hv. rewrite mul_comm. by apply mul_one_l. Qed.

Lemma binary_round_aux_opp (s : bool) (m e : Z) (l : location) :
  binary_round_aux prec emax (negb s) m e l = SFopp (binary_round_aux prec emax s m e l).
Proof.
  unfold binary_round_aux.
  destruct (shr_fexp prec emax m e l) as [mrs' e'].
  destruct (shr_fexp prec emax _ e' loc_Exact) as [mrs'' e''].
  destruct (shr_m mrs''); try reflexivity.
  destruct (e'' <=? emax - prec); reflexivity.
Qed.

Lemma mul_opp_r (x y : double) : (x * SFopp y)%D = SFopp (x * y)%D.
Proof.
  destruct x as [sx | sx | | sx mx ex], y as [sy | sy | | sy my ey];
    try reflexivity; try (destruct sx, sy; reflexivity).
  unfold mul, SFmul, SFopp at 1.
  destruct sx, sy; cbn [xorb negb].
  - apply (binary_round_aux_opp false).
  - apply (binary_round_aux_opp true).
  - apply (binary_round_aux_opp true).
  - apply (binary_round_aux_opp false).
Qed.

Lemma add_opp_diag (x : double) : is_finite x = true -> (SFopp x + x)%D = zero.
Proof.
  destruct x as [[|] | [|] | | s m e]; intros Hf; try discriminate Hf; try reflexivity.
  unfold add, SFadd, SFopp.
  destruct (shl_align m e (Z.min e e)) as [m' e'].
  cbn [fst].
  replace (cond_Zopp (negb s) (Zpos m') + cond_Zopp s (Zpos m')) with 0
    by (destruct s; cbn [cond_Zopp negb]; lia).
  reflexivity.
Qed.

Lemma sub_diag_finite (x : double) : is_finite x = true -> (x - x)%D = zero.
Proof.
  destruct x as [[|] | [|] | | s m e]; intros Hf; try discriminate Hf; try reflexivity.
  unfold sub, SFsub. rewrite Z.sub_diag. reflexivity.
Qed.

Lemma add_finite_inv (x y : double) :
  is_finite (x + y)%D = true -> is_finite x = true /\ is_finite y = true.
Proof.
  destruct x as [sx | sx | | sx mx ex], y as [sy | sy | | sy my ey];
    try (destruct sx, sy); cbn; intros H; try discriminate H; split; reflexivity.
Qed.

Lemma sub_finite_inv (x y : double) :
  is_finite (x - y)%D = true -> is_finite x = true /\ is_finite y = true.
Proof.
  destruct x as [sx | sx | | sx mx ex], y as [sy | sy | | sy my ey];
    try (destruct sx, sy); cbn; intros H; try discriminate H; split; reflexivity.
Qed.

Lemma mul_self_finite_inv (x : double) : is_finite (x * x)%D = true -> is_finite x = true.
Proof. destruct x as [s | s | | s m e]; cbn; intros H; try discriminate H; reflexivity. Qed.

Lemma mul_zero_finite (x : double) (s : bool) :
  is_finite x = true -> exists s', (x * S754_zero s)%D = S754_zero s'.
Proof.
  destruct x as [sx | sx | | sx mx ex]; intros Hf; try discriminate Hf;
    eexists; reflexivity.
Qed.

Lemma zero_mul_finite (x : double) (s : bool) :
  is_finite x = true -> exists s', (S754_zero s * x)%D = S754_zero s'.
Proof. intros Hf. rewrite mul_comm. by apply mul_zero_finite. Qed.

Lemma add_zeros (s1 s2 : bool) : exists s', (S754_zero s1 + S754_zero s2)%D = S754_zero s'.
Proof. destruct s1, s2; eexists; reflexivity. Qed.

Lemma zero_div_positive (d : double) (s : bool) :
  (zero <? d)%D = true -> exists s', (S754_zero s / d)%D = S754_zero s'.
Proof.
  destruct d as [sd | sd | | sd md ed]; intros H; try discriminate H;
    eexists; reflexivity.
Qed.

Lemma sqrt_positive_inv (x : double) : (zero <? sqrt x)%D = true -> (zero <? x)%D = true.
Proof.
  destruct x as [[|] | [|] | | [|] m e]; intros H; try discriminate H; reflexivity.
Qed.

Lemma length2_finite_direction (s : LineSegment) :
  is_finite (Segment.length2 s) = true ->
  is_finite (vx (Segment.direction s)) = true /\
  is_finite (vy (Segment.direction s)) = true /\
  is_finite (vx (start s)) = true /\ is_finite (vy (start s)) = true.
Proof.
  unfold Segment.length2, vlength2, dot. fold (Segment.direction s). intros H.
  apply add_finite_inv in H as [Hx Hy].
  apply mul_self_finite_inv in Hx. apply mul_self_finite_inv in Hy.
  split; [exact Hx|]. split; [exact Hy|].
  unfold Segment.direction, vsub in Hx, Hy. cbn [vx vy] in Hx, Hy.
  apply sub_finite_inv in Hx as [_ Hx]. apply sub_finite_inv in Hy as [_ Hy].
  split; assumption.
Qed.

(** ** LineSegment.hpp: the queries at the endpoints *)

Lemma lineParameter_start_zero (s : LineSegment) :
  is_finite (Segment.length2 s) = true -> (zero <? Segment.length2 s)%D = true ->
  exists s', Segment.lineParameter s (start s) = S754_zero s'.
Proof.
  intros Hf Hpos.
  destruct (length2_finite_direction s Hf) as (Hdx & Hdy & Hsx & Hsy).
  unfold Segment.lineParameter, dot, vsub at 2 4. cbn [vx vy].
  fold (Segment.direction s).
  rewrite (sub_diag_finite _ Hsx), (sub_diag_finite _ Hsy).
  change zero with (S754_zero false).
  destruct (mul_zero_finite _ false Hdx) as [s1 ->].
  destruct (mul_zero_finite _ false Hdy) as [s2 ->].
  destruct (add_zeros s1 s2) as [s3 ->].
  by apply zero_div_positive.
Qed.

Lemma lineParameter_end_one (s : LineSegment) :
  is_finite (Segment.length2 s) = true -> (zero <? Segment.length2 s)%D = true ->
  Segment.lineParameter s (end_ s) = one.
Proof.
  intros Hf Hpos. unfold Segment.lineParameter.
  change (dot (vsub (end_ s) (start s)) (vsub (end_ s) (start s)))
    with (Segment.length2 s).
  destruct (Segment.length2 s) as [sg | sg | | sg m e];
    try discriminate Hf; try discriminate Hpos.
  apply div_self.
Qed.

(** X17: on a segment whose squared length is a finite number above 0,
    [lineParameter] is exactly 1 at the end point and compares equal to 0
    at the start point. *)
Theorem lineParameter_endpoints (s : LineSegment) :
  is_finite (Segment.length2 s) = true -> (zero <? Segment.length2 s)%D = true ->
  Segment.lineParameter s (end_ s) = one /\
  SFeqb (Segment.lineParameter s (start s)) zero = true.
Proof.
  intros Hf Hpos. split.
  - by apply lineParameter_end_one.
  - destruct (lineParameter_start_zero s Hf Hpos) as [s' Hs].
    rewrite Hs. reflexivity.
Qed.

Lemma lineParameter_endpoints_witness :
  Segment.lineParameter (seg 1 2 4 6) (pt 4 6) = one /\
  SFeqb (Segment.lineParameter (seg 1 2 4 6) (pt 1 2)) zero = true.
Proof.
  apply (lineParameter_endpoints (seg 1 2 4 6)); vm_compute; reflexivity.
Defined.

Lemma direction_dot_perp (s : LineSegment) :
  is_finite (vx (Segment.direction s) * vy (Segment.direction s))%D = true ->
  dot (Segment.direction s) (Segment.perp s) = zero.
Proof.
  intros Hf. unfold Segment.perp, dot, vperp. cbn [vx vy].
  rewrite mul_opp_r, (mul_comm (vy (Segment.direction s))).
  by apply add_opp_diag.
Qed.

(** X18: both endpoints of a segment are at distance 0 from it:
    [segmentDistance] returns +0 at [start()] and at [end()], when the
    squared length is finite, the length is above 0 and the product of the
    two coordinates of the direction does not overflow. *)
Theorem segmentDistance_endpoints (s : LineSegment) :
  is_finite (Segment.length2 s) = true -> (zero <? Segment.length s)%D = true ->
  is_finite (vx (Segment.direction s) * vy (Segment.direction s))%D = true ->
  Segment.segmentDistance s (start s) = Some zero /\
  Segment.segmentDistance s (end_ s) = Some zero.
Proof.
  intros Hf Hlen Hxy.
  assert (Hpos : (zero <? Segment.length2 s)%D = true)
    by (by apply sqrt_positive_inv).
  destruct (length2_finite_direction s Hf) as (Hdx & Hdy & Hsx & Hsy).
  split.
  - unfold Segment.segmentDistance.
    destruct (lineParameter_start_zero s Hf Hpos) as [su ->].
    assert (Hv : exists sv, Segment.signedLineDistance s (start s) = S754_zero sv).
    { unfold Segment.signedLineDistance, dot, vsub, Segment.perp, vperp. cbn [vx vy].
      rewrite (sub_diag_finite _ Hsx), (sub_diag_finite _ Hsy).
      change zero with (S754_zero false).
      assert (Hndy : is_finite (SFopp (vy (Segment.direction s))) = true)
        by (destruct (vy (Segment.direction s)); done).
      destruct (zero_mul_finite _ false Hndy) as [s1 ->].
      destruct (zero_mul_finite _ false Hdx) as [s2 ->].
      destruct (add_zeros s1 s2) as [s3 ->].
      by apply zero_div_positive. }
    destruct Hv as [sv ->]. by destruct su, sv.
  - unfold Segment.segmentDistance.
    rewrite (lineParameter_end_one s Hf Hpos).
    unfold Segment.signedLineDistance.
    change (vsub (end_ s) (start s)) with (Segment.direction s).
    rewrite (direction_dot_perp s Hxy).
    destruct (zero_div_positive _ false Hlen) as [sv Hv].
    change (S754_zero false) with zero in Hv. rewrite Hv. by destruct sv.
Qed.

Lemma segmentDistance_endpoints_witness :
  Segment.segmentDistance (seg 1 2 4 6) (pt 1 2) = Some zero /\
  Segment.segmentDistance (seg 1 2 4 6) (pt 4 6) = Some zero.
Proof.
  apply (segmentDistance_endpoints (seg 1 2 4 6)); vm_compute; reflexivity.
Defined.

(** ** LineSegment.hpp: lerp at the ends of the interval *)

Lemma SFcompare_refl (x : double) : is_nan x = false -> SFcompare x x = Some Eq.
Proof.
  destruct x as [[|] | [|] | | [|] m e]; intros H; try discriminate H; try reflexivity.
  - cbn. rewrite Z.compare_refl.
    change (PosDef.Pos.compare_cont Eq m m) with (Pos.compare_cont Eq m m).
    rewrite Pos.compare_cont_refl. reflexivity.
  - cbn. rewrite Z.compare_refl.
    change (PosDef.Pos.compare_cont Eq m m) with (Pos.compare_cont Eq m m).
    rewrite Pos.compare_cont_refl. reflexivity.
Qed.

Lemma SFeqb_refl (x : double) : is_nan x = false -> SFeqb x x = true.
Proof. intros H. unfold SFeqb. rewrite SFcompare_refl by exact H. reflexivity. Qed.

Lemma leb_refl (x : double) : is_nan x = false -> (x <=? x)%D = true.
Proof. intros H. unfold leb, SFleb. rewrite SFcompare_refl by exact H. reflexivity. Qed.

Lemma add_zero_r_eqb (x : double) (s : bool) :
  is_nan x = false -> SFeqb (x + S754_zero s)%D x = true.
Proof.
  destruct x as [[|] | [|] | | sx m e]; intros H; try discriminate H;
    try (destruct s; reflexivity).
  change (S754_finite sx m e + S754_zero s)%D with (S754_finite sx m e).
  by apply SFeqb_refl.
Qed.

Lemma add_zero_l_eqb (x : double) (s : bool) :
  is_nan x = false -> SFeqb (S754_zero s + x)%D x = true.
Proof.
  destruct x as [[|] | [|] | | sx m e]; intros H; try discriminate H;
    try (destruct s; reflexivity).
  change (S754_zero s + S754_finite sx m e)%D with (S754_finite sx m e).
  by apply SFeqb_refl.
Qed.

Lemma is_finite_not_nan (x : double) : is_finite x = true -> is_nan x = false.
Proof. destruct x; intros H; try discriminate H; reflexivity. Qed.

Lemma lerp_coord_zero (x y : double) :
  valid x = true -> is_finite x = true -> is_finite y = true ->
  SFeqb ((one - zero) * x + zero * y)%D x = true.
Proof.
  intros Hv Hx Hy. change (one - zero)%D with one. rewrite (mul_one_l x Hv).
  destruct (zero_mul_finite y false Hy) as [s' E].
  change (S754_zero false) with zero in E. rewrite E.
  by apply add_zero_r_eqb, is_finite_not_nan.
Qed.

Lemma lerp_coord_one (x y : double) :
  is_finite x = true -> valid y = true -> is_finite y = true ->
  SFeqb ((one - one) * x + one * y)%D y = true.
Proof.
  intros Hx Hv Hy. change (one - one)%D with zero. rewrite (mul_one_l y Hv).
  destruct (zero_mul_finite x false Hx) as [s' E].
  change (S754_zero false) with zero in E. rewrite E.
  by apply add_zero_l_eqb, is_finite_not_nan.
Qed.

Lemma finiteVec_inv (a : Vec2) :
  finiteVec a = true ->
  valid (vx a) = true /\ valid (vy a) = true /\
  is_finite (vx a) = true /\ is_finite (vy a) = true.
Proof.
  unfold finiteVec. intros H.
  apply andb_true_iff in H as [H H4]. apply andb_true_iff in H as [H H3].
  apply andb_true_iff in H as [H1 H2]. auto.
Qed.

(** X19: between segments with finite coordinates [lerp] starts at the
    segment itself and ends at the target: at [t = 0] its endpoints compare
    equal ([operator ==] of Vec2) to those of the segment, at [t = 1] to
    those of the target. *)
Theorem lerp_endpoints (s target : LineSegment) :
  finiteVec (start s) = true -> finiteVec (end_ s) = true ->
  finiteVec (start target) = true -> finiteVec (end_ target) = true ->
  Algebra3.eqb (start (Segment.lerp s target zero)) (start s) = true /\
  Algebra3.eqb (end_ (Segment.lerp s target zero)) (end_ s) = true /\
  Algebra3.eqb (start (Segment.lerp s target one)) (start target) = true /\
  Algebra3.eqb (end_ (Segment.lerp s target one)) (end_ target) = true.
Proof.
  intros H1 H2 H3 H4.
  apply finiteVec_inv in H1 as (V1x & V1y & F1x & F1y).
  apply finiteVec_inv in H2 as (V2x & V2y & F2x & F2y).
  apply finiteVec_inv in H3 as (V3x & V3y & F3x & F3y).
  apply finiteVec_inv in H4 as (V4x & V4y & F4x & F4y).
  unfold Algebra3.eqb, Segment.lerp, vadd, vscale, vscale_r. cbn [start end_ vx vy].
  rewrite !lerp_coord_zero, !lerp_coord_one by assumption.
  repeat split.
Qed.

Lemma lerp_endpoints_witness :
  Algebra3.eqb (start (Segment.lerp (seg 0 0 2 0) (seg 1 1 5 7) zero)) (pt 0 0) = true /\
  Algebra3.eqb (end_ (Segment.lerp (seg 0 0 2 0) (seg 1 1 5 7) one)) (pt 5 7) = true.
Proof.
  assert (H1 : finiteVec (start (seg 0 0 2 0)) = true) by reflexivity.
  assert (H2 : finiteVec (end_ (seg 0 0 2 0)) = true) by reflexivity.
  assert (H3 : finiteVec (start (seg 1 1 5 7)) = true) by reflexivity.
  assert (H4 : finiteVec (end_ (seg 1 1 5 7)) = true) by reflexivity.
  pose proof (lerp_endpoints (seg 0 0 2 0) (seg 1 1 5 7) H1 H2 H3 H4)
    as (Ha & _ & _ & Hb).
  split; [exact Ha | exact Hb].
Defined.

(** ** Algebra3: perp, min and max *)

Lemma SFopp_involutive (x : double) : SFopp (SFopp x) = x.
Proof. destruct x as [s | s | | s m e]; cbn; rewrite ?negb_involutive; reflexivity. Qed.

Lemma mul_opp_opp (x : double) : (SFopp x * SFopp x)%D = (x * x)%D.
Proof.
  rewrite mul_opp_r, (mul_comm (SFopp x) x), mul_opp_r. apply SFopp_involutive.
Qed.

Lemma add_comm (x y : double) : (x + y)%D = (y + x)%D.
Proof.
  destruct x as [sx | sx | | sx mx ex], y as [sy | sy | | sy my ey];
    try reflexivity; try (destruct sx, sy; reflexivity).
  unfold add, SFadd. rewrite (Z.min_comm ey ex).
  f_equal. apply Z.add_comm.
Qed.

(** X20: [perp()] rotates by a quarter turn: applied twice it negates the
    vector, it keeps the squared length bit for bit, and the dot product of
    a vector with its [perp()] is +0 whenever the product of the two
    coordinates is finite. *)
Theorem perp_quarter_turn (a : Vec2) :
  vperp (vperp a) = Algebra3.neg a /\
  vlength2 (vperp a) = vlength2 a /\
  vlength (vperp a) = vlength a /\
  (is_finite (vx a * vy a)%D = true -> dot a (vperp a) = zero).
Proof.
  assert (H2 : vlength2 (vperp a) = vlength2 a).
  { unfold vlength2, dot, vperp. cbn [vx vy]. rewrite mul_opp_opp. apply add_comm. }
  split; [reflexivity|]. split; [exact H2|]. split.
  - unfold vlength. rewrite H2. reflexivity.
  - intros Hf. unfold dot, vperp. cbn [vx vy].
    rewrite mul_opp_r, (mul_comm (vy a)). by apply add_opp_diag.
Qed.

Lemma perp_quarter_turn_witness :
  dot (pt 3 4) (vperp (pt 3 4)) = zero /\ vlength (vperp (pt 3 4)) = of_int 5.
Proof.
  split.
  - apply (proj2 (proj2 (proj2 (perp_quarter_turn (pt 3 4))))). reflexivity.
  - rewrite (proj1 (proj2 (proj2 (perp_quarter_turn (pt 3 4))))). reflexivity.
Defined.

Lemma fmin_bounds (a b : double) :
  is_nan a = false -> is_nan b = false ->
  (Algebra3.fmin a b <=? a)%D = true /\ (Algebra3.fmin a b <=? b)%D = true.
Proof.
  intros Ha Hb. unfold Algebra3.fmin. destruct (b <? a)%D eqn:E.
  - split; [by apply ltb_leb_weak | by apply leb_refl].
  - split; [by apply leb_refl | by apply ltb_false_leb].
Qed.

Lemma fmax_bounds (a b : double) :
  is_nan a = false -> is_nan b = false ->
  (a <=? Algebra3.fmax a b)%D = true /\ (b <=? Algebra3.fmax a b)%D = true.
Proof.
  intros Ha Hb. unfold Algebra3.fmax. destruct (a <? b)%D eqn:E.
  - split; [by apply ltb_leb_weak | by apply leb_refl].
  - split; [by apply leb_refl | by apply ltb_false_leb].
Qed.

(** X21: without NaN, [min] is in each coordinate below both arguments
    and [max] above both, and each coordinate of the result is the
    coordinate of one of the arguments. *)
Theorem min_max_bounds (a b : Vec2) (c : Vec2 -> double) :
  c = vx \/ c = vy ->
  is_nan (c a) = false -> is_nan (c b) = false ->
  (c (Algebra3.min a b) <=? c a)%D = true /\ (c (Algebra3.min a b) <=? c b)%D = true /\
  (c a <=? c (Algebra3.max a b))%D = true /\ (c b <=? c (Algebra3.max a b))%D = true /\
  (c (Algebra3.min a b) = c a \/ c (Algebra3.min a b) = c b) /\
  (c (Algebra3.max a b) = c a \/ c (Algebra3.max a b) = c b).
Proof.
  intros Hc Ha Hb.
  assert (Hsel : forall x y, Algebra3.fmin x y = x \/ Algebra3.fmin x y = y)
    by (intros x y; unfold Algebra3.fmin; destruct (y <? x)%D; auto).
  assert (Hsel' : forall x y, Algebra3.fmax x y = x \/ Algebra3.fmax x y = y)
    by (intros x y; unfold Algebra3.fmax; destruct (x <? y)%D; auto).
  destruct Hc as [-> | ->]; cbn [Algebra3.min Algebra3.max vx vy];
    destruct (fmin_bounds _ _ Ha Hb), (fmax_bounds _ _ Ha Hb); auto 10.
Qed.

Lemma min_max_bounds_witness :
  (vx (Algebra3.min (pt 3 (-4)) (pt 1 7)) <=? vx (pt 3 (-4)))%D = true /\
  Algebra3.min (pt 3 (-4)) (pt 1 7) = pt 1 (-4) /\
  Algebra3.max (pt 3 (-4)) (pt 1 7) = pt 3 7.
Proof.
  split; [|split; reflexivity].
  apply (min_max_bounds (pt 3 (-4)) (pt 1 7) vx); [left | |]; reflexivity.
Defined.

(** X22: with a NaN among the coordinates [min] and [max] are not
    symmetric: each returns the coordinate of its first argument, so NaN
    is kept when it comes first and dropped when it comes second. *)
Theorem min_max_nan (a : Vec2) :
  Algebra3.min a nanVec = a /\ Algebra3.max a nanVec = a /\
  Algebra3.min nanVec a = nanVec /\ Algebra3.max nanVec a = nanVec.
Proof.
  unfold Algebra3.min, Algebra3.max, Algebra3.fmin, Algebra3.fmax, nanVec.
  cbn [vx vy].
  assert (H1 : forall x, (nan <? x)%D = false) by (intros x; reflexivity).
  assert (H2 : forall x, (x <? nan)%D = false) by (intros x; destruct x; reflexivity).
  rewrite !H1, !H2. destruct a. repeat split.
Qed.

(** ** Image.cpp: each pixel of the warped image *)

Lemma distortImage_pixel_inv (pow : double -> double -> double) (image : Image)
    (seg_start seg_end : list LineSegment) (t a b p : double) (result : Image)
    (row col ch : Z) :
  image_wf image ->
  distortImage pow image seg_start seg_end t a b p = Some result ->
  0 <= row < height image -> 0 <= col < width image -> 0 <= ch < numChannels image ->
  exists interpolated sample,
    finalSource pow seg_start seg_end (mkVec2 (of_int col) (of_int row)) t a b p
    = Some interpolated /\
    sampleBilinear image interpolated = Some sample /\
    pixel result row col ch = sample !! Z.to_nat ch.
Proof.
  intros Hwf H Hr Hc Hch.
  pose proof (wf_width image Hwf) as [Hw0 _]. pose proof (wf_height image Hwf) as [Hh0 _].
  pose proof (wf_channels image Hwf) as [Hn0 _].
  unfold distortImage in H.
  destruct (negb _); [discriminate H|].
  destruct (scanPixels _ _ _) as [buf|] eqn:Hscan; [|discriminate H].
  cbn in H. injection H as <-.
  apply scanPixels_Some_inv in Hscan as (g & Hg & ->).
  assert (Hpix : forall r c, 0 <= r < height image -> 0 <= c < width image ->
            exists interpolated sample,
              finalSource pow seg_start seg_end (mkVec2 (of_int c) (of_int r)) t a b p
              = Some interpolated /\
              sampleBilinear image interpolated = Some sample /\
              g r c = take (Z.to_nat (numChannels image)) sample /\
              List.length sample = 4%nat /\ numChannels image <= 4).
  { intros r c Hr' Hc'. specialize (Hg r c Hr' Hc').
    apply distortPixel_Some_inv in Hg as (src & sample & Ef & Es & Eg).
    destruct (sampleBilinear_bytes _ _ _ Hn0 Es) as (Hle & Hl & Hb).
    exists src, sample. repeat split; done. }
  destruct (Hpix row col Hr Hc) as (src & sample & Ef & Es & Eg & Hl & Hle).
  exists src, sample. split; [exact Ef|]. split; [exact Es|].
  assert (Hlen : forall r c, 0 <= r < height image -> 0 <= c < width image ->
            List.length (g r c) = Z.to_nat (numChannels image)).
  { intros r c Hr' Hc'. destruct (Hpix r c Hr' Hc') as (? & s' & _ & _ & -> & Hl' & Hle').
    rewrite length_take. lia. }
  destruct (scan_buffer_pixel g (width image) (height image) (numChannels image) row col)
    as (rest & Hrest); try done.
  assert (0 <= row * width image + col) by nia.
  rewrite pixel_lookup by (cbn [width numChannels]; nia).
  cbn [width height numChannels data]. rewrite Hrest.
  rewrite lookup_app_l by (rewrite Hlen by done; lia).
  rewrite Eg. apply lookup_take_lt. lia.
Qed.

(** ** Image.cpp: the sampler truncates *)

(** X25: the sampler does not reproduce a constant image: the weights
    are rounded and the sum is floored, not rounded, so on the 2x2 image
    whose bytes are all 41 the sample at (0.1, 0.1) is 40. *)
Theorem sampleBilinear_constant_image_darkens :
  exists (image : Image) (loc : Vec2),
    image_wf image /\ width image = 2 /\ height image = 2 /\
    Forall (fun b => b = 41) (data image) /\
    (zero <=? vx loc)%D = true /\ (vx loc <=? one)%D = true /\
    (zero <=? vy loc)%D = true /\ (vy loc <=? one)%D = true /\
    sampleBilinear image loc = Some [40; 0; 0; 0].
Proof.
  exists (mkImage 2 2 1 [41; 41; 41; 41]),
         (mkVec2 (one / of_int 10)%D (one / of_int 10)%D).
  split.
  { split; cbn; unfold INT_MAX; try lia. repeat constructor; lia. }
  repeat split; try (vm_compute; reflexivity).
  repeat constructor.
Qed.

(** ** Image.cpp: the sampler stays within defined behaviour

    The weights of the four lattice points are differences between a
    coordinate and its floor or the floor plus one; each is at least 0 and,
    after rounding, at most 2, so the weighted sum stays far below the
    range of [int]. *)

Lemma pow2_cancel (e : Z) : (powerRZ 2 (- e) * powerRZ 2 e = 1)%R.
Proof. rewrite <- pow2_add. replace (- e + e) with 0 by lia. reflexivity. Qed.

Lemma floorZ_bounds (x : double) (c : Z) :
  floorZ x = Some c -> (IZR c <= B2R x < IZR c + 1)%R.
Proof.
  destruct x as [s | s | | s m e]; cbn [floorZ B2R]; intros H; try discriminate H.
  - injection H as <-. lra.
  - injection H as <-.
    set (M := cond_Zopp s (Zpos m)).
    destruct (Z.le_gt_cases 0 e) as [He | He].
    + rewrite Z.shiftl_mul_pow2 by lia.
      rewrite mult_IZR, <- pow2_IZR by lia. lra.
    + rewrite Z.shiftl_div_pow2 by lia.
      assert (H2 : 0 < 2 ^ (- e)) by (apply Z.pow_pos_nonneg; lia).
      pose proof (Z.div_mod M (2 ^ (- e)) ltac:(lia)) as Hdm.
      pose proof (Z.mod_pos_bound M (2 ^ (- e)) H2) as Hr.
      set (q := M / 2 ^ (- e)) in *. set (r := M mod 2 ^ (- e)) in *.
      assert (HM : (IZR M = IZR q * powerRZ 2 (- e) + IZR r)%R).
      { rewrite Hdm, plus_IZR, mult_IZR, <- pow2_IZR by lia. ring. }
      assert (Hr0 : (0 <= IZR r)%R) by (apply IZR_le; lia).
      assert (Hr1 : (IZR r < powerRZ 2 (- e))%R)
        by (rewrite pow2_IZR by lia; apply IZR_lt; lia).
      pose proof (pow2_cancel e) as E. pose proof (pow2_pos e) as Hp.
      pose proof (pow2_pos (- e)) as Hp'.
      rewrite HM.
      replace ((IZR q * powerRZ 2 (- e) + IZR r) * powerRZ 2 e)%R
        with (IZR q * (powerRZ 2 (- e) * powerRZ 2 e) + IZR r * powerRZ 2 e)%R by ring.
      rewrite E.
      assert (0 <= IZR r * powerRZ 2 e)%R by nra.
      assert (IZR r * powerRZ 2 e < powerRZ 2 (- e) * powerRZ 2 e)%R by nra.
      lra.
Qed.

Lemma floorZ_finite (x : double) (c : Z) : floorZ x = Some c -> is_finite x = true.
Proof. destruct x; cbn; intros H; try discriminate H; reflexivity. Qed.

Lemma shl_align_snd (m : positive) (e ez : Z) : ez <= e -> snd (shl_align m e ez) = ez.
Proof. intros H. unfold shl_align. destruct (ez - e) eqn:E; cbn; lia. Qed.

Lemma shl_align_signed (s : bool) (m : positive) (e ez : Z) :
  ez <= e ->
  (IZR (cond_Zopp s (Zpos (fst (shl_align m e ez)))) * powerRZ 2 ez
   = IZR (cond_Zopp s (Zpos m)) * powerRZ 2 e)%R.
Proof.
  intros H. pose proof (shl_align_spec m e ez) as [_ Hv].
  rewrite (shl_align_snd m e ez H) in Hv.
  destruct s; cbn [cond_Zopp].
  - change (Zneg (fst (shl_align m e ez))) with (- Zpos (fst (shl_align m e ez))).
    change (Zneg m) with (- Zpos m). rewrite !opp_IZR. lra.
  - exact Hv.
Qed.

Lemma sub_finite_upper (sa : bool) (ma : positive) (ea : Z)
    (sb : bool) (mb : positive) (eb : Z) (B : Z) :
  Z.min ea eb <= 0 -> 0 <= B <= 52 ->
  (0 <= B2R (S754_finite sa ma ea) - B2R (S754_finite sb mb eb) < powerRZ 2 B)%R ->
  nonneg_small (S754_finite sa ma ea - S754_finite sb mb eb)%D /\
  (B2R (S754_finite sa ma ea - S754_finite sb mb eb)%D
   <= B2R (S754_finite sa ma ea) - B2R (S754_finite sb mb eb) + powerRZ 2 (B - 53))%R.
Proof.
  intros He HB Hval. pose proof (pow2_pos (B - 53)) as Hp.
  unfold sub, SFsub. cbn [B2R] in *.
  pose proof (shl_align_signed sa ma ea (Z.min ea eb) ltac:(lia)) as Ha.
  pose proof (shl_align_signed sb mb eb (Z.min ea eb) ltac:(lia)) as Hb.
  set (A := cond_Zopp sa (Zpos (fst (shl_align ma ea (Z.min ea eb))))) in *.
  set (Bm := cond_Zopp sb (Zpos (fst (shl_align mb eb (Z.min ea eb))))) in *.
  set (ez := Z.min ea eb) in *.
  pose proof (pow2_pos ez) as Hpz.
  assert (Hdiff : (IZR (A - Bm) * powerRZ 2 ez
                   = IZR (cond_Zopp sa (Zpos ma)) * powerRZ 2 ea
                     - IZR (cond_Zopp sb (Zpos mb)) * powerRZ 2 eb)%R).
  { rewrite minus_IZR. lra. }
  destruct (A - Bm) as [|d|d] eqn:Ed.
  - cbn [binary_normalize nonneg_small B2R]. split; [done|]. lra.
  - cbn [binary_normalize]. rewrite <- Hdiff.
    apply binary_round_upper; [lia | lia |]. rewrite Hdiff. lra.
  - exfalso. assert (IZR (Zneg d) < 0)%R by (apply IZR_lt; lia). nra.
Qed.

Lemma B2R_of_int_exact (z : Z) : Z.abs z < 2 ^ 52 -> B2R (of_int z) = IZR z.
Proof.
  intros Hz. destruct (Z.eq_dec z 0) as [-> | Hnz]; [reflexivity|].
  destruct (of_int_nonzero z Hnz Hz) as (m & k & -> & Hm & _ & _).
  cbn [B2R]. rewrite Hm, mult_IZR, <- pow2_IZR by lia.
  pose proof (pow2_cancel (- Zpos k)) as E. rewrite Z.opp_involutive in E.
  rewrite Rmult_assoc, E. lra.
Qed.

Lemma valid_small_exp (s : bool) (m : positive) (e : Z) :
  valid (S754_finite s m e) = true ->
  (IZR (Zpos m) * powerRZ 2 e < powerRZ 2 53)%R -> e <= 0.
Proof.
  intros Hv Hlt.
  unfold valid, valid_binary, bounded, canonical_mantissa, fexp, emin, prec, emax in Hv.
  apply andb_true_iff in Hv as [Hc _]. apply Z.eqb_eq in Hc.
  destruct (Z.le_gt_cases e 0) as [He | He]; [exact He | exfalso].
  assert (Hd : Zpos (digits2_pos m) = 53) by lia.
  pose proof (digits2_pos_bounds m) as [Hlo _]. rewrite Hd in Hlo.
  change (2 ^ (53 - 1)) with (2 ^ 52) in Hlo.
  apply IZR_le in Hlo. rewrite <- pow2_IZR in Hlo by lia.
  pose proof (pow2_le 53 (52 + e) ltac:(lia)) as Hle.
  rewrite pow2_add in Hle.
  pose proof (pow2_pos e). pose proof (pow2_pos 52). nra.
Qed.

Lemma pow2_nonpos (k : Z) : k <= 0 -> (powerRZ 2 k <= 1)%R.
Proof. intros H. pose proof (pow2_le k 0 H) as Hle. exact Hle. Qed.

Lemma pow2_1 : powerRZ 2 1 = 2%R.
Proof. rewrite pow2_IZR by lia. reflexivity. Qed.

Lemma pow2_53_gt : (2 < powerRZ 2 53)%R.
Proof.
  pose proof (pow2_le 2 53 ltac:(lia)) as H.
  rewrite (pow2_IZR 2) in H by lia. change (2 ^ 2) with 4 in H. lra.
Qed.

Lemma weight_upper_hi (x : double) (c : Z) :
  valid x = true -> floorZ x = Some c -> Z.abs (c + 1) < 2 ^ 52 ->
  nonneg_small (of_int (c + 1) - x)%D /\ (B2R (of_int (c + 1) - x)%D <= 2)%R.
Proof.
  intros Hv Hf Hc. pose proof (floorZ_bounds x c Hf) as [Hlo Hhi].
  destruct x as [s | s | | s m e]; try discriminate Hf.
  - cbn in Hf. injection Hf as <-.
    change (of_int (0 + 1) - S754_zero s)%D with one.
    rewrite B2R_one. split; [change (-52 <= 0); lia | lra].
  - destruct (Z.eq_dec (c + 1) 0) as [E0 | Hnz].
    + rewrite E0. change (of_int 0 - S754_finite s m e)%D with (S754_finite (negb s) m e).
      assert (Ec : IZR c = (-1)%R) by (replace c with (-1) by lia; reflexivity).
      rewrite Ec in *. cbn [B2R] in Hlo, Hhi.
      pose proof (pow2_pos e) as Hp.
      assert (Hm : (0 < IZR (Zpos m))%R) by (apply IZR_lt; lia).
      destruct s; cbn [cond_Zopp negb] in *.
      * change (Zneg m) with (- Zpos m) in Hlo, Hhi. rewrite opp_IZR in Hlo, Hhi.
        cbn [nonneg_small B2R cond_Zopp]. split; [|lra].
        apply (valid_small_exp true m e Hv). pose proof pow2_53_gt. lra.
      * exfalso. nra.
    + destruct (of_int_nonzero (c + 1) Hnz Hc) as (m' & k & Eq & Hm' & _ & _).
      pose proof (B2R_of_int_exact (c + 1) Hc) as Hval. rewrite Eq in *.
      rewrite plus_IZR in Hval.
      destruct (sub_finite_upper (c + 1 <? 0) m' (- Zpos k) s m e 1) as [Hn Hb];
        [lia | lia | rewrite Hval, pow2_1; lra |].
      split; [exact Hn|].
      pose proof (pow2_nonpos (1 - 53) ltac:(lia)). lra.
Qed.

Lemma weight_upper_lo (x : double) (c : Z) :
  valid x = true -> floorZ x = Some c -> Z.abs c < 2 ^ 52 ->
  nonneg_small (x - of_int c)%D /\ (B2R (x - of_int c)%D <= 2)%R.
Proof.
  intros Hv Hf Hc. pose proof (floorZ_bounds x c Hf) as [Hlo Hhi].
  destruct x as [s | s | | s m e]; try discriminate Hf.
  - cbn in Hf. injection Hf as <-.
    destruct s; cbn; split; (done || lra).
  - destruct (Z.eq_dec c 0) as [E0 | Hnz].
    + rewrite E0 in *. change (S754_finite s m e - of_int 0)%D with (S754_finite s m e).
      cbn [B2R] in Hlo, Hhi.
      pose proof (pow2_pos e) as Hp.
      assert (Hm : (0 < IZR (Zpos m))%R) by (apply IZR_lt; lia).
      destruct s; cbn [cond_Zopp] in *.
      * exfalso. change (Zneg m) with (- Zpos m) in Hlo. rewrite opp_IZR in Hlo. nra.
      * cbn [nonneg_small B2R cond_Zopp]. split; [|lra].
        apply (valid_small_exp false m e Hv). pose proof pow2_53_gt. lra.
    + destruct (of_int_nonzero c Hnz Hc) as (m' & k & Eq & Hm' & _ & _).
      pose proof (B2R_of_int_exact c Hc) as Hval. rewrite Eq in *.
      destruct (sub_finite_upper s m e (c <? 0) m' (- Zpos k) 1) as [Hn Hb];
        [lia | lia | rewrite Hval, pow2_1; lra |].
      split; [exact Hn|].
      pose proof (pow2_nonpos (1 - 53) ltac:(lia)). lra.
Qed.

Lemma pow2_10 : powerRZ 2 10 = 1024%R.
Proof. rewrite pow2_IZR by lia. reflexivity. Qed.

Lemma pow2_11 : powerRZ 2 11 = 2048%R.
Proof. rewrite pow2_IZR by lia. reflexivity. Qed.

Lemma pow2_12 : powerRZ 2 12 = 4096%R.
Proof. rewrite pow2_IZR by lia. reflexivity. Qed.

Lemma term_upper (p : Z) (w1 w2 : double) :
  0 <= p <= 255 ->
  nonneg_small w1 -> (B2R w1 <= 2)%R -> nonneg_small w2 -> (B2R w2 <= 2)%R ->
  nonneg_small (of_int p * w1 * w2)%D /\ (B2R (of_int p * w1 * w2)%D <= 1023)%R.
Proof.
  intros Hp H1 B1 H2 B2.
  destruct (B2R_of_int p Hp) as [Hn Hv].
  pose proof (nonneg_small_B2R _ H1) as P1. pose proof (nonneg_small_B2R _ H2) as P2.
  assert (Hpr : (0 <= IZR p <= 255)%R) by (split; apply IZR_le; lia).
  assert (Hprod : (B2R (of_int p) * B2R w1 <= 510)%R) by (rewrite Hv; nra).
  destruct (mul_upper (of_int p) w1 9 Hn H1 ltac:(lia)) as [Hn1 Hb1].
  { rewrite pow2_9. lra. }
  pose proof (pow2_nonpos (9 - 53) ltac:(lia)) as S1.
  pose proof (nonneg_small_B2R _ Hn1) as P3.
  assert (Hprod2 : (B2R (of_int p * w1)%D * B2R w2 <= 1022)%R) by nra.
  destruct (mul_upper (of_int p * w1)%D w2 10 Hn1 H2 ltac:(lia)) as [Hn2 Hb2].
  { rewrite pow2_10. lra. }
  pose proof (pow2_nonpos (10 - 53) ltac:(lia)) as S2.
  split; [exact Hn2 | lra].
Qed.

Lemma floorZ_nonneg_bound (z : double) (N : Z) :
  nonneg_small z -> (B2R z < IZR N)%R ->
  exists k, floorZ z = Some k /\ 0 <= k < N.
Proof.
  intros Hz Hlt. pose proof (nonneg_small_B2R z Hz) as H0.
  destruct (floorZ z) as [k|] eqn:E.
  - pose proof (floorZ_bounds z k E) as [Hlo Hhi].
    exists k. split; [reflexivity|]. split.
    + assert (IZR (-1) < IZR k)%R by (change (IZR (-1)) with (-1)%R; lra).
      apply lt_IZR in H. lia.
    + apply lt_IZR. lra.
  - destruct z as [s | s | | [|] m e]; try done.
Qed.

Lemma weighted_sum_clamp (p00 p01 p10 p11 : Z) (a1 a0 b1 b0 : double) :
  0 <= p00 <= 255 -> 0 <= p01 <= 255 -> 0 <= p10 <= 255 -> 0 <= p11 <= 255 ->
  nonneg_small a1 -> (B2R a1 <= 2)%R -> nonneg_small a0 -> (B2R a0 <= 2)%R ->
  nonneg_small b1 -> (B2R b1 <= 2)%R -> nonneg_small b0 -> (B2R b0 <= 2)%R ->
  exists k,
    clampByte (zero + of_int p00 * a1 * b1 + of_int p01 * a1 * b0
               + of_int p10 * a0 * b1 + of_int p11 * a0 * b0)%D = Some k.
Proof.
  intros H00 H01 H10 H11 Na1 Ba1 Na0 Ba0 Nb1 Bb1 Nb0 Bb0.
  destruct (term_upper p00 a1 b1 H00 Na1 Ba1 Nb1 Bb1) as [N1 U1].
  destruct (term_upper p01 a1 b0 H01 Na1 Ba1 Nb0 Bb0) as [N2 U2].
  destruct (term_upper p10 a0 b1 H10 Na0 Ba0 Nb1 Bb1) as [N3 U3].
  destruct (term_upper p11 a0 b0 H11 Na0 Ba0 Nb0 Bb0) as [N4 U4].
  assert (Nz : nonneg_small zero) by exact I.
  assert (Bz : B2R zero = 0%R) by reflexivity.
  destruct (add_upper zero (of_int p00 * a1 * b1)%D 10 Nz N1 ltac:(lia)) as [M1 V1].
  { rewrite pow2_10. lra. }
  pose proof (pow2_nonpos (10 - 53) ltac:(lia)) as S1.
  destruct (add_upper _ (of_int p01 * a1 * b0)%D 11 M1 N2 ltac:(lia)) as [M2 V2].
  { rewrite pow2_11. lra. }
  pose proof (pow2_nonpos (11 - 53) ltac:(lia)) as S2.
  destruct (add_upper _ (of_int p10 * a0 * b1)%D 12 M2 N3 ltac:(lia)) as [M3 V3].
  { rewrite pow2_12. lra. }
  pose proof (pow2_nonpos (12 - 53) ltac:(lia)) as S3.
  destruct (add_upper _ (of_int p11 * a0 * b0)%D 12 M3 N4 ltac:(lia)) as [M4 V4].
  { rewrite pow2_12. lra. }
  destruct (floorZ_nonneg_bound _ 4097 M4) as (k & Hk & Hr).
  { lra. }
  exists (Z.min 255 (Z.max 0 k)).
  unfold clampByte, floor_to_int. rewrite Hk.
  assert (Hin : in_int k = true).
  { unfold in_int, INT_MIN, INT_MAX. apply andb_true_iff. split; apply Z.leb_le; lia. }
  rewrite Hin. reflexivity.
Qed.

Lemma sampleChannel_defined (image : Image) (loc : Vec2) (col0 row0 ch : Z) :
  image_wf image -> 1 <= width image -> 1 <= height image ->
  valid (vx loc) = true -> valid (vy loc) = true ->
  floorZ (vx loc) = Some col0 -> floorZ (vy loc) = Some row0 ->
  INT_MIN <= col0 < INT_MAX -> INT_MIN <= row0 < INT_MAX ->
  0 <= ch < numChannels image ->
  exists k, sampleChannel image loc col0 (col0 + 1) row0 (row0 + 1) ch = Some k.
Proof.
  intros Hwf Hw Hh Vx Vy Fx Fy Cx Cy Hch.
  unfold sampleChannel.
  pose proof (sanitize_in_bounds (width image) (height image) col0 row0 Hw Hh)
    as [[Hr0 Hr1] [Hc0 Hc1]].
  set (L := sanitize (width image) (height image) col0 row0) in *.
  destruct (pixel_in_bounds image (pr0 L) (pc0 L) ch) as (p00 & E00 & B00); [done | lia | lia | done |].
  destruct (pixel_in_bounds image (pr0 L) (pc1 L) ch) as (p01 & E01 & B01); [done | lia | lia | done |].
  destruct (pixel_in_bounds image (pr1 L) (pc0 L) ch) as (p10 & E10 & B10); [done | lia | lia | done |].
  destruct (pixel_in_bounds image (pr1 L) (pc1 L) ch) as (p11 & E11 & B11); [done | lia | lia | done |].
  rewrite E00, E01, E10, E11. cbn [mbind option_bind].
  unfold INT_MIN, INT_MAX in Cx, Cy.
  destruct (weight_upper_hi (vx loc) col0 Vx Fx) as [Na1 Ba1]; [lia|].
  destruct (weight_upper_lo (vx loc) col0 Vx Fx) as [Na0 Ba0]; [lia|].
  destruct (weight_upper_hi (vy loc) row0 Vy Fy) as [Nb1 Bb1]; [lia|].
  destruct (weight_upper_lo (vy loc) row0 Vy Fy) as [Nb0 Bb0]; [lia|].
  unfold bilinearSum.
  apply weighted_sum_clamp; assumption.
Qed.

Lemma floor_to_int_Some (x : double) (c : Z) :
  floor_to_int x = Some c <-> floorZ x = Some c /\ INT_MIN <= c <= INT_MAX.
Proof.
  unfold floor_to_int, in_int. destruct (floorZ x) as [z|]; [|split; [discriminate | intros [H _]; discriminate H]].
  destruct (Z.leb_spec INT_MIN z), (Z.leb_spec z INT_MAX); cbn; split;
    try (intros [= <-]; split; [reflexivity | lia]);
    try (intros [[= <-] Hr]; (reflexivity || lia)); try discriminate.
Qed.

Lemma int_add_Some (a b c : Z) :
  int_add a b = Some c <-> c = a + b /\ INT_MIN <= a + b <= INT_MAX.
Proof.
  unfold int_add, in_int.
  destruct (Z.leb_spec INT_MIN (a + b)), (Z.leb_spec (a + b) INT_MAX); cbn; split;
    try (intros [= <-]; split; [reflexivity | lia]);
    try (intros [-> Hr]; (reflexivity || lia)); try discriminate.
Qed.

Lemma sampleBilinear_defined (image : Image) (loc : Vec2) (col0 row0 : Z) :
  image_wf image -> 1 <= width image -> 1 <= height image -> numChannels image <= 4 ->
  valid (vx loc) = true -> valid (vy loc) = true ->
  floorZ (vx loc) = Some col0 -> floorZ (vy loc) = Some row0 ->
  INT_MIN <= col0 < INT_MAX -> INT_MIN <= row0 < INT_MAX ->
  is_Some (sampleBilinear image loc).
Proof.
  intros Hwf Hw Hh Hn Vx Vy Fx Fy Cx Cy. unfold sampleBilinear.
  rewrite (proj2 (floor_to_int_Some (vx loc) col0)) by (split; [done | lia]).
  cbn [mbind option_bind]. rewrite int_add_succ by done. cbn [mbind option_bind].
  rewrite (proj2 (floor_to_int_Some (vy loc) row0)) by (split; [done | lia]).
  cbn [mbind option_bind]. rewrite int_add_succ by done. cbn [mbind option_bind].
  assert (Hm : is_Some (mapM (sampleChannel image loc col0 (col0 + 1) row0 (row0 + 1))
                          (seqZ 0 (numChannels image)))).
  { apply mapM_is_Some, Forall_forall. intros ch Hch. apply elem_of_seqZ in Hch.
    destruct (sampleChannel_defined image loc col0 row0 ch) as [k Hk]; try done; try lia.
    cbn. rewrite Hk. eauto. }
  destruct Hm as [chans ->]. cbn [mbind option_bind].
  destruct (Z.ltb_spec 4 (numChannels image)); [lia | eauto].
Qed.

(** X26: on a well-formed image with at least one pixel and at most 4
    channels, [sampleBilinear] stays within defined behaviour exactly when
    both coordinates are finite and their floors, and the floors plus one,
    fit an [int]; then no conversion to [int] is out of range, whatever the
    bytes of the image. *)
Theorem sampleBilinear_defined_iff (image : Image) (loc : Vec2) :
  image_wf image -> 1 <= width image -> 1 <= height image -> numChannels image <= 4 ->
  valid (vx loc) = true -> valid (vy loc) = true ->
  (is_Some (sampleBilinear image loc) <->
   exists col0 row0,
     floorZ (vx loc) = Some col0 /\ floorZ (vy loc) = Some row0 /\
     INT_MIN <= col0 < INT_MAX /\ INT_MIN <= row0 < INT_MAX).
Proof.
  intros Hwf Hw Hh Hn Vx Vy. split.
  - intros [sc H]. unfold sampleBilinear in H.
    destruct (floor_to_int (vx loc)) as [col0|] eqn:Ex; [|discriminate H].
    cbn [mbind option_bind] in H.
    destruct (int_add col0 1) as [col1|] eqn:Ex1; [|discriminate H].
    cbn [mbind option_bind] in H.
    destruct (floor_to_int (vy loc)) as [row0|] eqn:Ey; [|discriminate H].
    cbn [mbind option_bind] in H.
    destruct (int_add row0 1) as [row1|] eqn:Ey1; [|discriminate H].
    apply floor_to_int_Some in Ex as [Fx Rx]. apply floor_to_int_Some in Ey as [Fy Ry].
    apply int_add_Some in Ex1 as [_ Rx1]. apply int_add_Some in Ey1 as [_ Ry1].
    exists col0, row0. repeat split; (done || lia).
  - intros (col0 & row0 & Fx & Fy & Cx & Cy).
    by eapply sampleBilinear_defined.
Qed.

Lemma sampleBilinear_defined_iff_witness :
  is_Some (sampleBilinear img_2x2 (mkVec2 one_half one_half)) /\
  exists col0 row0,
    floorZ one_half = Some col0 /\ floorZ one_half = Some row0 /\
    INT_MIN <= col0 < INT_MAX /\ INT_MIN <= row0 < INT_MAX.
Proof.
  assert (Hw : 1 <= width img_2x2) by (cbn; lia).
  assert (Hh : 1 <= height img_2x2) by (cbn; lia).
  assert (Hn : numChannels img_2x2 <= 4) by (cbn; lia).
  assert (Vx : valid (vx (mkVec2 one_half one_half)) = true) by reflexivity.
  assert (Vy : valid (vy (mkVec2 one_half one_half)) = true) by reflexivity.
  assert (H : is_Some (sampleBilinear img_2x2 (mkVec2 one_half one_half)))
    by (vm_compute; eauto).
  split; [exact H|].
  exact (proj1 (sampleBilinear_defined_iff img_2x2 (mkVec2 one_half one_half)
                  img_2x2_wf Hw Hh Hn Vx Vy) H).
Defined.

(** X27: [distortImage] returns, with a well-formed result of the same
    dimensions, whenever the feature lists have the same length, the image
    has at most 4 channels and for every pixel the source location is
    computed within defined behaviour and has finite coordinates whose
    floors, and the floors plus one, fit an [int]. *)
Theorem distortImage_defined (pow : double -> double -> double) (image : Image)
    (seg_start seg_end : list LineSegment) (t a b p : double) :
  image_wf image -> numChannels image <= 4 ->
  List.length seg_start = List.length seg_end ->
  (forall row col, 0 <= row < height image -> 0 <= col < width image ->
     exists src,
       finalSource pow seg_start seg_end (mkVec2 (of_int col) (of_int row)) t a b p
       = Some src /\
       valid (vx src) = true /\ valid (vy src) = true /\
       exists col0 row0,
         floorZ (vx src) = Some col0 /\ floorZ (vy src) = Some row0 /\
         INT_MIN <= col0 < INT_MAX /\ INT_MIN <= row0 < INT_MAX) ->
  exists result,
    distortImage pow image seg_start seg_end t a b p = Some result /\
    image_wf result /\ hasSameDimsAs image result = true.
Proof.
  intros Hwf Hn Hlen Hsrc.
  assert (Hd : is_Some (distortImage pow image seg_start seg_end t a b p)).
  { unfold distortImage. rewrite Hlen, Nat.eqb_refl. cbn [negb].
    rewrite (scanPixels_total _ _ _
               (fun row col => default [] (distortPixel pow image seg_start seg_end t a b p row col))).
    - cbn. eauto.
    - intros row col Hr Hc.
      destruct (Hsrc row col Hr Hc) as (src & Ef & Vx & Vy & col0 & row0 & Fx & Fy & Cx & Cy).
      destruct (sampleBilinear_defined image _ col0 row0 Hwf ltac:(lia) ltac:(lia)
                  Hn Vx Vy Fx Fy Cx Cy) as [sample Hs].
      unfold distortPixel. rewrite Ef. cbn [mbind option_bind]. rewrite Hs. reflexivity. }
  destruct Hd as [result Hres]. exists result. split; [exact Hres|].
  destruct (distortImage_Some_inv _ _ _ _ _ _ _ _ _ Hwf Hres) as (Hwf' & Hw' & Hh' & Hn').
  split; [exact Hwf'|].
  unfold hasSameDimsAs. rewrite Hw', Hh', Hn', !Z.eqb_refl. reflexivity.
Qed.

Lemma distortImage_defined_witness :
  exists result,
    distortImage pow_std img_3x3 [seg 0 0 2 0] [seg 0 0 2 0] one_half one one zero
    = Some result /\
    image_wf result /\ hasSameDimsAs img_3x3 result = true.
Proof.
  apply (distortImage_defined pow_std img_3x3 [seg 0 0 2 0] [seg 0 0 2 0]
           one_half one one zero img_3x3_wf).
  - cbn. lia.
  - reflexivity.
  - intros row col Hr Hc. cbn in Hr, Hc.
    assert (Hrow : row = 0 \/ row = 1 \/ row = 2) by lia.
    assert (Hcol : col = 0 \/ col = 1 \/ col = 2) by lia.
    destruct Hrow as [-> | [-> | ->]], Hcol as [-> | [-> | ->]];
      (eexists; split; [vm_compute; reflexivity|]);
      (split; [vm_compute; reflexivity|]; split; [vm_compute; reflexivity|]);
      [ exists 0, 0 | exists 1, 0 | exists 2, 0
      | exists 0, 1 | exists 1, 1 | exists 2, 1
      | exists 0, 2 | exists 1, 2 | exists 2, 2 ];
      (split; [vm_compute; reflexivity|]; split; [vm_compute; reflexivity|]);
      unfold INT_MIN, INT_MAX; lia.
Defined.

(** ** Image.cpp: a time that is NaN *)

Lemma sub_nan_r (x : double) : (x - nan)%D = nan.
Proof. destruct x; reflexivity. Qed.

Lemma lerp_nan (s target : LineSegment) :
  Segment.lerp s target nan = mkLineSegment nanVec nanVec.
Proof.
  unfold Segment.lerp, vadd, vscale, vscale_r, nanVec. cbn [vx vy].
  rewrite sub_nan_r, !mul_nan_l, !add_nan_r. reflexivity.
Qed.

Section NanTime.

Variable pow : double -> double -> double.

Lemma featureTerm_nan_time (curr : Vec2) (a b p : double)
    (start_ln target : LineSegment) :
  featureTerm pow curr nan a b p start_ln target = None.
Proof.
  unfold featureTerm. rewrite lerp_nan.
  change (Segment.lineParameter (mkLineSegment nanVec nanVec) curr) with nan.
  assert (Hv : Segment.signedLineDistance (mkLineSegment nanVec nanVec) curr = nan).
  { unfold Segment.signedLineDistance, dot, vsub, nanVec; cbn [start vx vy].
    rewrite !sub_nan_r, !mul_nan_l. reflexivity. }
  rewrite Hv. reflexivity.
Qed.

Lemma finalSource_nan_time (seg_start seg_end : list LineSegment)
    (curr : Vec2) (a b p : double) :
  finalSource pow seg_start seg_end curr nan a b p
  = match zip seg_start seg_end with [] => Some nanVec | _ :: _ => None end.
Proof.
  unfold finalSource, weightedSums.
  destruct (zip seg_start seg_end) as [|segs l].
  - cbn. change (Algebra3.div _ _) with nanVec. f_equal. apply vadd_nan_r.
  - cbn [fold_left mbind option_bind]. unfold accumulate at 2.
    rewrite featureTerm_nan_time. cbn [mbind option_bind].
    rewrite fold_accumulate_None. reflexivity.
Qed.

End NanTime.

(** X28: a time that is NaN is let through by the sanity check of
    [main].  It makes the interpolated segment of every feature NaN, so the
    distance of every feature is [abs] of a NaN converted to [int], which
    is undefined: with at least one feature no source location is computed
    within defined behaviour.  With no feature the source location is NaN.
    Either way [distortImage] and [morphImages] are undefined on an image
    with at least one pixel. *)
Theorem morphImages_nan_time (pow : double -> double -> double)
    (img1 img2 : Image) (seg1 seg2 : list LineSegment) (a b p : double) :
  1 <= width img1 -> 1 <= height img1 ->
  clampTime nan = nan /\
  (forall curr start_ln target,
     featureTerm pow curr nan a b p start_ln target = None) /\
  (forall curr, zip seg1 seg2 <> [] ->
     finalSource pow seg1 seg2 curr nan a b p = None) /\
  (forall curr, zip seg1 seg2 = [] ->
     finalSource pow seg1 seg2 curr nan a b p = Some nanVec) /\
  distortImage pow img1 seg1 seg2 nan a b p = None /\
  morphImages pow img1 img2 seg1 seg2 (clampTime nan) a b p = None.
Proof.
  intros Hw Hh.
  assert (Hd : distortImage pow img1 seg1 seg2 nan a b p = None).
  { apply distortImage_nanSource; try done.
    intros src. rewrite finalSource_nan_time.
    destruct (zip seg1 seg2); [by intros [= <-] | discriminate]. }
  split; [reflexivity|]. split; [intros; apply featureTerm_nan_time|].
  split; [|split; [|split]].
  - intros curr Hz. rewrite finalSource_nan_time. by destruct (zip seg1 seg2).
  - intros curr Hz. rewrite finalSource_nan_time, Hz. reflexivity.
  - exact Hd.
  - change (clampTime nan) with nan. unfold morphImages.
    destruct (negb _); [reflexivity|]. rewrite Hd. reflexivity.
Qed.

Lemma morphImages_nan_time_witness :
  finalSource pow_std [seg 0 0 2 0] [seg 0 0 2 0] (pt 1 1) nan one one zero = None /\
  morphImages pow_std img_3x3 img_3x3 [seg 0 0 2 0] [seg 0 0 2 0]
    (clampTime nan) one one zero = None.
Proof.
  assert (Hw : 1 <= width img_3x3) by (cbn; lia).
  assert (Hh : 1 <= height img_3x3) by (cbn; lia).
  destruct (morphImages_nan_time pow_std img_3x3 img_3x3 [seg 0 0 2 0] [seg 0 0 2 0]
              one one zero Hw Hh) as (_ & _ & Hs & _ & _ & Hm).
  split; [apply Hs; discriminate | exact Hm].
Defined.

(** ** Image.cpp: the morph run backwards *)

Lemma scanPixels_ext (w h : Z) (body body' : Z -> Z -> option (list Z)) :
  (forall row col, body row col = body' row col) ->
  scanPixels w h body = scanPixels w h body'.
Proof.
  intros H. unfold scanPixels. f_equal.
  apply mapM_ext_in. intros row _.
  rewrite (mapM_ext_in (body row) (body' row)); [reflexivity|].
  intros col _. apply H.
Qed.

Lemma blendByte_swap (p1 p2 : Z) (t : double) :
  (one - (one - t))%D = t -> blendByte p1 p2 (one - t)%D = blendByte p2 p1 t.
Proof.
  intros Ht. unfold blendByte, blendValue. rewrite Ht. f_equal. apply add_comm.
Qed.

Lemma hasSameDimsAs_sym (a b : Image) : hasSameDimsAs a b = hasSameDimsAs b a.
Proof.
  unfold hasSameDimsAs.
  by rewrite (Z.eqb_sym (width a)), (Z.eqb_sym (height a)), (Z.eqb_sym (numChannels a)).
Qed.

Lemma blendImages_swap_aux (img1 img2 : Image) (t : double) :
  (one - (one - t))%D = t ->
  blendImages img1 img2 (one - t)%D = blendImages img2 img1 t.
Proof.
  intros Ht. unfold blendImages. rewrite (hasSameDimsAs_sym img2 img1).
  destruct (hasSameDimsAs img1 img2) eqn:Hdims; [|reflexivity]. cbn [negb].
  unfold hasSameDimsAs in Hdims.
  apply andb_true_iff in Hdims as [Hdims Hn]. apply andb_true_iff in Hdims as [Hw Hh].
  apply Z.eqb_eq in Hw, Hh, Hn. rewrite <- Hw, <- Hh, <- Hn.
  rewrite (scanPixels_ext _ _ (blendPixel img1 img2 (one - t)%D) (blendPixel img2 img1 t));
    [reflexivity|].
  intros row col. unfold blendPixel. rewrite <- Hn.
  apply mapM_ext_in. intros ch _.
  destruct (pixel img1 row col ch) as [p1|], (pixel img2 row col ch) as [p2|];
    try reflexivity.
  cbn. by apply blendByte_swap.
Qed.

(** X29: when [1 - (1 - t)] is [t] again, as for 0.5, blending two
    images with weight [1 - t] is blending them in the other order with
    weight [t], byte for byte and with the same failures. *)
Theorem blendImages_swap (img1 img2 : Image) (t : double) :
  (one - (one - t))%D = t ->
  blendImages img1 img2 (one - t)%D = blendImages img2 img1 t /\
  (forall p1 p2, blendByte p1 p2 (one - t)%D = blendByte p2 p1 t).
Proof.
  intros Ht. split.
  - by apply blendImages_swap_aux.
  - intros p1 p2. by apply blendByte_swap.
Qed.

Lemma blendImages_swap_witness :
  blendImages img_grey100 img_grey200 (one - one_half)%D
  = blendImages img_grey200 img_grey100 one_half.
Proof.
  apply (proj1 (blendImages_swap img_grey100 img_grey200 one_half eq_refl)).
Defined.

(** X30: when [1 - (1 - t)] is [t] again, morphing the first image into
    the second at time [t] gives the image that morphing the second into
    the first gives at time [1 - t], with the feature lists exchanged. *)
Theorem morphImages_reverse (pow : double -> double -> double)
    (img1 img2 : Image) (seg1 seg2 : list LineSegment) (t a b p : double) :
  (one - (one - t))%D = t ->
  morphImages pow img1 img2 seg1 seg2 t a b p
  = morphImages pow img2 img1 seg2 seg1 (one - t)%D a b p.
Proof.
  intros Ht. unfold morphImages. rewrite (hasSameDimsAs_sym img2 img1), Ht.
  destruct (hasSameDimsAs img1 img2); [|reflexivity]. cbn [negb].
  destruct (distortImage pow img1 seg1 seg2 t a b p) as [d1|],
           (distortImage pow img2 seg2 seg1 (one - t)%D a b p) as [d2|];
    try reflexivity.
  cbn [mbind option_bind]. by apply blendImages_swap_aux.
Qed.

Lemma morphImages_reverse_witness :
  morphImages pow_std (mkImage 1 1 1 [100]) (mkImage 1 1 1 [200])
    [seg 0 0 2 0] [seg 0 0 4 0] one_half one one zero
  = morphImages pow_std (mkImage 1 1 1 [200]) (mkImage 1 1 1 [100])
      [seg 0 0 4 0] [seg 0 0 2 0] (one - one_half)%D one one zero.
Proof.
  apply (morphImages_reverse pow_std (mkImage 1 1 1 [100]) (mkImage 1 1 1 [200])
           [seg 0 0 2 0] [seg 0 0 4 0] one_half one one zero).
  reflexivity.
Defined.

(** ** The sampler one channel at a time *)

Lemma sampleBilinear_lookup (image : Image) (loc : Vec2) (col0 row0 : Z)
    (sample : list Z) (ch : Z) :
  floor_to_int (vx loc) = Some col0 -> floor_to_int (vy loc) = Some row0 ->
  sampleBilinear image loc = Some sample -> 0 <= ch < numChannels image ->
  exists byte,
    sample !! Z.to_nat ch = Some byte /\
    sampleChannel image loc col0 (col0 + 1) row0 (row0 + 1) ch = Some byte.
Proof.
  intros Fx Fy H Hch. unfold sampleBilinear in H.
  rewrite Fx in H. cbn [mbind option_bind] in H.
  destruct (int_add col0 1) as [col1|] eqn:E1; cbn [mbind option_bind] in H;
    [|discriminate H].
  apply int_add_Some in E1 as [-> _].
  rewrite Fy in H. cbn [mbind option_bind] in H.
  destruct (int_add row0 1) as [row1|] eqn:E2; cbn [mbind option_bind] in H;
    [|discriminate H].
  apply int_add_Some in E2 as [-> _].
  destruct (mapM _ _) as [chans|] eqn:Em; cbn [mbind option_bind] in H;
    [|discriminate H].
  destruct (4 <? numChannels image); [discriminate H|]. injection H as <-.
  apply mapM_Some_1 in Em.
  assert (Hs : seqZ 0 (numChannels image) !! Z.to_nat ch = Some ch).
  { apply lookup_seqZ. lia. }
  destruct (Forall2_lookup_l _ _ _ _ _ Em Hs) as (byte & Hb & Hf).
  exists byte. split; [|exact Hf].
  rewrite lookup_app_l by (by eapply lookup_lt_Some). exact Hb.
Qed.

Lemma byte_cases2 (f : Z -> Z -> bool) :
  forallb (fun a => forallb (f a) (seqZ 0 256)) (seqZ 0 256) = true ->
  forall a b, 0 <= a <= 255 -> 0 <= b <= 255 -> f a b = true.
Proof.
  intros H a b Ha Hb. rewrite forallb_forall in H.
  assert (Hin : forall z, 0 <= z <= 255 -> In z (seqZ 0 256)).
  { intros z Hz. apply list_elem_of_In, elem_of_seqZ. lia. }
  specialize (H a (Hin a Ha)). rewrite forallb_forall in H. apply H, Hin, Hb.
Qed.

(** ** C5: the sampler far outside the image *)

(** At (-1000.5, 1000.5) each of the four weights is 1/4 and each term of
    the sum is a quarter of the byte, exactly. *)
Lemma far_outside_term (p : Z) :
  0 <= p <= 255 ->
  (of_int p * (of_int (-1000) - vx far_outside) * (of_int 1001 - vy far_outside))%D
  = binary_normalize prec emax p (-2) false /\
  (of_int p * (of_int (-1000) - vx far_outside) * (vy far_outside - of_int 1000))%D
  = binary_normalize prec emax p (-2) false /\
  (of_int p * (vx far_outside - of_int (-1001)) * (of_int 1001 - vy far_outside))%D
  = binary_normalize prec emax p (-2) false /\
  (of_int p * (vx far_outside - of_int (-1001)) * (vy far_outside - of_int 1000))%D
  = binary_normalize prec emax p (-2) false.
Proof.
  intros Hp.
  assert (H : forall a, 0 <= a <= 255 ->
    bool_decide (
      (of_int a * (of_int (-1000) - vx far_outside) * (of_int 1001 - vy far_outside))%D
      = binary_normalize prec emax a (-2) false /\
      (of_int a * (of_int (-1000) - vx far_outside) * (vy far_outside - of_int 1000))%D
      = binary_normalize prec emax a (-2) false /\
      (of_int a * (vx far_outside - of_int (-1001)) * (of_int 1001 - vy far_outside))%D
      = binary_normalize prec emax a (-2) false /\
      (of_int a * (vx far_outside - of_int (-1001)) * (vy far_outside - of_int 1000))%D
      = binary_normalize prec emax a (-2) false) = true).
  { apply byte_cases. vm_compute. reflexivity. }
  specialize (H p Hp). by rewrite bool_decide_eq_true in H.
Qed.

Lemma far_outside_sum (pl pr : Z) :
  0 <= pl <= 255 -> 0 <= pr <= 255 ->
  clampByte (bilinearSum pl pr pl pr far_outside (-1001) (-1000) 1000 1001)
  = Some ((pl + pr) / 2).
Proof.
  intros Hl Hr. unfold bilinearSum.
  destruct (far_outside_term pl Hl) as (-> & _ & -> & _).
  destruct (far_outside_term pr Hr) as (_ & -> & _ & ->).
  assert (H : forall a b, 0 <= a <= 255 -> 0 <= b <= 255 ->
            bool_decide
              (clampByte (zero + binary_normalize prec emax a (-2) false
                          + binary_normalize prec emax b (-2) false
                          + binary_normalize prec emax a (-2) false
                          + binary_normalize prec emax b (-2) false)%D
               = Some ((a + b) / 2)) = true).
  { apply byte_cases2. vm_compute. reflexivity. }
  specialize (H pl pr Hl Hr). by rewrite bool_decide_eq_true in H.
Qed.

Lemma sampleBilinear_floor_None (image : Image) (loc : Vec2) :
  floor_to_int (vx loc) = None \/ floor_to_int (vx loc) = Some INT_MAX \/
  floor_to_int (vy loc) = None \/ floor_to_int (vy loc) = Some INT_MAX ->
  sampleBilinear image loc = None.
Proof.
  unfold sampleBilinear. intros [H | [H | [H | H]]].
  - rewrite H. reflexivity.
  - rewrite H. reflexivity.
  - rewrite H. destruct (floor_to_int (vx loc)) as [c|]; [|reflexivity].
    cbn [mbind option_bind]. destruct (int_add c 1); reflexivity.
  - rewrite H. destruct (floor_to_int (vx loc)) as [c|]; [|reflexivity].
    cbn [mbind option_bind]. destruct (int_add c 1); reflexivity.
Qed.

(** C5 (fails on the code): whatever integers the floors of the
    coordinates are, the four lattice positions the sampler reads lie inside
    the buffer and every byte it fetches there exists, and at integer
    coordinates within the range of [int] the result is the pixel at the
    clamped position.  But a coordinate far outside does not resolve to a
    border colour in general, and the sampler is not defined for every
    coordinate.  At (-1000.5, 1000.5), on every image at least two pixels
    wide and at most 1001 high, each channel is the floor of the mean of the
    two leftmost pixels of the last row: 35 on the rows [10 20], [30 40],
    whose clamped border pixel is 30.  And when a coordinate is not finite,
    or its floor is [INT_MAX] or beyond the range of [int], the conversion
    to [int] or [col0 + 1] is undefined. *)
Theorem sampleBilinear_far_outside (image : Image) :
  image_wf image -> 1 <= width image -> 1 <= height image ->
  (forall (loc : Vec2) (col0 col1 row0 row1 ch : Z),
     0 <= ch < numChannels image ->
     let L := sanitize (width image) (height image) col0 row0 in
     (0 <= pr0 L <= height image - 1 /\ 0 <= pr1 L <= height image - 1 /\
      0 <= pc0 L <= width image - 1 /\ 0 <= pc1 L <= width image - 1) /\
     exists p00 p01 p10 p11,
       pixel image (pr0 L) (pc0 L) ch = Some p00 /\
       pixel image (pr0 L) (pc1 L) ch = Some p01 /\
       pixel image (pr1 L) (pc0 L) ch = Some p10 /\
       pixel image (pr1 L) (pc1 L) ch = Some p11 /\
       sampleChannel image loc col0 col1 row0 row1 ch
       = clampByte (bilinearSum p00 p01 p10 p11 loc col0 col1 row0 row1)) /\
  (numChannels image <= 4 ->
   forall cx cy : Z,
     INT_MIN <= cx < INT_MAX -> INT_MIN <= cy < INT_MAX ->
     sampleBilinear image (pt cx cy)
     = Some (pixelBytes image (clampIndex cy (height image - 1))
                              (clampIndex cx (width image - 1))
             ++ replicate (Z.to_nat (4 - numChannels image)) 0)) /\
  (numChannels image <= 4 -> 2 <= width image -> height image <= 1001 ->
   exists sample,
     sampleBilinear image far_outside = Some sample /\
     forall ch, 0 <= ch < numChannels image ->
       exists pl pr,
         pixel image (height image - 1) 0 ch = Some pl /\
         pixel image (height image - 1) 1 ch = Some pr /\
         sample !! Z.to_nat ch = Some ((pl + pr) / 2)) /\
  (forall loc : Vec2,
     is_finite (vx loc) = false \/ is_finite (vy loc) = false ->
     sampleBilinear image loc = None) /\
  (forall (loc : Vec2) (c : Z),
     floorZ (vx loc) = Some c \/ floorZ (vy loc) = Some c ->
     c < INT_MIN \/ INT_MAX <= c ->
     sampleBilinear image loc = None) /\
  sampleBilinear image (pt INT_MAX 0) = None.
Proof.
  intros Hwf Hw Hh. split; [|split; [|split; [|split; [|split]]]].
  - intros loc col0 col1 row0 row1 ch Hch L.
    pose proof (sanitize_in_bounds (width image) (height image) col0 row0 Hw Hh)
      as [[Hr0 Hr1] [Hc0 Hc1]].
    fold L in Hr0, Hr1, Hc0, Hc1.
    split; [tauto|].
    destruct (pixel_in_bounds image (pr0 L) (pc0 L) ch) as (p00 & E00 & _); [done|lia|lia|done|].
    destruct (pixel_in_bounds image (pr0 L) (pc1 L) ch) as (p01 & E01 & _); [done|lia|lia|done|].
    destruct (pixel_in_bounds image (pr1 L) (pc0 L) ch) as (p10 & E10 & _); [done|lia|lia|done|].
    destruct (pixel_in_bounds image (pr1 L) (pc1 L) ch) as (p11 & E11 & _); [done|lia|lia|done|].
    exists p00, p01, p10, p11. repeat (split; [done|]).
    unfold sampleChannel. fold L. rewrite E00, E01, E10, E11. reflexivity.
  - intros Hn cx cy Hx Hy. by apply sampleBilinear_integer.
  - intros Hn Hw2 Hh2.
    assert (Fx : floorZ (vx far_outside) = Some (-1001)) by (vm_compute; reflexivity).
    assert (Fy : floorZ (vy far_outside) = Some 1000) by (vm_compute; reflexivity).
    assert (Vx : valid (vx far_outside) = true) by (vm_compute; reflexivity).
    assert (Vy : valid (vy far_outside) = true) by (vm_compute; reflexivity).
    destruct (sampleBilinear_defined image far_outside (-1001) 1000 Hwf Hw Hh Hn Vx Vy Fx Fy)
      as [sample Hs]; [unfold INT_MIN, INT_MAX; lia | unfold INT_MIN, INT_MAX; lia |].
    exists sample. split; [exact Hs|]. intros ch Hch.
    assert (Gx : floor_to_int (vx far_outside) = Some (-1001)) by (vm_compute; reflexivity).
    assert (Gy : floor_to_int (vy far_outside) = Some 1000) by (vm_compute; reflexivity).
    destruct (sampleBilinear_lookup image far_outside (-1001) 1000 sample ch Gx Gy Hs Hch)
      as (byte & Hb & Hc).
    change (-1001 + 1) with (-1000) in Hc. change (1000 + 1) with 1001 in Hc.
    unfold sampleChannel in Hc.
    assert (HL : sanitize (width image) (height image) (-1001) 1000
                 = mkLattice 0 1 (height image - 1) (height image - 1))
      by (unfold sanitize; f_equal; lia).
    rewrite HL in Hc. cbn [pc0 pc1 pr0 pr1] in Hc.
    destruct (pixel_in_bounds image (height image - 1) 0 ch) as (pl & El & Bl);
      [done|lia|lia|done|].
    destruct (pixel_in_bounds image (height image - 1) 1 ch) as (pr & Er & Br);
      [done|lia|lia|done|].
    rewrite El, Er in Hc. cbn [mbind option_bind] in Hc.
    rewrite far_outside_sum in Hc by done.
    exists pl, pr. split; [exact El|]. split; [exact Er|]. congruence.
  - intros loc Hf. apply sampleBilinear_floor_None.
    destruct Hf as [Hf | Hf]; [left | right; right; left];
      unfold floor_to_int;
      match goal with |- context [floorZ ?x] => destruct x; try discriminate Hf; reflexivity end.
  - intros loc c Hfl Hc. apply sampleBilinear_floor_None.
    assert (Hin : INT_MAX < c -> in_int c = false).
    { intros Hlt. unfold in_int. destruct (Z.leb_spec c INT_MAX); [lia|].
      apply andb_false_r. }
    assert (Hin' : c < INT_MIN -> in_int c = false).
    { intros Hlt. unfold in_int. destruct (Z.leb_spec INT_MIN c); [lia|]. reflexivity. }
    assert (Hmax : in_int INT_MAX = true) by reflexivity.
    destruct Hfl as [Hfl | Hfl]; unfold floor_to_int; rewrite Hfl;
      destruct (Z.eq_dec c INT_MAX) as [-> | Hne].
    + right; left. rewrite Hmax. reflexivity.
    + left. rewrite ?Hin, ?Hin' by lia.
      destruct Hc as [Hc | Hc]; [rewrite Hin' by lia | rewrite Hin by lia]; reflexivity.
    + right; right; right. rewrite Hmax. reflexivity.
    + right; right; left.
      destruct Hc as [Hc | Hc]; [rewrite Hin' by lia | rewrite Hin by lia]; reflexivity.
  - apply sampleBilinear_floor_None. right; left. vm_compute. reflexivity.
Qed.

Lemma sampleBilinear_far_outside_witness :
  exists sample,
    sampleBilinear img_2x2 far_outside = Some sample /\
    sample !! Z.to_nat 0 = Some 35 /\
    pixel img_2x2 1 0 0 = Some 30.
Proof.
  assert (Hw : 1 <= width img_2x2) by (cbn; lia).
  assert (Hh : 1 <= height img_2x2) by (cbn; lia).
  destruct (sampleBilinear_far_outside img_2x2 img_2x2_wf Hw Hh)
    as (_ & _ & Hfar & _).
  destruct Hfar as (sample & Hs & Hch); [cbn; lia | cbn; lia | cbn; lia |].
  exists sample. split; [exact Hs|]. split; [|reflexivity].
  destruct (Hch 0) as (pl & pr & El & Er & Eb); [cbn; lia|].
  change (pixel img_2x2 (height img_2x2 - 1) 0 0) with (Some 30) in El.
  change (pixel img_2x2 (height img_2x2 - 1) 1 0) with (Some 40) in Er.
  injection El as <-. injection Er as <-. exact Eb.
Defined.

(** ** C6: the same segments at both ends *)

(** At the source [(1 - 2^-53, 0)] the terms of pixel [(0, 1)] and of pixel
    [(1, 1)] vanish, the weight of pixel [(0, 0)] is [2^-53] and the weight
    of pixel [(1, 0)] is [1 - 2^-53]. *)
Lemma one_pred_term (p : Z) :
  0 <= p <= 255 ->
  (of_int p * (of_int 1 - one_pred) * (of_int 1 - zero))%D
  = binary_normalize prec emax p (-53) false /\
  (of_int p * (of_int 1 - one_pred) * (zero - of_int 0))%D = zero /\
  (of_int p * (one_pred - of_int 0) * (of_int 1 - zero))%D = (of_int p * one_pred)%D /\
  (of_int p * (one_pred - of_int 0) * (zero - of_int 0))%D = zero.
Proof.
  intros Hp.
  assert (H : forall a, 0 <= a <= 255 ->
    bool_decide (
      (of_int a * (of_int 1 - one_pred) * (of_int 1 - zero))%D
      = binary_normalize prec emax a (-53) false /\
      (of_int a * (of_int 1 - one_pred) * (zero - of_int 0))%D = zero /\
      (of_int a * (one_pred - of_int 0) * (of_int 1 - zero))%D = (of_int a * one_pred)%D /\
      (of_int a * (one_pred - of_int 0) * (zero - of_int 0))%D = zero) = true).
  { apply byte_cases. vm_compute. reflexivity. }
  specialize (H p Hp). by rewrite bool_decide_eq_true in H.
Qed.

Lemma one_pred_sum (p00 p01 p10 p11 : Z) :
  0 <= p00 <= 255 -> 0 <= p01 <= 255 -> 0 <= p10 <= 255 -> 0 <= p11 <= 255 ->
  exists r,
    clampByte (bilinearSum p00 p01 p10 p11 (mkVec2 one_pred zero) 0 1 0 1) = Some r /\
    (r = p10 \/ r = p10 - 1) /\
    (2 * p00 < p10 -> r = p10 - 1) /\
    (p10 <= p00 -> r = p10).
Proof.
  intros H00 H01 H10 H11. unfold bilinearSum. cbn [vx vy].
  destruct (one_pred_term p00 H00) as (-> & _ & _ & _).
  destruct (one_pred_term p01 H01) as (_ & -> & _ & _).
  destruct (one_pred_term p10 H10) as (_ & _ & -> & _).
  destruct (one_pred_term p11 H11) as (_ & _ & _ & ->).
  pose (check := fun b : Z =>
    let t10 := (of_int b * one_pred)%D in
    forallb (fun a : Z =>
      match clampByte (zero + binary_normalize prec emax a (-53) false
                       + zero + t10 + zero)%D with
      | Some r =>
          ((r =? b) || (r =? b - 1))
          && (if 2 * a <? b then r =? b - 1 else true)
          && (if b <=? a then r =? b else true)
      | None => false
      end) (seqZ 0 256)).
  assert (H : forall b, 0 <= b <= 255 -> check b = true)
    by (apply byte_cases; vm_compute; reflexivity).
  specialize (H p10 H10). unfold check in H. cbv zeta in H.
  rewrite forallb_forall in H.
  specialize (H p00 ltac:(apply list_elem_of_In, elem_of_seqZ; lia)).
  destruct (clampByte _) as [r|]; [|discriminate H].
  exists r. split; [reflexivity|].
  apply andb_true_iff in H as [H H3]. apply andb_true_iff in H as [H1 H2].
  split; [|split].
  - apply orb_true_iff in H1 as [H1 | H1]; apply Z.eqb_eq in H1; auto.
  - intros Hlt. destruct (Z.ltb_spec (2 * p00) p10); [|lia]. by apply Z.eqb_eq.
  - intros Hle. destruct (Z.leb_spec p10 p00); [|lia]. by apply Z.eqb_eq.
Qed.

(** C6 (fails on the code): with the same segments at both ends the warp
    is not the identity.  For the single feature (0,0)-(3,1), [t = 0],
    [a = b = 1] and [p = 0] the source location computed for the pixel in
    column 1 of row 0 is [(1 - 2^-53, 0)]: the rounding of [u], of the
    reciprocal of the length and of the products leaves it one unit in the
    last place left of the pixel.  The sampler then works in the cell left
    of the pixel, where the weight [(x - col0) * (row1 - y)] of nearly 1
    goes to the pixel of row 1 and column 0, and floors the sum.  So on every
    image with at least two rows and columns, whenever [distortImage]
    returns, each channel of pixel (0, 1) of the result is the byte of pixel
    (1, 0) of the input or one less, and the result differs from the input
    unless the input has these bytes there.  The 3x3 image with the bytes
    10, 20, ..., 90 comes out as 10, 39, 49 / 20, 50, 80 / 49, 60, 90. *)
Theorem distort_same_segments_not_identity :
  finalSource pow_std [seg 0 0 3 1] [seg 0 0 3 1] (pt 1 0) zero one one zero
  = Some (mkVec2 one_pred zero) /\
  (one_pred <? one)%D = true /\
  (forall image result : Image,
     image_wf image -> 2 <= width image -> 2 <= height image ->
     distortImage pow_std image [seg 0 0 3 1] [seg 0 0 3 1] zero one one zero
     = Some result ->
     forall ch, 0 <= ch < numChannels image ->
       exists p00 p10,
         pixel image 0 0 ch = Some p00 /\ pixel image 1 0 ch = Some p10 /\
         (pixel result 0 1 ch = Some p10 \/ pixel result 0 1 ch = Some (p10 - 1)) /\
         (2 * p00 < p10 -> pixel result 0 1 ch = Some (p10 - 1)) /\
         (p10 <= p00 -> pixel result 0 1 ch = Some p10)) /\
  (forall (image : Image) (ch p01 p10 : Z),
     image_wf image -> 2 <= width image -> 2 <= height image ->
     0 <= ch < numChannels image ->
     pixel image 0 1 ch = Some p01 -> pixel image 1 0 ch = Some p10 ->
     p01 <> p10 -> p01 <> p10 - 1 ->
     distortImage pow_std image [seg 0 0 3 1] [seg 0 0 3 1] zero one one zero
     <> Some image) /\
  distortImage pow_std img_3x3 [seg 0 0 3 1] [seg 0 0 3 1] zero one one zero
  = Some (mkImage 3 3 1 [10; 39; 49; 20; 50; 80; 49; 60; 90]) /\
  distortImage pow_std img_3x3 [seg 0 0 3 1] [seg 0 0 3 1] zero one one zero
  <> Some img_3x3.
Proof.
  assert (Hsrc : finalSource pow_std [seg 0 0 3 1] [seg 0 0 3 1] (pt 1 0)
                   zero one one zero = Some (mkVec2 one_pred zero))
    by (vm_compute; reflexivity).
  assert (Hgen : forall image result : Image,
     image_wf image -> 2 <= width image -> 2 <= height image ->
     distortImage pow_std image [seg 0 0 3 1] [seg 0 0 3 1] zero one one zero
     = Some result ->
     forall ch, 0 <= ch < numChannels image ->
       exists p00 p10,
         pixel image 0 0 ch = Some p00 /\ pixel image 1 0 ch = Some p10 /\
         (pixel result 0 1 ch = Some p10 \/ pixel result 0 1 ch = Some (p10 - 1)) /\
         (2 * p00 < p10 -> pixel result 0 1 ch = Some (p10 - 1)) /\
         (p10 <= p00 -> pixel result 0 1 ch = Some p10)).
  { intros image result Hwf Hw Hh Hd ch Hch.
    destruct (distortImage_pixel_inv pow_std image _ _ _ _ _ _ result 0 1 ch Hwf Hd)
      as (src & sample & Ef & Es & Epix); [lia | lia | done |].
    change (mkVec2 (of_int 1) (of_int 0)) with (pt 1 0) in Ef.
    rewrite Hsrc in Ef. injection Ef as <-.
    assert (Gx : floor_to_int (vx (mkVec2 one_pred zero)) = Some 0) by reflexivity.
    assert (Gy : floor_to_int (vy (mkVec2 one_pred zero)) = Some 0) by reflexivity.
    destruct (sampleBilinear_lookup image _ 0 0 sample ch Gx Gy Es Hch)
      as (byte & Hb & Hc).
    change (0 + 1) with 1 in Hc. unfold sampleChannel in Hc.
    assert (HL : sanitize (width image) (height image) 0 0 = mkLattice 0 1 0 1)
      by (unfold sanitize; f_equal; lia).
    rewrite HL in Hc. cbn [pc0 pc1 pr0 pr1] in Hc.
    destruct (pixel_in_bounds image 0 0 ch) as (p00 & E00 & B00); [done|lia|lia|done|].
    destruct (pixel_in_bounds image 0 1 ch) as (p01 & E01 & B01); [done|lia|lia|done|].
    destruct (pixel_in_bounds image 1 0 ch) as (p10 & E10 & B10); [done|lia|lia|done|].
    destruct (pixel_in_bounds image 1 1 ch) as (p11 & E11 & B11); [done|lia|lia|done|].
    rewrite E00, E01, E10, E11 in Hc. cbn [mbind option_bind] in Hc.
    destruct (one_pred_sum p00 p01 p10 p11 B00 B01 B10 B11) as (r & Hr & Hor & Hlo & Hhi).
    rewrite Hr in Hc. injection Hc as <-.
    exists p00, p10. rewrite Epix, Hb.
    split; [exact E00|]. split; [exact E10|].
    split; [destruct Hor as [-> | ->]; auto|].
    split; [intros H; by rewrite (Hlo H) | intros H; by rewrite (Hhi H)]. }
  split; [exact Hsrc|]. split; [reflexivity|]. split; [exact Hgen|].
  split; [|split].
  - intros image ch p01 p10 Hwf Hw Hh Hch E01 E10 Hne Hne1 Hd.
    destruct (Hgen image image Hwf Hw Hh Hd ch Hch) as (q00 & q10 & _ & F10 & Hor & _).
    rewrite E10 in F10. injection F10 as <-.
    rewrite E01 in Hor. destruct Hor as [[= ?] | [= ?]]; congruence.
  - vm_compute. reflexivity.
  - vm_compute. discriminate.
Qed.

Lemma distort_same_segments_not_identity_witness :
  distortImage pow_std img_3x3 [seg 0 0 3 1] [seg 0 0 3 1] zero one one zero
  <> Some img_3x3.
Proof.
  destruct distort_same_segments_not_identity as (_ & _ & _ & H & _).
  apply (H img_3x3 0 20 40 img_3x3_wf); cbn; (lia || reflexivity).
Defined.
